(** * A shallow embedding of the leveldb engine core

    The Go sources are embedded package by package, one Rocq module per
    package.  A method [T.M] of the Go code is the definition [T_M]; a
    receiver that the method mutates is threaded explicitly (the method
    returns the new receiver next to its results).  Go's [int],
    [uint64] and [time.Duration] are [Z]; a [[]byte] is a list of bytes;
    [error] is the inductive [error] below and a nil error is [None]. *)

From Stdlib Require Import ZArith Lia Bool.
From Stdlib Require Import Strings.Byte Strings.String.
From stdpp Require Import base list gmap strings sorting.

Local Open Scope Z_scope.

(** ** Bytes and errors *)

Definition bytes := list Byte.byte.

Definition b (s : string) : bytes := String.list_byte_of_string s.

Inductive error :=
| ErrNotFound
| ErrDBClosed
| ErrDBMissing
| ErrDBExists
| ErrCorruptWriteBatch
| ErrIncompleteRecord
| EOF
| ErrMissingTables (tables : list Z)
| ErrIO (what : string).

Definition error_eqb (x y : error) : bool :=
  match x, y with
  | ErrNotFound, ErrNotFound | ErrDBClosed, ErrDBClosed
  | ErrDBMissing, ErrDBMissing | ErrDBExists, ErrDBExists
  | ErrCorruptWriteBatch, ErrCorruptWriteBatch
  | ErrIncompleteRecord, ErrIncompleteRecord | EOF, EOF => true
  | ErrMissingTables t1, ErrMissingTables t2 => bool_decide (t1 = t2)
  | ErrIO s1, ErrIO s2 => String.eqb s1 s2
  | _, _ => false
  end.

(** Go's 64-bit integers: the signed wrap of [int] and [time.Duration]
    and the unsigned wrap of [uint64]. *)
Definition wrap64 (z : Z) : Z := (z + 2 ^ 63) mod 2 ^ 64 - 2 ^ 63.
Definition wrapU64 (z : Z) : Z := z mod 2 ^ 64.

Lemma wrap64_small (z : Z) : - 2 ^ 63 <= z < 2 ^ 63 -> wrap64 z = z.
Proof. intros H. unfold wrap64. rewrite Z.mod_small by lia. lia. Qed.


(** ** Package keys *)

Module keys.

(** [keys.Comparer]: the interface with the single method [Compare]. *)
Record Comparer := { Compare : bytes -> bytes -> Z }.

(** [keys.Comparator]: a [Comparer] that can also shorten separators.
    [AppendSuccessor dst start limit] appends to [dst]. *)
Record Comparator := {
  comparer :> Comparer;
  AppendSuccessor : bytes -> bytes -> bytes -> bytes;
  MakePrefixSuccessor : bytes -> bytes
}.

(** Modelled from the spec: the default user-key order is
    "lexicographic over bytes" (package keys is not among the sources). *)
Fixpoint bytesCompare (x y : bytes) : Z :=
  match x, y with
  | [], [] => 0
  | [], _ :: _ => -1
  | _ :: _, [] => 1
  | c :: x', d :: y' =>
      match N.compare (Byte.to_N c) (Byte.to_N d) with
      | Lt => -1
      | Gt => 1
      | Eq => bytesCompare x' y'
      end
  end.

Definition BytewiseComparer : Comparer := {| Compare := bytesCompare |}.

(** Modelled from the spec: "Sequence number. Unsigned 56-bit monotonic
    counter"; the sources use it as a [uint64] ([seq.Add(uint64(n))],
    [lastSequence + 1]). *)
Definition Sequence := Z.
Definition MaxSequence : Sequence := 2 ^ 56 - 1.
Definition Sequence_Add (s : Sequence) (n : Z) : Sequence := wrapU64 (s + n).

(** Modelled from the spec: "Value kind. One of {Value, Deletion} (1
    byte)".  [Seek] is the kind a lookup key carries: the largest kind, so
    that a packed suffix is at most the lookup's exactly when its sequence
    is. *)
Inductive Kind := Deletion | Value.
Definition Kind_byte (k : Kind) : Z := match k with Deletion => 0 | Value => 1 end.
Definition Kind_eqb (k1 k2 : Kind) : bool :=
  match k1, k2 with
  | Deletion, Deletion | Value, Value => true
  | _, _ => false
  end.

(** Modelled from the spec: "Internal key. Triple (user_key, sequence,
    kind) encoded as user_key || (sequence<<8 | kind) little-endian". *)
Definition packTag (seq : Sequence) (k : Kind) : Z := Z.lor (Z.shiftl seq 8) (Kind_byte k).

Definition byte_of_Z (z : Z) : Byte.byte :=
  match Byte.of_N (Z.to_N (z mod 256)) with
  | Some c => c
  | None => Byte.x00
  end.

Fixpoint putLE (n : nat) (v : Z) : bytes :=
  match n with
  | O => []
  | S n' => byte_of_Z v :: putLE n' (Z.shiftr v 8)
  end.

Fixpoint getLE (p : bytes) : Z :=
  match p with
  | [] => 0
  | c :: p' => Z.lor (Z.of_N (Byte.to_N c)) (Z.shiftl (getLE p') 8)
  end.

Definition NewInternalKey (ukey : bytes) (seq : Sequence) (k : Kind) : bytes :=
  ukey ++ putLE 8 (packTag seq k).

(** The user key and the packed suffix of an internal key.  (A key
    shorter than 8 bytes makes the Go slice expression panic; the
    truncated subtraction here gives it an empty user key.) *)
Definition InternalKey_Split (ikey : bytes) : bytes * Z :=
  let n := (length ikey - 8)%nat in
  (take n ikey, getLE (drop n ikey)).

(** Modelled from the spec: "The internal-key comparator orders by
    user-key ascending, then by (sequence,kind) packed descending". *)
Definition internalCompare (ucmp : Comparer) (x y : bytes) : Z :=
  let '(ux, tx) := InternalKey_Split x in
  let '(uy, ty) := InternalKey_Split y in
  let r := Compare ucmp ux uy in
  if r =? 0 then (if ty <? tx then -1 else if tx <? ty then 1 else 0) else r.

Definition InternalComparer (ucmp : Comparer) : Comparer :=
  {| Compare := internalCompare ucmp |}.

Lemma bytesCompare_refl (x : bytes) : bytesCompare x x = 0.
Proof.
  induction x as [|c x IH]; [reflexivity|].
  simpl. rewrite N.compare_refl. exact IH.
Qed.


Lemma bytesCompare_flip (x y : bytes) : bytesCompare y x = - bytesCompare x y.
Proof.
  revert y. induction x as [|c x IH]; intros [|d y]; simpl; try reflexivity.
  rewrite (N.compare_antisym (Byte.to_N c) (Byte.to_N d)).
  destruct (Byte.to_N c ?= Byte.to_N d)%N; simpl; auto.
Qed.

Lemma bytesCompare_le_trans (x y z : bytes) :
  bytesCompare x y <= 0 -> bytesCompare y z <= 0 -> bytesCompare x z <= 0.
Proof.
  revert y z. induction x as [|c x IH]; intros [|d y] [|e z]; simpl; try lia.
  destruct (N.compare_spec (Byte.to_N c) (Byte.to_N d)) as [E1|E1|E1];
    destruct (N.compare_spec (Byte.to_N d) (Byte.to_N e)) as [E2|E2|E2];
    try lia; intros H1 H2.
  - rewrite E1, E2, N.compare_refl. apply (IH y z); assumption.
  - rewrite E1. apply N.compare_lt_iff in E2. rewrite E2. lia.
  - rewrite <- E2. apply N.compare_lt_iff in E1. rewrite E1. lia.
  - assert (E : (Byte.to_N c < Byte.to_N e)%N) by lia.
    apply N.compare_lt_iff in E. rewrite E. lia.
Qed.

Lemma byte_of_Z_to_N (z : Z) : Z.of_N (Byte.to_N (byte_of_Z z)) = z mod 256.
Proof.
  unfold byte_of_Z.
  assert (Hr : 0 <= z mod 256 < 256) by (apply Z.mod_pos_bound; lia).
  destruct (Byte.of_N (Z.to_N (z mod 256))) as [c|] eqn:E.
  - apply Byte.to_of_N in E. rewrite E. lia.
  - apply Byte.of_N_None_iff in E. lia.
Qed.

Lemma length_putLE (n : nat) (v : Z) : length (putLE n v) = n.
Proof. revert v. induction n as [|n IH]; intros v; simpl; [reflexivity | rewrite IH; reflexivity]. Qed.

(** Little-endian bytes read back as the value they were cut from. *)
Lemma getLE_putLE (n : nat) (v : Z) :
  getLE (putLE n v) = v mod 2 ^ (8 * Z.of_nat n).
Proof.
  revert v. induction n as [|n IH]; intros v.
  - simpl. rewrite Z.mod_1_r. reflexivity.
  - cbn [putLE getLE]. rewrite byte_of_Z_to_N, IH.
    change 256 with (2 ^ 8).
    apply Z.bits_inj'. intros i Hi.
    rewrite Z.lor_spec, !Z.testbit_mod_pow2 by lia.
    rewrite Z.shiftl_spec by lia.
    destruct (Z.ltb_spec i 8) as [Hlo|Hhi].
    + rewrite (Z.testbit_neg_r _ (i - 8)) by lia.
      replace (i <? 8 * Z.of_nat (S n)) with true by (symmetry; apply Z.ltb_lt; lia).
      rewrite orb_false_r. reflexivity.
    + rewrite Z.testbit_mod_pow2 by lia.
      rewrite Z.shiftr_spec by lia.
      replace (i - 8 + 8) with i by lia. simpl.
      f_equal. destruct (Z.ltb_spec (i - 8) (8 * Z.of_nat n)), (Z.ltb_spec i (8 * Z.of_nat (S n)));
        try reflexivity; lia.
Qed.




End keys.

(** ** Go's [sort.Search] *)

Module sort.

(** [Search(n, f)]: the loop [i, j := 0, n; for i < j { h := int(uint(i+j) >> 1);
    if !f(h) { i = h + 1 } else { j = h } }; return i].  The loop halves
    [j - i], so [j - i] iterations of fuel are never used up. *)
Fixpoint Search_loop (fuel : nat) (f : Z -> bool) (i j : Z) : Z :=
  if i <? j then
    match fuel with
    | O => i
    | S fuel' =>
        let h := Z.shiftr (i + j) 1 in
        if negb (f h) then Search_loop fuel' f (h + 1) j
        else Search_loop fuel' f i h
    end
  else i.

Definition Search (n : Z) (f : Z -> bool) : Z :=
  Search_loop (Z.to_nat n) f 0 n.

Lemma Search_loop_spec (f : Z -> bool) (fuel : nat) :
  forall i j,
    0 <= i <= j ->
    (Z.to_nat (j - i) <= fuel)%nat ->
    (forall x y, i <= x <= y -> y < j -> f x = true -> f y = true) ->
    i <= Search_loop fuel f i j <= j /\
    (forall x, i <= x < Search_loop fuel f i j -> f x = false) /\
    (Search_loop fuel f i j < j -> f (Search_loop fuel f i j) = true).
Proof.
  induction fuel as [|fuel IH]; intros i j Hij Hfuel Hmono; simpl.
  - assert (i = j) by lia. subst j. rewrite Z.ltb_irrefl. split; [lia|]. split; intros; lia.
  - destruct (Z.ltb_spec i j) as [Hlt|Hge].
    2:{ split; [lia|]. split; intros; lia. }
    rewrite Z.shiftr_div_pow2 by lia. change (2 ^ 1) with 2.
    assert (Hh : i <= (i + j) / 2 < j).
    { split; [apply Z.div_le_lower_bound; lia | apply Z.div_lt_upper_bound; lia]. }
    set (h := (i + j) / 2) in *.
    destruct (f h) eqn:Hfh; simpl.
    + destruct (IH i h) as (Hr & Hlo & Hhi); [lia | lia | |].
      { intros x y Hxy Hy. apply Hmono; lia. }
      split; [lia|]. split; [exact Hlo|].
      intros Hrj. destruct (Z.eq_dec (Search_loop fuel f i h) h) as [->|Hne]; [exact Hfh|].
      apply Hhi. lia.
    + destruct (IH (h + 1) j) as (Hr & Hlo & Hhi); [lia | lia | |].
      { intros x y Hxy Hy. apply Hmono; lia. }
      split; [lia|]. split; [|exact Hhi].
      intros x Hx. destruct (Z_lt_le_dec x (h + 1)) as [Hxl|Hxg].
      * destruct (f x) eqn:Hfx; [|reflexivity].
        rewrite <- Hfh. symmetry. apply (Hmono x h); [lia | lia | exact Hfx].
      * apply Hlo. lia.
Qed.

Lemma Search_spec (n : Z) (f : Z -> bool) :
  0 <= n ->
  (forall x y, 0 <= x <= y -> y < n -> f x = true -> f y = true) ->
  0 <= Search n f <= n /\
  (forall x, 0 <= x < Search n f -> f x = false) /\
  (Search n f < n -> f (Search n f) = true).
Proof.
  intros Hn Hmono. unfold Search.
  apply Search_loop_spec; [lia | | exact Hmono].
  replace (n - 0) with n by lia. lia.
Qed.

End sort.

(** ** Package version: the iterator over a level's files *)

Module version.

Import keys.

(** The fields of [FileMeta] that [fileIterator] reads. *)
Record FileMeta := {
  Number : Z;
  Size : Z;
  Smallest : bytes;
  Largest : bytes
}.

Record fileIterator := {
  open : bool;
  icmp : Comparer;
  index : Z;
  files : list FileMeta
}.

Definition fileIterator_Valid (it : fileIterator) : bool :=
  (0 <=? index it) && (index it <? Z.of_nat (length (files it))).

Definition fileIterator_First (it : fileIterator) : fileIterator * bool :=
  ({| open := true; icmp := icmp it; index := 0; files := files it |}, true).

Definition fileIterator_Last (it : fileIterator) : fileIterator * bool :=
  ({| open := true; icmp := icmp it;
      index := Z.of_nat (length (files it)) - 1; files := files it |}, true).

Definition fileIterator_Next (it : fileIterator) : fileIterator * bool :=
  if negb (open it) then fileIterator_First it
  else
    let it' := {| open := open it; icmp := icmp it;
                  index := index it + 1; files := files it |} in
    (it', fileIterator_Valid it').

Definition fileIterator_Prev (it : fileIterator) : fileIterator * bool :=
  if negb (open it) then fileIterator_Last it
  else
    let it' := {| open := open it; icmp := icmp it;
                  index := index it - 1; files := files it |} in
    (it', fileIterator_Valid it').

(** The closure handed to [sort.Search]: [icmp.Compare(ikey, files[i].Largest) < 0].
    An index outside the slice panics in Go; [sort.Search] only asks
    inside [0, n). *)
Definition Seek_pred (it : fileIterator) (ikey : bytes) (i : Z) : bool :=
  match files it !! Z.to_nat i with
  | Some f => Compare (icmp it) ikey (Largest f) <? 0
  | None => false
  end.

Definition fileIterator_Seek (it : fileIterator) (ikey : bytes) : fileIterator * bool :=
  let it' := {| open := true; icmp := icmp it;
                index := sort.Search (Z.of_nat (length (files it))) (Seek_pred it ikey);
                files := files it |} in
  (it', fileIterator_Valid it').

(** [Key] reads [files[index].Largest]; outside the slice Go panics
    ([None] here). *)
Definition fileIterator_Key (it : fileIterator) : option bytes :=
  if fileIterator_Valid it then Largest <$> files it !! Z.to_nat (index it) else None.

Definition newFileIterator (fs : list FileMeta) (c : Comparer) : fileIterator :=
  {| open := false; icmp := c; index := 0; files := fs |}.

(** A level of files whose largest keys ascend under [c]. *)
Fixpoint sorted_by_largest (c : Comparer) (fs : list FileMeta) : bool :=
  match fs with
  | [] => true
  | f :: rest =>
      match rest with
      | [] => true
      | g :: _ => (Compare c (Largest f) (Largest g) <=? 0) && sorted_by_largest c rest
      end
  end.

(** What the claim promises of [Seek]: the position is the first file
    whose largest key is at or after [ikey]. *)
Definition first_at_or_after (c : Comparer) (fs : list FileMeta) (ikey : bytes) (i : Z) : Prop :=
  0 <= i <= Z.of_nat (length fs) /\
  (forall j f, (j < Z.to_nat i)%nat -> fs !! j = Some f -> Compare c (Largest f) ikey < 0) /\
  (forall f, fs !! Z.to_nat i = Some f -> 0 <= Compare c (Largest f) ikey).

(** What the code computes: the first file whose largest key is strictly
    after [ikey]. *)
Definition first_strictly_after (c : Comparer) (fs : list FileMeta) (ikey : bytes) (i : Z) : Prop :=
  0 <= i <= Z.of_nat (length fs) /\
  (forall j f, (j < Z.to_nat i)%nat -> fs !! j = Some f -> 0 <= Compare c ikey (Largest f)) /\
  (forall f, fs !! Z.to_nat i = Some f -> Compare c ikey (Largest f) < 0).

(** Two files of one level, as internal keys: user keys "c" and "k",
    each written at sequence 7. *)
Definition file1 : FileMeta :=
  {| Number := 4; Size := 100;
     Smallest := NewInternalKey (b "a") 3 Value;
     Largest := NewInternalKey (b "c") 7 Value |}.
Definition file2 : FileMeta :=
  {| Number := 5; Size := 100;
     Smallest := NewInternalKey (b "d") 5 Value;
     Largest := NewInternalKey (b "k") 7 Value |}.
Definition level1 : list FileMeta := [file1; file2].
Definition bytewise_icmp : Comparer := InternalComparer BytewiseComparer.

(** *** What [Seek] computes *)

Section SeekOrder.

Variable c : Comparer.
Hypothesis Compare_refl : forall x, Compare c x x <= 0.
Hypothesis Compare_le_trans :
  forall x y z, Compare c x y <= 0 -> Compare c y z <= 0 -> Compare c x z <= 0.
Hypothesis Compare_lt_le_trans :
  forall x y z, Compare c x y < 0 -> Compare c y z <= 0 -> Compare c x z < 0.

Lemma sorted_by_largest_lookup (fs : list FileMeta) :
  sorted_by_largest c fs = true ->
  forall i j f g, (i <= j)%nat -> fs !! i = Some f -> fs !! j = Some g ->
    Compare c (Largest f) (Largest g) <= 0.
Proof.
  induction fs as [|f0 rest IH]; intros Hs i j f g Hij Hi Hj; [discriminate|].
  destruct i as [|i], j as [|j]; simpl in Hi, Hj; try lia.
  - injection Hi as <-. injection Hj as <-. apply Compare_refl.
  - injection Hi as <-.
    destruct rest as [|g0 rest']; [discriminate|].
    simpl in Hs. apply andb_prop in Hs as [Hfg Hs].
    apply Z.leb_le in Hfg.
    apply (Compare_le_trans _ (Largest g0)); [exact Hfg|].
    apply (IH Hs 0%nat j g0 g); [lia | reflexivity | exact Hj].
  - apply (IH ltac:(simpl in Hs; destruct rest; [reflexivity|];
                    apply andb_prop in Hs; tauto) i j); [lia | exact Hi | exact Hj].
Qed.

Lemma Seek_pred_monotone (it : fileIterator) (ikey : bytes) :
  icmp it = c ->
  sorted_by_largest c (files it) = true ->
  forall x y, 0 <= x <= y -> y < Z.of_nat (length (files it)) ->
    Seek_pred it ikey x = true -> Seek_pred it ikey y = true.
Proof.
  intros Hc Hs x y Hxy Hy. unfold Seek_pred. rewrite Hc.
  destruct (files it !! Z.to_nat x) as [f|] eqn:Hx; [|discriminate].
  destruct (files it !! Z.to_nat y) as [g|] eqn:Hg.
  2:{ apply lookup_ge_None in Hg. lia. }
  intros Hlt. apply Z.ltb_lt in Hlt. apply Z.ltb_lt.
  apply (Compare_lt_le_trans _ (Largest f)); [exact Hlt|].
  apply (sorted_by_largest_lookup (files it) Hs (Z.to_nat x) (Z.to_nat y)); [lia | exact Hx | exact Hg].
Qed.

(** X9: On a level sorted by largest key, [Seek] stops at the first file
    whose largest key is strictly after the sought key, and reports
    whether there is one. *)
Lemma fileIterator_Seek_first_strictly_after (it : fileIterator) (ikey : bytes) :
  icmp it = c ->
  sorted_by_largest c (files it) = true ->
  first_strictly_after c (files it) ikey (index (fst (fileIterator_Seek it ikey))) /\
  snd (fileIterator_Seek it ikey) =
    (index (fst (fileIterator_Seek it ikey)) <? Z.of_nat (length (files it))).
Proof.
  intros Hc Hs. unfold fileIterator_Seek, fileIterator_Valid. simpl.
  destruct (sort.Search_spec (Z.of_nat (length (files it))) (Seek_pred it ikey))
    as (Hr & Hlo & Hhi); [lia | apply Seek_pred_monotone; assumption |].
  set (r := sort.Search _ _) in *.
  split.
  - split; [exact Hr|]. split.
    + intros j f Hj Hf. specialize (Hlo (Z.of_nat j) ltac:(lia)).
      unfold Seek_pred in Hlo. rewrite Nat2Z.id, Hf, Hc in Hlo.
      apply Z.ltb_ge in Hlo. exact Hlo.
    + intros f Hf. assert (Hlt : r < Z.of_nat (length (files it))).
      { apply lookup_lt_Some in Hf. lia. }
      specialize (Hhi Hlt). unfold Seek_pred in Hhi. rewrite Hf, Hc in Hhi.
      apply Z.ltb_lt in Hhi. exact Hhi.
  - destruct (Z.leb_spec 0 r); [reflexivity | lia].
Qed.

End SeekOrder.

(** C10 (the code departs from the claim): [level1] is sorted by largest
    key and the sought key equals the largest key of [file2], yet [Seek]
    steps past [file2] to index 2 and returns false; the first file whose
    largest key is at or after the sought key is the one at index 1. *)
Theorem fileIterator_Seek_skips_equal_largest :
  sorted_by_largest bytewise_icmp level1 = true /\
  Compare bytewise_icmp (Largest file2) (NewInternalKey (b "k") 7 Value) = 0 /\
  index (fst (fileIterator_Seek (newFileIterator level1 bytewise_icmp)
                                (NewInternalKey (b "k") 7 Value))) = 2 /\
  snd (fileIterator_Seek (newFileIterator level1 bytewise_icmp)
                         (NewInternalKey (b "k") 7 Value)) = false /\
  first_at_or_after bytewise_icmp level1 (NewInternalKey (b "k") 7 Value) 1.
Proof.
  split; [reflexivity|]. split; [reflexivity|].
  split; [reflexivity|]. split; [reflexivity|].
  split; [simpl; lia|]. split.
  - intros j f Hj Hf. destruct j as [|j]; [|simpl in Hj; lia].
    injection Hf as <-. vm_compute. reflexivity.
  - intros f Hf. injection Hf as <-. vm_compute. discriminate.
Qed.

(** *** Scanning a level *)

(** [n] calls of [Next], and of [Prev]. *)
Fixpoint fileIterator_Nexts (n : nat) (it : fileIterator) : fileIterator :=
  match n with
  | O => it
  | S n' => fileIterator_Nexts n' (fileIterator_Next it).1
  end.

Fixpoint fileIterator_Prevs (n : nat) (it : fileIterator) : fileIterator :=
  match n with
  | O => it
  | S n' => fileIterator_Prevs n' (fileIterator_Prev it).1
  end.

Lemma fileIterator_Nexts_at (n : nat) :
  forall it, open it = true ->
    fileIterator_Nexts n it =
    {| open := true; icmp := icmp it; index := index it + Z.of_nat n; files := files it |}.
Proof.
  induction n as [|n IH]; intros it Hopen.
  - simpl. rewrite Z.add_0_r. destruct it; simpl in *; subst; reflexivity.
  - cbn [fileIterator_Nexts]. unfold fileIterator_Next. rewrite Hopen. cbn [negb fst].
    rewrite IH by reflexivity. cbn [icmp index files]. f_equal. lia.
Qed.

Lemma fileIterator_Prevs_at (n : nat) :
  forall it, open it = true ->
    fileIterator_Prevs n it =
    {| open := true; icmp := icmp it; index := index it - Z.of_nat n; files := files it |}.
Proof.
  induction n as [|n IH]; intros it Hopen.
  - simpl. rewrite Z.sub_0_r. destruct it; simpl in *; subst; reflexivity.
  - cbn [fileIterator_Prevs]. unfold fileIterator_Prev. rewrite Hopen. cbn [negb fst].
    rewrite IH by reflexivity. cbn [icmp index files]. f_equal. lia.
Qed.

(** X10: A scan visits the files in order.  After [First], [n] calls of
    [Next] leave the iterator on file [n], and past the last file it is
    not valid; after [Last], [n] calls of [Prev] leave it on the file [n]
    places before the last one, and before the first file it is not
    valid.  Each [Next] and [Prev] of an open iterator returns whether the
    iterator is valid. *)
Theorem fileIterator_scans_in_order (it : fileIterator) (n : nat) :
  fileIterator_Key (fileIterator_Nexts n (fileIterator_First it).1) =
    Largest <$> files it !! n /\
  fileIterator_Valid (fileIterator_Nexts n (fileIterator_First it).1) =
    (n <? length (files it))%nat /\
  fileIterator_Key (fileIterator_Prevs n (fileIterator_Last it).1) =
    (if (n <? length (files it))%nat
     then Largest <$> files it !! (length (files it) - 1 - n)%nat else None) /\
  fileIterator_Valid (fileIterator_Prevs n (fileIterator_Last it).1) =
    (n <? length (files it))%nat /\
  (fileIterator_Next (fileIterator_Nexts n (fileIterator_First it).1)).2 =
    fileIterator_Valid (fileIterator_Nexts (S n) (fileIterator_First it).1) /\
  (fileIterator_Prev (fileIterator_Prevs n (fileIterator_Last it).1)).2 =
    fileIterator_Valid (fileIterator_Prevs (S n) (fileIterator_Last it).1).
Proof.
  assert (HN : forall k, fileIterator_Nexts k (fileIterator_First it).1 =
                 {| open := true; icmp := icmp it; index := Z.of_nat k; files := files it |}).
  { intros k. rewrite fileIterator_Nexts_at by reflexivity. reflexivity. }
  assert (HP : forall k, fileIterator_Prevs k (fileIterator_Last it).1 =
                 {| open := true; icmp := icmp it;
                    index := Z.of_nat (length (files it)) - 1 - Z.of_nat k;
                    files := files it |}).
  { intros k. rewrite fileIterator_Prevs_at by reflexivity. reflexivity. }
  assert (HVN : forall k, fileIterator_Valid
                   {| open := true; icmp := icmp it; index := Z.of_nat k; files := files it |} =
                 (k <? length (files it))%nat).
  { intros k. unfold fileIterator_Valid. simpl.
    destruct (Nat.ltb_spec k (length (files it))), (Z.ltb_spec (Z.of_nat k) (Z.of_nat (length (files it))));
      destruct (Z.leb_spec 0 (Z.of_nat k)); try reflexivity; lia. }
  assert (HVP : forall k, fileIterator_Valid
                   {| open := true; icmp := icmp it;
                      index := Z.of_nat (length (files it)) - 1 - Z.of_nat k;
                      files := files it |} =
                 (k <? length (files it))%nat).
  { intros k. unfold fileIterator_Valid. simpl.
    destruct (Nat.ltb_spec k (length (files it)));
      destruct (Z.leb_spec 0 (Z.of_nat (length (files it)) - 1 - Z.of_nat k));
      destruct (Z.ltb_spec (Z.of_nat (length (files it)) - 1 - Z.of_nat k)
                           (Z.of_nat (length (files it)))); try reflexivity; lia. }
  split_and!.
  - rewrite HN. unfold fileIterator_Key. rewrite HVN. simpl. rewrite Nat2Z.id.
    destruct (Nat.ltb_spec n (length (files it))) as [Hlt|Hge]; [reflexivity|].
    rewrite (proj2 (lookup_ge_None (files it) n)) by lia. reflexivity.
  - rewrite HN. apply HVN.
  - rewrite HP. unfold fileIterator_Key. rewrite HVP. simpl.
    destruct (Nat.ltb_spec n (length (files it))) as [Hlt|Hge]; [|reflexivity].
    do 2 f_equal. lia.
  - rewrite HP. apply HVP.
  - rewrite !HN. unfold fileIterator_Next. cbn [open negb snd index icmp files].
    replace (Z.of_nat n + 1) with (Z.of_nat (S n)) by lia. reflexivity.
  - rewrite !HP. unfold fileIterator_Prev. cbn [open negb snd index icmp files].
    replace (Z.of_nat (length (files it)) - 1 - Z.of_nat n - 1)
      with (Z.of_nat (length (files it)) - 1 - Z.of_nat (S n)) by lia. reflexivity.
Qed.

(** *** [Value] and [child] *)

Section Endian.

(** [endian.PutUint64] and [endian.Uint64] (package endian is not among
    the sources): eight bytes that read back as the number written. *)
Variable PutUint64 : Z -> bytes.
Variable Uint64 : bytes -> Z.
Hypothesis PutUint64_length : forall v, length (PutUint64 v) = 8%nat.
Hypothesis Uint64_PutUint64 : forall v, 0 <= v < 2 ^ 64 -> Uint64 (PutUint64 v) = v.

(** [Value]: number and size of the current file in [scratch[:8]] and
    [scratch[8:]]; outside the slice Go panics ([None] here). *)
Definition fileIterator_Value (it : fileIterator) : option bytes :=
  if fileIterator_Valid it then
    (fun f => PutUint64 (Number f) ++ PutUint64 (Size f)) <$> files it !! Z.to_nat (index it)
  else None.

(** [child]: the number and size [cache.NewIterator] is called with. *)
Definition fileIterator_child (value : bytes) : Z * Z :=
  (Uint64 (take 8 value), Uint64 (drop 8 value)).

(** X11: On a valid iterator [Value] is sixteen bytes from which [child]
    reads back the number and the size of the file the iterator is on. *)
Theorem fileIterator_child_of_Value (it : fileIterator) :
  fileIterator_Valid it = true ->
  Forall (fun f => 0 <= Number f < 2 ^ 64 /\ 0 <= Size f < 2 ^ 64) (files it) ->
  exists f value,
    files it !! Z.to_nat (index it) = Some f /\
    fileIterator_Key it = Some (Largest f) /\
    fileIterator_Value it = Some value /\
    length value = 16%nat /\
    fileIterator_child value = (Number f, Size f).
Proof.
  intros Hv Hrange. unfold fileIterator_Key, fileIterator_Value. rewrite Hv.
  unfold fileIterator_Valid in Hv. apply andb_true_iff in Hv as [H0 H1].
  apply Z.leb_le in H0. apply Z.ltb_lt in H1.
  destruct (lookup_lt_is_Some_2 (files it) (Z.to_nat (index it))) as [f Hf]; [lia|].
  rewrite Hf. exists f, (PutUint64 (Number f) ++ PutUint64 (Size f)).
  pose proof (proj1 (Forall_lookup _ _) Hrange _ _ Hf) as [Hn Hs].
  split_and!; try reflexivity.
  - rewrite length_app, !PutUint64_length. reflexivity.
  - unfold fileIterator_child.
    rewrite take_app_length', drop_app_length' by (symmetry; apply PutUint64_length).
    rewrite !Uint64_PutUint64 by assumption. reflexivity.
Qed.

End Endian.

(** *** Witnesses *)

Lemma bytesCompare_lt_le_trans (x y z : bytes) :
  bytesCompare x y < 0 -> bytesCompare y z <= 0 -> bytesCompare x z < 0.
Proof.
  intros Hxy Hyz.
  destruct (Z_lt_le_dec (bytesCompare x z) 0) as [Hlt|Hge]; [exact Hlt|].
  pose proof (bytesCompare_flip x z) as Hzx. pose proof (bytesCompare_flip x y) as Hyx.
  pose proof (bytesCompare_le_trans y z x Hyz ltac:(lia)). lia.
Qed.

(** Two files whose largest keys are "c" and "k". *)
Definition two_files : list FileMeta :=
  [ {| Number := 4; Size := 100; Smallest := b "a"; Largest := b "c" |};
    {| Number := 5; Size := 200; Smallest := b "d"; Largest := b "k" |} ].

Lemma fileIterator_Seek_first_strictly_after_witness :
  first_strictly_after BytewiseComparer two_files (b "c") 1 /\
  snd (fileIterator_Seek (newFileIterator two_files BytewiseComparer) (b "c")) = true.
Proof.
  exact (fileIterator_Seek_first_strictly_after BytewiseComparer
           (fun x => eq_ind_r (fun z => z <= 0) (Z.le_refl 0) (bytesCompare_refl x))
           bytesCompare_le_trans bytesCompare_lt_le_trans
           (newFileIterator two_files BytewiseComparer) (b "c") eq_refl eq_refl).
Defined.

Lemma fileIterator_child_of_Value_witness :
  exists f value,
    two_files !! 1%nat = Some f /\
    fileIterator_Value (putLE 8)
      (fileIterator_Seek (newFileIterator two_files BytewiseComparer) (b "c")).1 = Some value /\
    fileIterator_child getLE value = (5, 200).
Proof.
  assert (Hrt : forall v, 0 <= v < 2 ^ 64 -> getLE (putLE 8 v) = v).
  { intros v Hv. rewrite getLE_putLE. apply Z.mod_small. exact Hv. }
  assert (Hrange : Forall (fun f => 0 <= Number f < 2 ^ 64 /\ 0 <= Size f < 2 ^ 64) two_files).
  { repeat constructor; simpl; lia. }
  destruct (fileIterator_child_of_Value (putLE 8) getLE (length_putLE 8) Hrt
              (fileIterator_Seek (newFileIterator two_files BytewiseComparer) (b "c")).1
              eq_refl Hrange) as (f & value & Hf & _ & Hvalue & _ & Hchild).
  exists f, value. split_and!; [exact Hf | exact Hvalue |].
  rewrite Hchild. simpl in Hf. injection Hf as <-. reflexivity.
Defined.

End version.

(** ** Package iterator: the bounded iterators *)

Module iterator.

Import keys.

(** The [Iterator] interface, over the state [I] of an implementation:
    each positional call returns the moved iterator and its result. *)
Record Iterator (I : Type) := {
  Iterator_First : I -> I * bool;
  Iterator_Last : I -> I * bool;
  Iterator_Next : I -> I * bool;
  Iterator_Prev : I -> I * bool;
  Iterator_Seek : bytes -> I -> I * bool;
  Iterator_Valid : I -> bool;
  Iterator_Key : I -> bytes
}.

Arguments Iterator_First {I} _ _.
Arguments Iterator_Last {I} _ _.
Arguments Iterator_Next {I} _ _.
Arguments Iterator_Prev {I} _ _.
Arguments Iterator_Seek {I} _ _ _.
Arguments Iterator_Valid {I} _ _.
Arguments Iterator_Key {I} _ _.

(** The positional calls a client can make. *)
Inductive call :=
| CallFirst
| CallLast
| CallNext
| CallPrev
| CallSeek (target : bytes).

Section Bounded.

Context {I : Type} (ops : Iterator I).

(** *** start.go *)

Record startIterator := {
  s_cmp : Comparer;
  s_iter : I;
  s_start : bytes;
  s_valid : bool;
  s_seeked : bool
}.

Definition startIterator_First (it : startIterator) : startIterator * bool :=
  let '(i, ok) := Iterator_Seek ops (s_start it) (s_iter it) in
  ({| s_cmp := s_cmp it; s_iter := i; s_start := s_start it;
      s_valid := ok; s_seeked := true |}, ok).

Definition startIterator_checkStart (it : startIterator) (valid : bool) : startIterator * bool :=
  if valid && (0 <=? Compare (s_cmp it) (Iterator_Key ops (s_iter it)) (s_start it)) then
    ({| s_cmp := s_cmp it; s_iter := s_iter it; s_start := s_start it;
        s_valid := true; s_seeked := s_seeked it |}, true)
  else
    ({| s_cmp := s_cmp it; s_iter := s_iter it; s_start := s_start it;
        s_valid := false; s_seeked := s_seeked it |}, false).

Definition startIterator_Last (it : startIterator) : startIterator * bool :=
  let '(i, ok) := Iterator_Last ops (s_iter it) in
  startIterator_checkStart
    {| s_cmp := s_cmp it; s_iter := i; s_start := s_start it;
       s_valid := s_valid it; s_seeked := true |} ok.

Definition startIterator_Next (it : startIterator) : startIterator * bool :=
  if s_seeked it then
    let '(i, ok) := Iterator_Next ops (s_iter it) in
    ({| s_cmp := s_cmp it; s_iter := i; s_start := s_start it;
        s_valid := ok; s_seeked := s_seeked it |}, ok)
  else startIterator_First it.

Definition startIterator_Prev (it : startIterator) : startIterator * bool :=
  let '(i, ok) := Iterator_Prev ops (s_iter it) in
  startIterator_checkStart
    {| s_cmp := s_cmp it; s_iter := i; s_start := s_start it;
       s_valid := s_valid it; s_seeked := true |} ok.

Definition startIterator_Seek (it : startIterator) (target : bytes) : startIterator * bool :=
  let target := if Compare (s_cmp it) target (s_start it) <? 0 then s_start it else target in
  let '(i, ok) := Iterator_Seek ops target (s_iter it) in
  ({| s_cmp := s_cmp it; s_iter := i; s_start := s_start it;
      s_valid := ok; s_seeked := true |}, ok).

Definition startIterator_Valid (it : startIterator) : bool := s_valid it.

(** [Key] returns nil ([None]) when the iterator is not valid. *)
Definition startIterator_Key (it : startIterator) : option bytes :=
  if startIterator_Valid it then Some (Iterator_Key ops (s_iter it)) else None.

Definition newStartIterator (start : bytes) (cmp : Comparer) (it : I) : startIterator :=
  {| s_cmp := cmp; s_iter := it; s_start := start; s_valid := false; s_seeked := false |}.

Definition startIterator_call (it : startIterator) (c : call) : startIterator * bool :=
  match c with
  | CallFirst => startIterator_First it
  | CallLast => startIterator_Last it
  | CallNext => startIterator_Next it
  | CallPrev => startIterator_Prev it
  | CallSeek t => startIterator_Seek it t
  end.

Definition startIterator_calls (it : startIterator) (cs : list call) : startIterator :=
  fold_left (fun it c => fst (startIterator_call it c)) cs it.

(** *** range.go *)

Record rangeIterator := {
  cmp : Comparer;
  soi : bool;
  iter : I;
  valid : bool;
  start : bytes;
  limit : bytes
}.

Definition set_iter (it : rangeIterator) (i : I) : rangeIterator :=
  {| cmp := cmp it; soi := soi it; iter := i; valid := valid it;
     start := start it; limit := limit it |}.
Definition set_valid (it : rangeIterator) (v : bool) : rangeIterator :=
  {| cmp := cmp it; soi := soi it; iter := iter it; valid := v;
     start := start it; limit := limit it |}.
Definition set_soi (it : rangeIterator) : rangeIterator :=
  {| cmp := cmp it; soi := true; iter := iter it; valid := valid it;
     start := start it; limit := limit it |}.

Definition rangeIterator_checkStart (it : rangeIterator) (ok : bool) : rangeIterator * bool :=
  if ok && (0 <=? Compare (cmp it) (Iterator_Key ops (iter it)) (start it))
  then (set_valid it true, true) else (set_valid it false, false).

Definition rangeIterator_checkLimit (it : rangeIterator) (ok : bool) : rangeIterator * bool :=
  if ok && (Compare (cmp it) (Iterator_Key ops (iter it)) (limit it) <? 0)
  then (set_valid it true, true) else (set_valid it false, false).

Definition rangeIterator_First (it : rangeIterator) : rangeIterator * bool :=
  let it := set_soi it in
  let '(i, ok) := Iterator_Seek ops (start it) (iter it) in
  rangeIterator_checkLimit (set_iter it i) ok.

(** The first loop of [Last]: [for it.iter.Prev() { if key < limit
    { return it.checkStart(true) } }], after which the switch is left
    and the iterator is invalid.  [None]: the fuel ran out. *)
Fixpoint Last_stepBack (fuel : nat) (it : rangeIterator) : option (rangeIterator * bool) :=
  match fuel with
  | O => None
  | S fuel' =>
      let '(i, ok) := Iterator_Prev ops (iter it) in
      let it := set_iter it i in
      if ok then
        if Compare (cmp it) (Iterator_Key ops (iter it)) (limit it) <? 0
        then Some (rangeIterator_checkStart it true)
        else Last_stepBack fuel' it
      else Some (set_valid it false, false)
  end.

(** The second loop of [Last]: [for key >= limit { if !it.iter.Prev()
    { it.valid = false; return false } }; return it.checkStart(true)]. *)
Fixpoint Last_skipBack (fuel : nat) (it : rangeIterator) : option (rangeIterator * bool) :=
  match fuel with
  | O => None
  | S fuel' =>
      if 0 <=? Compare (cmp it) (Iterator_Key ops (iter it)) (limit it) then
        let '(i, ok) := Iterator_Prev ops (iter it) in
        let it := set_iter it i in
        if ok then Last_skipBack fuel' it else Some (set_valid it false, false)
      else Some (rangeIterator_checkStart it true)
  end.

Definition rangeIterator_Last (fuel : nat) (it : rangeIterator) : option (rangeIterator * bool) :=
  let it := set_soi it in
  let '(i, ok) := Iterator_Seek ops (limit it) (iter it) in
  if ok then Last_stepBack fuel (set_iter it i)
  else
    let '(i, ok) := Iterator_Last ops i in
    if ok then Last_skipBack fuel (set_iter it i)
    else Some (set_valid (set_iter it i) false, false).

Definition rangeIterator_Next (it : rangeIterator) : rangeIterator * bool :=
  if negb (soi it) then rangeIterator_First it
  else if valid it then
    let '(i, ok) := Iterator_Next ops (iter it) in
    rangeIterator_checkLimit (set_iter it i) ok
  else (it, false).

Definition rangeIterator_Prev (fuel : nat) (it : rangeIterator) : option (rangeIterator * bool) :=
  if negb (soi it) then rangeIterator_Last fuel it
  else if valid it then
    let '(i, ok) := Iterator_Prev ops (iter it) in
    Some (rangeIterator_checkStart (set_iter it i) ok)
  else Some (it, false).

Definition rangeIterator_Seek (it : rangeIterator) (target : bytes) : rangeIterator * bool :=
  let it := set_soi it in
  if Compare (cmp it) target (start it) <? 0 then
    let '(i, ok) := Iterator_Seek ops (start it) (iter it) in
    rangeIterator_checkLimit (set_iter it i) ok
  else if 0 <=? Compare (cmp it) target (limit it) then (set_valid it false, false)
  else
    let '(i, ok) := Iterator_Seek ops target (iter it) in
    rangeIterator_checkLimit (set_iter it i) ok.

Definition rangeIterator_Valid (it : rangeIterator) : bool := valid it.

Definition rangeIterator_Key (it : rangeIterator) : option bytes :=
  if valid it then Some (Iterator_Key ops (iter it)) else None.

Definition rangeIterator_call (fuel : nat) (it : rangeIterator) (c : call)
  : option (rangeIterator * bool) :=
  match c with
  | CallFirst => Some (rangeIterator_First it)
  | CallLast => rangeIterator_Last fuel it
  | CallNext => Some (rangeIterator_Next it)
  | CallPrev => rangeIterator_Prev fuel it
  | CallSeek t => Some (rangeIterator_Seek it t)
  end.

Fixpoint rangeIterator_calls (fuel : nat) (it : rangeIterator) (cs : list call)
  : option rangeIterator :=
  match cs with
  | [] => Some it
  | c :: cs' =>
      match rangeIterator_call fuel it c with
      | Some (it', _) => rangeIterator_calls fuel it' cs'
      | None => None
      end
  end.

(** [NewRangeIterator]: which iterator a pair of bounds selects.  The
    limit-only iterator and the empty iterator are declared in files that
    are not among the sources; they are kept as tags. *)
Inductive bounded :=
| Unbounded (it : I)
| FromStart (it : startIterator)
| UpToLimit (limit : bytes) (it : I)
| NoKeys
| Between (it : rangeIterator).

Definition NewRangeIterator (start limit : bytes) (c : Comparer) (it : I) : bounded :=
  if (length start =? 0)%nat && (length limit =? 0)%nat then Unbounded it
  else if (length limit =? 0)%nat then FromStart (newStartIterator start c it)
  else if (length start =? 0)%nat then UpToLimit limit it
  else if 0 <=? Compare c start limit then NoKeys
  else Between {| cmp := c; soi := false; iter := it; valid := false;
                  start := start; limit := limit |}.

End Bounded.

(** A cursor over a slice of keys in ascending order: the shape of the
    iterator that [DB.between] wraps (the DB iterator itself is not among
    the sources).  [Seek] stops at the first key at or after the target. *)
Record sliceIterator := {
  sl_cmp : Comparer;
  sl_open : bool;
  sl_index : Z;
  sl_keys : list bytes
}.

Definition sliceIterator_Valid (it : sliceIterator) : bool :=
  (0 <=? sl_index it) && (sl_index it <? Z.of_nat (length (sl_keys it))).

Definition sliceIterator_at (it : sliceIterator) (i : Z) : sliceIterator * bool :=
  let it' := {| sl_cmp := sl_cmp it; sl_open := true; sl_index := i; sl_keys := sl_keys it |} in
  (it', sliceIterator_Valid it').

Fixpoint first_at_or_after (c : Comparer) (target : bytes) (ks : list bytes) : Z :=
  match ks with
  | [] => 0
  | k :: ks' => if 0 <=? Compare c k target then 0 else 1 + first_at_or_after c target ks'
  end.

Definition sliceIterator_Key (it : sliceIterator) : bytes :=
  if sliceIterator_Valid it then default [] (sl_keys it !! Z.to_nat (sl_index it)) else [].

Definition sliceIterator_ops : Iterator sliceIterator := {|
  Iterator_First := fun it => sliceIterator_at it 0;
  Iterator_Last := fun it => sliceIterator_at it (Z.of_nat (length (sl_keys it)) - 1);
  Iterator_Next := fun it =>
    if sl_open it then sliceIterator_at it (sl_index it + 1) else sliceIterator_at it 0;
  Iterator_Prev := fun it =>
    if sl_open it then sliceIterator_at it (sl_index it - 1)
    else sliceIterator_at it (Z.of_nat (length (sl_keys it)) - 1);
  Iterator_Seek := fun target it =>
    sliceIterator_at it (first_at_or_after (sl_cmp it) target (sl_keys it));
  Iterator_Valid := sliceIterator_Valid;
  Iterator_Key := sliceIterator_Key
|}.

Definition newSliceIterator (c : Comparer) (ks : list bytes) : sliceIterator :=
  {| sl_cmp := c; sl_open := false; sl_index := -1; sl_keys := ks |}.

(** The keys "a", "b", "c" of a database, to be read from "c" on. *)
Definition abc : sliceIterator :=
  newSliceIterator BytewiseComparer [b "a"; b "b"; b "c"].

Definition from_c : startIterator :=
  newStartIterator (b "c") BytewiseComparer abc.

(** *** The range iterator stays within its bounds *)

Section RangeBounds.

Context {I : Type} (ops : Iterator I) (c : Comparer).

Hypothesis Compare_ge_trans :
  forall x y z, 0 <= Compare c x y -> 0 <= Compare c y z -> 0 <= Compare c x z.
Hypothesis Compare_le_lt_trans :
  forall x y z, Compare c x y <= 0 -> Compare c y z < 0 -> Compare c x z < 0.

(** The contract of the wrapped iterator, on the states [good] it can
    be in: a call that returns true leaves it valid; [Seek] stops at or
    after its target; [Next] does not go back and [Prev] does not go
    forward. *)
Variable good : I -> Prop.
Hypothesis good_First : forall s, good s -> good (Iterator_First ops s).1.
Hypothesis good_Last : forall s, good s -> good (Iterator_Last ops s).1.
Hypothesis good_Next : forall s, good s -> good (Iterator_Next ops s).1.
Hypothesis good_Prev : forall s, good s -> good (Iterator_Prev ops s).1.
Hypothesis good_Seek : forall t s, good s -> good (Iterator_Seek ops t s).1.
Hypothesis Last_valid : forall s, good s ->
  (Iterator_Last ops s).2 = true -> Iterator_Valid ops (Iterator_Last ops s).1 = true.
Hypothesis Next_valid : forall s, good s ->
  (Iterator_Next ops s).2 = true -> Iterator_Valid ops (Iterator_Next ops s).1 = true.
Hypothesis Prev_valid : forall s, good s ->
  (Iterator_Prev ops s).2 = true -> Iterator_Valid ops (Iterator_Prev ops s).1 = true.
Hypothesis Seek_valid : forall t s, good s ->
  (Iterator_Seek ops t s).2 = true -> Iterator_Valid ops (Iterator_Seek ops t s).1 = true.
Hypothesis Seek_key : forall t s, good s ->
  (Iterator_Seek ops t s).2 = true ->
  0 <= Compare c (Iterator_Key ops (Iterator_Seek ops t s).1) t.
Hypothesis Next_key : forall s, good s -> Iterator_Valid ops s = true ->
  (Iterator_Next ops s).2 = true ->
  0 <= Compare c (Iterator_Key ops (Iterator_Next ops s).1) (Iterator_Key ops s).
Hypothesis Prev_key : forall s, good s -> Iterator_Valid ops s = true ->
  (Iterator_Prev ops s).2 = true ->
  Compare c (Iterator_Key ops (Iterator_Prev ops s).1) (Iterator_Key ops s) <= 0.

(** The range iterator compares with [c], its bounds are [lo] and [hi],
    and whenever it reports valid the wrapped iterator stands on a key
    within them. *)
Definition in_bounds (lo hi : bytes) (it : rangeIterator) : Prop :=
  cmp it = c /\ start it = lo /\ limit it = hi /\ good (iter it) /\
  (valid it = true ->
   Iterator_Valid ops (iter it) = true /\
   0 <= Compare c (Iterator_Key ops (iter it)) lo /\
   Compare c (Iterator_Key ops (iter it)) hi < 0).

Lemma checkLimit_in_bounds (lo hi : bytes) (it : rangeIterator) (ok : bool) :
  cmp it = c -> start it = lo -> limit it = hi -> good (iter it) ->
  (ok = true -> Iterator_Valid ops (iter it) = true /\
                0 <= Compare c (Iterator_Key ops (iter it)) lo) ->
  in_bounds lo hi (rangeIterator_checkLimit ops it ok).1.
Proof.
  intros Hc Hs Hl Hg Hok. unfold rangeIterator_checkLimit. rewrite Hc, Hl.
  destruct ok; simpl.
  - destruct (Z.ltb_spec (Compare c (Iterator_Key ops (iter it)) hi) 0); simpl.
    + destruct (Hok eq_refl). split_and!; auto.
    + split_and!; auto. discriminate.
  - split_and!; auto. discriminate.
Qed.

Lemma checkStart_in_bounds (lo hi : bytes) (it : rangeIterator) (ok : bool) :
  cmp it = c -> start it = lo -> limit it = hi -> good (iter it) ->
  (ok = true -> Iterator_Valid ops (iter it) = true /\
                Compare c (Iterator_Key ops (iter it)) hi < 0) ->
  in_bounds lo hi (rangeIterator_checkStart ops it ok).1.
Proof.
  intros Hc Hs Hl Hg Hok. unfold rangeIterator_checkStart. rewrite Hc, Hs.
  destruct ok; simpl.
  - destruct (Z.leb_spec 0 (Compare c (Iterator_Key ops (iter it)) lo)); simpl.
    + destruct (Hok eq_refl). split_and!; auto.
    + split_and!; auto. discriminate.
  - split_and!; auto. discriminate.
Qed.

Lemma invalid_in_bounds (lo hi : bytes) (it : rangeIterator) :
  cmp it = c -> start it = lo -> limit it = hi -> good (iter it) ->
  in_bounds lo hi (set_valid it false).
Proof. intros. split_and!; auto. discriminate. Qed.

Lemma Seek_in_bounds (lo hi target : bytes) (it : rangeIterator) :
  cmp it = c -> start it = lo -> limit it = hi -> good (iter it) ->
  0 <= Compare c target lo ->
  in_bounds lo hi
    (let '(i, ok) := Iterator_Seek ops target (iter it) in
     rangeIterator_checkLimit ops (set_iter it i) ok).1.
Proof.
  intros Hc Hs Hl Hg Ht.
  pose proof (good_Seek target _ Hg) as Hg'.
  pose proof (Seek_valid target _ Hg) as Hv.
  pose proof (Seek_key target _ Hg) as Hk.
  destruct (Iterator_Seek ops target (iter it)) as [i ok]. simpl in *.
  apply checkLimit_in_bounds; auto.
  intros ->. split; [auto|]. apply (Compare_ge_trans _ target); auto.
Qed.

Lemma First_in_bounds (lo hi : bytes) (it : rangeIterator) :
  0 <= Compare c lo lo ->
  in_bounds lo hi it -> in_bounds lo hi (rangeIterator_First ops it).1.
Proof.
  intros Hrefl (Hc & Hs & Hl & Hg & _). unfold rangeIterator_First.
  change (start (set_soi it)) with (start it). rewrite Hs.
  apply (Seek_in_bounds lo hi lo (set_soi it)); auto.
Qed.

Lemma Last_stepBack_in_bounds (lo hi : bytes) (fuel : nat) :
  forall it r,
    cmp it = c -> start it = lo -> limit it = hi -> good (iter it) ->
    Last_stepBack ops fuel it = Some r -> in_bounds lo hi r.1.
Proof.
  induction fuel as [|fuel IH]; intros it r Hc Hs Hl Hg H; [discriminate|].
  simpl in H.
  pose proof (good_Prev _ Hg) as Hg'. pose proof (Prev_valid _ Hg) as Hv.
  destruct (Iterator_Prev ops (iter it)) as [i ok]. simpl in *.
  destruct ok.
  - rewrite Hc, Hl in H.
    destruct (Z.ltb_spec (Compare c (Iterator_Key ops i) hi) 0).
    + injection H as <-. apply checkStart_in_bounds; auto.
    + apply (IH (set_iter it i)); auto.
  - injection H as <-. apply invalid_in_bounds; auto.
Qed.

Lemma Last_skipBack_in_bounds (lo hi : bytes) (fuel : nat) :
  forall it r,
    cmp it = c -> start it = lo -> limit it = hi -> good (iter it) ->
    Iterator_Valid ops (iter it) = true ->
    Last_skipBack ops fuel it = Some r -> in_bounds lo hi r.1.
Proof.
  induction fuel as [|fuel IH]; intros it r Hc Hs Hl Hg Hvalid H; [discriminate|].
  simpl in H. rewrite Hc, Hl in H.
  destruct (Z.leb_spec 0 (Compare c (Iterator_Key ops (iter it)) hi)).
  - pose proof (good_Prev _ Hg) as Hg'. pose proof (Prev_valid _ Hg) as Hv.
    destruct (Iterator_Prev ops (iter it)) as [i ok]. simpl in *.
    destruct ok.
    + apply (IH (set_iter it i)); auto.
    + injection H as <-. apply invalid_in_bounds; auto.
  - injection H as <-. apply checkStart_in_bounds; auto.
Qed.

Lemma Last_in_bounds (lo hi : bytes) (fuel : nat) (it : rangeIterator) r :
  in_bounds lo hi it -> rangeIterator_Last ops fuel it = Some r -> in_bounds lo hi r.1.
Proof.
  intros (Hc & Hs & Hl & Hg & _) H. unfold rangeIterator_Last in H.
  change (limit (set_soi it)) with (limit it) in H.
  change (iter (set_soi it)) with (iter it) in H.
  pose proof (good_Seek (limit it) _ Hg) as Hg1.
  destruct (Iterator_Seek ops (limit it) (iter it)) as [i ok]. simpl in Hg1.
  destruct ok.
  - apply (Last_stepBack_in_bounds lo hi fuel (set_iter (set_soi it) i)); auto.
  - pose proof (good_Last _ Hg1) as Hg2. pose proof (Last_valid _ Hg1) as Hv2.
    destruct (Iterator_Last ops i) as [i2 ok2]. simpl in *.
    destruct ok2.
    + apply (Last_skipBack_in_bounds lo hi fuel (set_iter (set_soi it) i2)); auto.
    + injection H as <-. apply invalid_in_bounds; auto.
Qed.

Lemma call_in_bounds (lo hi : bytes) (fuel : nat) (it : rangeIterator) (cl : call) r :
  0 <= Compare c lo lo ->
  in_bounds lo hi it -> rangeIterator_call ops fuel it cl = Some r -> in_bounds lo hi r.1.
Proof.
  intros Hrefl Hin H. destruct cl as [| | | |target]; simpl in H.
  - injection H as <-. apply First_in_bounds; assumption.
  - apply (Last_in_bounds lo hi fuel it); assumption.
  - injection H as <-. unfold rangeIterator_Next.
    destruct (soi it); simpl; [|apply First_in_bounds; assumption].
    destruct Hin as (Hc & Hs & Hl & Hg & Hv).
    destruct (valid it) eqn:Hval; [|split_and!; auto; simpl; congruence].
    destruct (Hv eq_refl) as (Hvalid & Hlo & Hhi).
    pose proof (good_Next _ Hg) as Hg'. pose proof (Next_valid _ Hg) as Hv'.
    pose proof (Next_key _ Hg Hvalid) as Hk.
    destruct (Iterator_Next ops (iter it)) as [i ok]. simpl in *.
    apply checkLimit_in_bounds; auto.
    intros ->. split; [auto|].
    apply (Compare_ge_trans _ (Iterator_Key ops (iter it))); auto.
  - unfold rangeIterator_Prev in H.
    destruct (soi it); simpl in H; [|apply (Last_in_bounds lo hi fuel it); assumption].
    destruct Hin as (Hc & Hs & Hl & Hg & Hv).
    destruct (valid it) eqn:Hval.
    2:{ injection H as <-. split_and!; auto. simpl. congruence. }
    destruct (Hv eq_refl) as (Hvalid & Hlo & Hhi).
    pose proof (good_Prev _ Hg) as Hg'. pose proof (Prev_valid _ Hg) as Hv'.
    pose proof (Prev_key _ Hg Hvalid) as Hk.
    destruct (Iterator_Prev ops (iter it)) as [i ok]. simpl in *.
    injection H as <-.
    apply checkStart_in_bounds; auto.
    intros ->. split; [auto|].
    apply (Compare_le_lt_trans _ (Iterator_Key ops (iter it))); auto.
  - injection H as <-. unfold rangeIterator_Seek.
    destruct Hin as (Hc & Hs & Hl & Hg & Hv).
    change (cmp (set_soi it)) with (cmp it). change (start (set_soi it)) with (start it).
    change (limit (set_soi it)) with (limit it). rewrite Hc, Hs, Hl.
    destruct (Z.ltb_spec (Compare c target lo) 0).
    + apply (Seek_in_bounds lo hi lo (set_soi it)); auto.
    + destruct (Z.leb_spec 0 (Compare c target hi)).
      * apply invalid_in_bounds; auto.
      * apply (Seek_in_bounds lo hi target (set_soi it)); auto.
Qed.

(** Whatever calls are made on an iterator built for the bounds
    [lo, hi) over a wrapped iterator that keeps its contract, a valid
    result stands on a key at or after [lo] and before [hi]. *)
Lemma rangeIterator_stays_in_bounds (lo hi : bytes) (fuel : nat) (cs : list call) :
  0 <= Compare c lo lo ->
  forall it it',
    in_bounds lo hi it ->
    rangeIterator_calls ops fuel it cs = Some it' ->
    rangeIterator_Valid it' = true ->
    exists k, rangeIterator_Key ops it' = Some k /\
              0 <= Compare c k lo /\ Compare c k hi < 0.
Proof.
  intros Hrefl. induction cs as [|cl cs IH]; intros it it' Hin H Hvalid.
  - injection H as <-. destruct Hin as (_ & _ & _ & _ & Hv).
    unfold rangeIterator_Valid in Hvalid. destruct (Hv Hvalid) as (_ & Hlo & Hhi).
    unfold rangeIterator_Key. rewrite Hvalid. eexists. split; [reflexivity|]. auto.
  - simpl in H. destruct (rangeIterator_call ops fuel it cl) as [[it1 ok]|] eqn:Hcall;
      [|discriminate].
    apply (IH it1 it'); auto.
    apply (call_in_bounds lo hi fuel it cl (it1, ok) Hrefl Hin Hcall).
Qed.

End RangeBounds.

(** *** The slice cursor keeps the contract *)

Definition slice_ascending (c : Comparer) (ks : list bytes) : Prop :=
  forall (i j : nat) (x y : bytes),
    (i <= j)%nat -> ks !! i = Some x -> ks !! j = Some y -> Compare c x y <= 0.

Section SliceBounds.

Variable c : Comparer.
Hypothesis Compare_le_trans :
  forall x y z, Compare c x y <= 0 -> Compare c y z <= 0 -> Compare c x z <= 0.
Hypothesis Compare_flip : forall x y, Compare c y x = - Compare c x y.

Definition slice_good (s : sliceIterator) : Prop :=
  sl_cmp s = c /\ slice_ascending c (sl_keys s) /\
  (sl_open s = false -> sliceIterator_Valid s = false).

Lemma sliceIterator_at_good (s : sliceIterator) (i : Z) :
  slice_good s -> slice_good (sliceIterator_at s i).1.
Proof.
  intros (Hc & Ha & _). unfold slice_good. simpl. split_and!; auto. discriminate.
Qed.

Lemma sliceIterator_Valid_lookup (s : sliceIterator) :
  sliceIterator_Valid s = true ->
  0 <= sl_index s /\
  exists k, sl_keys s !! Z.to_nat (sl_index s) = Some k /\ sliceIterator_Key s = k.
Proof.
  intros H. unfold sliceIterator_Key. rewrite H.
  unfold sliceIterator_Valid in H. apply andb_true_iff in H as [H0 H1].
  apply Z.leb_le in H0. apply Z.ltb_lt in H1. split; [exact H0|].
  destruct (lookup_lt_is_Some_2 (sl_keys s) (Z.to_nat (sl_index s))) as [k Hk]; [lia|].
  exists k. split; [exact Hk|]. exact (f_equal (default []) Hk).
Qed.

Lemma first_at_or_after_spec (t : bytes) (ks : list bytes) :
  0 <= first_at_or_after c t ks /\
  forall k, ks !! Z.to_nat (first_at_or_after c t ks) = Some k -> 0 <= Compare c k t.
Proof.
  induction ks as [|k0 ks [IH0 IH]]; simpl.
  - split; [lia|]. intros k H. discriminate.
  - destruct (Z.leb_spec 0 (Compare c k0 t)) as [Hle|Hlt].
    + split; [lia|]. intros k H. simpl in H. injection H as <-. exact Hle.
    + split; [lia|]. intros k H.
      replace (Z.to_nat (1 + first_at_or_after c t ks))
        with (S (Z.to_nat (first_at_or_after c t ks))) in H by lia.
      simpl in H. apply IH. exact H.
Qed.

Lemma slice_step_key (s : sliceIterator) (i : Z) :
  slice_good s -> sliceIterator_Valid s = true ->
  (sliceIterator_at s i).2 = true ->
  (sl_index s <= i ->
   0 <= Compare c (sliceIterator_Key (sliceIterator_at s i).1) (sliceIterator_Key s)) /\
  (i <= sl_index s ->
   Compare c (sliceIterator_Key (sliceIterator_at s i).1) (sliceIterator_Key s) <= 0).
Proof.
  intros (Hc & Ha & _) Hv Hv'. simpl in Hv'.
  destruct (sliceIterator_Valid_lookup _ Hv) as (H0 & k & Hk & ->).
  destruct (sliceIterator_Valid_lookup _ Hv') as (H0' & k' & Hk' & Hkey').
  simpl in H0', Hk'. simpl. rewrite Hkey'. split; intros Hle.
  - rewrite Compare_flip. apply Z.opp_nonneg_nonpos.
    apply (Ha (Z.to_nat (sl_index s)) (Z.to_nat i)); auto. lia.
  - apply (Ha (Z.to_nat i) (Z.to_nat (sl_index s))); auto. lia.
Qed.

(** A range iterator over an ascending slice of keys never reports a key
    outside its bounds. *)
Lemma rangeIterator_over_slice_in_bounds
    (lo hi : bytes) (ks : list bytes) (fuel : nat) (cs : list call) (it' : rangeIterator) :
  slice_ascending c ks ->
  Compare c lo lo = 0 ->
  rangeIterator_calls sliceIterator_ops fuel
    {| cmp := c; soi := false; iter := newSliceIterator c ks; valid := false;
       start := lo; limit := hi |} cs = Some it' ->
  rangeIterator_Valid it' = true ->
  exists k, rangeIterator_Key sliceIterator_ops it' = Some k /\
            0 <= Compare c k lo /\ Compare c k hi < 0.
Proof.
  intros Ha Hrefl Hcalls Hvalid.
  eapply (rangeIterator_stays_in_bounds sliceIterator_ops c) with (good := slice_good);
    try exact Hcalls; try exact Hvalid.
  - intros x y z H1 H2.
    pose proof (Compare_le_trans z y x). pose proof (Compare_flip x y).
    pose proof (Compare_flip y z). pose proof (Compare_flip x z). lia.
  - intros x y z H1 H2.
    pose proof (Compare_le_trans z x y). pose proof (Compare_flip x z).
    pose proof (Compare_flip y z). lia.
  - intros s Hg. apply sliceIterator_at_good. exact Hg.
  - intros s Hg. simpl. destruct (sl_open s); apply sliceIterator_at_good; exact Hg.
  - intros s Hg. simpl. destruct (sl_open s); apply sliceIterator_at_good; exact Hg.
  - intros t s Hg. apply sliceIterator_at_good. exact Hg.
  - intros s _ H. exact H.
  - intros s _ H. cbn [Iterator_Next Iterator_Valid sliceIterator_ops] in *.
    destruct (sl_open s); exact H.
  - intros s _ H. cbn [Iterator_Prev Iterator_Valid sliceIterator_ops] in *.
    destruct (sl_open s); exact H.
  - intros t s _ H. exact H.
  - intros t s Hg H. cbn [Iterator_Seek Iterator_Key sliceIterator_ops] in *.
    unfold sliceIterator_at in *. cbn [fst snd] in *.
    destruct Hg as (Hc & _). rewrite Hc in *.
    destruct (sliceIterator_Valid_lookup _ H) as (_ & k & Hk & ->).
    cbn [sl_keys sl_index] in Hk.
    apply (proj2 (first_at_or_after_spec t (sl_keys s))). exact Hk.
  - intros s Hg Hvs H. cbn [Iterator_Next Iterator_Valid Iterator_Key sliceIterator_ops] in *.
    destruct (sl_open s) eqn:Hopen.
    + apply (slice_step_key s (sl_index s + 1)); auto. lia.
    + destruct Hg as (_ & _ & Hclosed). rewrite (Hclosed Hopen) in Hvs. discriminate.
  - intros s Hg Hvs H. cbn [Iterator_Prev Iterator_Valid Iterator_Key sliceIterator_ops] in *.
    destruct (sl_open s) eqn:Hopen.
    + apply (slice_step_key s (sl_index s - 1)); auto. lia.
    + destruct Hg as (_ & _ & Hclosed). rewrite (Hclosed Hopen) in Hvs. discriminate.
  - lia.
  - unfold in_bounds, slice_good. simpl. split_and!; auto. discriminate.
Qed.

End SliceBounds.

(** Under the bytewise comparer the contract needs nothing but ascending
    keys. *)
Lemma rangeIterator_bytewise_in_bounds
    (lo hi : bytes) (ks : list bytes) (fuel : nat) (cs : list call) (it' : rangeIterator) :
  slice_ascending BytewiseComparer ks ->
  rangeIterator_calls sliceIterator_ops fuel
    {| cmp := BytewiseComparer; soi := false; iter := newSliceIterator BytewiseComparer ks;
       valid := false; start := lo; limit := hi |} cs = Some it' ->
  rangeIterator_Valid it' = true ->
  exists k, rangeIterator_Key sliceIterator_ops it' = Some k /\
            0 <= bytesCompare k lo /\ bytesCompare k hi < 0.
Proof.
  intros Ha Hcalls Hvalid.
  apply (rangeIterator_over_slice_in_bounds BytewiseComparer bytesCompare_le_trans
           bytesCompare_flip lo hi ks fuel cs it' Ha (bytesCompare_refl lo) Hcalls Hvalid).
Qed.

(** *** The loops of [Last] end *)

Lemma Last_stepBack_total (fuel : nat) :
  forall it : rangeIterator,
    sl_open (iter it) = true ->
    (Z.to_nat (sl_index (iter it)) < fuel)%nat ->
    is_Some (Last_stepBack sliceIterator_ops fuel it).
Proof.
  induction fuel as [|fuel IH]; intros it Hopen Hlt; [lia|].
  simpl. rewrite Hopen. unfold sliceIterator_at. cbn [fst snd].
  match goal with |- context [sliceIterator_Valid ?s] =>
    destruct (sliceIterator_Valid s) eqn:Hv end.
  - match goal with |- context [if ?t then _ else _] => destruct t end; [eauto|].
    apply IH; simpl; [reflexivity|].
    unfold sliceIterator_Valid in Hv. simpl in Hv.
    apply andb_true_iff in Hv as [H0 _]. apply Z.leb_le in H0. lia.
  - eauto.
Qed.

Lemma Last_skipBack_total (fuel : nat) :
  forall it : rangeIterator,
    sl_open (iter it) = true ->
    (Z.to_nat (sl_index (iter it)) < fuel)%nat ->
    is_Some (Last_skipBack sliceIterator_ops fuel it).
Proof.
  induction fuel as [|fuel IH]; intros it Hopen Hlt; [lia|].
  simpl. match goal with |- context [if ?t then _ else _] => destruct t end; [|eauto].
  rewrite Hopen. unfold sliceIterator_at. cbn [fst snd].
  match goal with |- context [sliceIterator_Valid ?s] =>
    destruct (sliceIterator_Valid s) eqn:Hv end; [|eauto].
  apply IH; simpl; [reflexivity|].
  unfold sliceIterator_Valid in Hv. simpl in Hv.
  apply andb_true_iff in Hv as [H0 _]. apply Z.leb_le in H0. lia.
Qed.

Lemma rangeIterator_Last_total (fuel : nat) (it : rangeIterator) :
  (length (sl_keys (iter it)) < fuel)%nat ->
  is_Some (rangeIterator_Last sliceIterator_ops fuel it).
Proof.
  intros Hfuel. unfold rangeIterator_Last.
  cbn [Iterator_Seek Iterator_Last sliceIterator_ops]. unfold sliceIterator_at.
  cbn [fst snd sl_keys iter set_soi limit cmp].
  match goal with |- context [sliceIterator_Valid ?s] =>
    destruct (sliceIterator_Valid s) eqn:Hv end.
  - apply Last_stepBack_total; simpl; [reflexivity|].
    unfold sliceIterator_Valid in Hv. simpl in Hv.
    apply andb_true_iff in Hv as [_ H1]. apply Z.ltb_lt in H1. lia.
  - match goal with |- context [sliceIterator_Valid ?s] =>
      destruct (sliceIterator_Valid s) eqn:Hv' end; [|eauto].
    apply Last_skipBack_total; simpl; [reflexivity|]. lia.
Qed.

(** With more fuel than the slice has keys, every call returns. *)
Lemma rangeIterator_call_total (fuel : nat) (it : rangeIterator) (cl : call) :
  (length (sl_keys (iter it)) < fuel)%nat ->
  is_Some (rangeIterator_call sliceIterator_ops fuel it cl).
Proof.
  intros Hfuel. destruct cl; simpl; eauto using rangeIterator_Last_total.
  unfold rangeIterator_Prev. destruct (negb (soi it)); [apply rangeIterator_Last_total; exact Hfuel|].
  destruct (valid it); [|eauto].
  destruct (Iterator_Prev sliceIterator_ops (iter it)). eauto.
Qed.

(** C3 (the code departs from the claim): [Find "c"] over the keys "a",
    "b", "c" is the start-bounded iterator [from_c]; after [Last], [Prev],
    [Prev], [Next] it reports [Valid] at the key "b", which is before its
    start "c". *)
Theorem startIterator_Next_leaves_bounds :
  NewRangeIterator (b "c") [] BytewiseComparer abc = FromStart from_c /\
  startIterator_Valid
    (startIterator_calls sliceIterator_ops from_c
       [CallLast; CallPrev; CallPrev; CallNext]) = true /\
  startIterator_Key sliceIterator_ops
    (startIterator_calls sliceIterator_ops from_c
       [CallLast; CallPrev; CallPrev; CallNext]) = Some (b "b") /\
  Compare BytewiseComparer (b "b") (b "c") < 0.
Proof.
  split; [reflexivity|]. split; [reflexivity|]. split; [reflexivity|].
  vm_compute. reflexivity.
Qed.

(** *** The contract of a wrapped iterator *)

(** What the bounded iterators rely on, on the states [good] the wrapped
    iterator can be in: a call that returns true leaves it valid, [Seek]
    stops at or after its target, [Next] does not go back and [Prev] does
    not go forward. *)
Definition keeps_contract {I : Type} (ops : Iterator I) (c : Comparer) (good : I -> Prop) : Prop :=
  (forall s, good s -> good (Iterator_First ops s).1) /\
  (forall s, good s -> good (Iterator_Last ops s).1) /\
  (forall s, good s -> good (Iterator_Next ops s).1) /\
  (forall s, good s -> good (Iterator_Prev ops s).1) /\
  (forall t s, good s -> good (Iterator_Seek ops t s).1) /\
  (forall s, good s -> (Iterator_Last ops s).2 = true ->
             Iterator_Valid ops (Iterator_Last ops s).1 = true) /\
  (forall s, good s -> (Iterator_Next ops s).2 = true ->
             Iterator_Valid ops (Iterator_Next ops s).1 = true) /\
  (forall s, good s -> (Iterator_Prev ops s).2 = true ->
             Iterator_Valid ops (Iterator_Prev ops s).1 = true) /\
  (forall t s, good s -> (Iterator_Seek ops t s).2 = true ->
               Iterator_Valid ops (Iterator_Seek ops t s).1 = true) /\
  (forall t s, good s -> (Iterator_Seek ops t s).2 = true ->
               0 <= Compare c (Iterator_Key ops (Iterator_Seek ops t s).1) t) /\
  (forall s, good s -> Iterator_Valid ops s = true -> (Iterator_Next ops s).2 = true ->
             0 <= Compare c (Iterator_Key ops (Iterator_Next ops s).1) (Iterator_Key ops s)) /\
  (forall s, good s -> Iterator_Valid ops s = true -> (Iterator_Prev ops s).2 = true ->
             Compare c (Iterator_Key ops (Iterator_Prev ops s).1) (Iterator_Key ops s) <= 0).

(** The order a comparer has to give. *)
Definition orders (c : Comparer) : Prop :=
  (forall x, Compare c x x = 0) /\
  (forall x y, Compare c y x = - Compare c x y) /\
  (forall x y z, Compare c x y <= 0 -> Compare c y z <= 0 -> Compare c x z <= 0).

Lemma orders_ge_trans (c : Comparer) :
  orders c ->
  forall x y z, 0 <= Compare c x y -> 0 <= Compare c y z -> 0 <= Compare c x z.
Proof.
  intros (_ & Hflip & Htrans) x y z H1 H2.
  pose proof (Htrans z y x). pose proof (Hflip x y).
  pose proof (Hflip y z). pose proof (Hflip x z). lia.
Qed.

Lemma orders_le_lt_trans (c : Comparer) :
  orders c ->
  forall x y z, Compare c x y <= 0 -> Compare c y z < 0 -> Compare c x z < 0.
Proof.
  intros (_ & Hflip & Htrans) x y z H1 H2.
  pose proof (Htrans z x y). pose proof (Hflip x z). pose proof (Hflip y z). lia.
Qed.

Lemma bytewise_orders : orders BytewiseComparer.
Proof.
  split_and!; [exact bytesCompare_refl | exact bytesCompare_flip | exact bytesCompare_le_trans].
Qed.

(** The slice cursor over ascending keys keeps the contract. *)
Lemma slice_keeps_contract (c : Comparer) :
  orders c -> keeps_contract sliceIterator_ops c (slice_good c).
Proof.
  intros (Hrefl & Hflip & Htrans). unfold keeps_contract. split_and!.
  - intros s Hg. apply sliceIterator_at_good. exact Hg.
  - intros s Hg. apply sliceIterator_at_good. exact Hg.
  - intros s Hg. simpl. destruct (sl_open s); apply sliceIterator_at_good; exact Hg.
  - intros s Hg. simpl. destruct (sl_open s); apply sliceIterator_at_good; exact Hg.
  - intros t s Hg. apply sliceIterator_at_good. exact Hg.
  - intros s _ H. exact H.
  - intros s _ H. cbn [Iterator_Next Iterator_Valid sliceIterator_ops] in *.
    destruct (sl_open s); exact H.
  - intros s _ H. cbn [Iterator_Prev Iterator_Valid sliceIterator_ops] in *.
    destruct (sl_open s); exact H.
  - intros t s _ H. exact H.
  - intros t s Hg H. cbn [Iterator_Seek Iterator_Key sliceIterator_ops] in *.
    unfold sliceIterator_at in *. cbn [fst snd] in *.
    destruct Hg as (Hc & _). rewrite Hc in *.
    destruct (sliceIterator_Valid_lookup _ H) as (_ & k & Hk & ->).
    cbn [sl_keys sl_index] in Hk.
    apply (proj2 (first_at_or_after_spec c t (sl_keys s))). exact Hk.
  - intros s Hg Hvs H. cbn [Iterator_Next Iterator_Valid Iterator_Key sliceIterator_ops] in *.
    destruct (sl_open s) eqn:Hopen.
    + apply (slice_step_key c Hflip s (sl_index s + 1)); auto. lia.
    + destruct Hg as (_ & _ & Hclosed). rewrite (Hclosed Hopen) in Hvs. discriminate.
  - intros s Hg Hvs H. cbn [Iterator_Prev Iterator_Valid Iterator_Key sliceIterator_ops] in *.
    destruct (sl_open s) eqn:Hopen.
    + apply (slice_step_key c Hflip s (sl_index s - 1)); auto. lia.
    + destruct Hg as (_ & _ & Hclosed). rewrite (Hclosed Hopen) in Hvs. discriminate.
Qed.

(** X12: The iterator [NewRangeIterator] builds for two bounds never leaves
    them: over a wrapped iterator that keeps the contract, after any calls
    of [First], [Last], [Next], [Prev] and [Seek], a valid iterator stands
    on a key at or after [start] and before [limit]. *)
Theorem NewRangeIterator_stays_between
    {I : Type} (ops : Iterator I) (c : Comparer) (good : I -> Prop)
    (start limit : bytes) (inner : I) (it it' : rangeIterator)
    (fuel : nat) (cs : list call) :
  orders c ->
  keeps_contract ops c good ->
  good inner ->
  NewRangeIterator start limit c inner = Between it ->
  rangeIterator_calls ops fuel it cs = Some it' ->
  rangeIterator_Valid it' = true ->
  exists k, rangeIterator_Key ops it' = Some k /\
            0 <= Compare c k start /\ Compare c k limit < 0.
Proof.
  intros Hord Hcon Hgood Hnew Hcalls Hvalid.
  assert (Hit : it = {| cmp := c; soi := false; iter := inner; valid := false;
                        start := start; limit := limit |}).
  { unfold NewRangeIterator in Hnew.
    repeat match type of Hnew with (if ?t then _ else _) = _ => destruct t end;
      congruence. }
  subst it.
  destruct Hcon as (H1 & H2 & H3 & H4 & H5 & H6 & H7 & H8 & H9 & H10 & H11 & H12).
  eapply (rangeIterator_stays_in_bounds ops c) with (good := good);
    try exact Hcalls; try exact Hvalid; try assumption.
  - apply orders_ge_trans. exact Hord.
  - apply orders_le_lt_trans. exact Hord.
  - rewrite (proj1 Hord). lia.
  - unfold in_bounds. simpl. split_and!; auto. discriminate.
Qed.

(** *** The start-bounded iterator *)

(** Whether every [Next] of a call sequence is made on an iterator that
    is valid or was never positioned. *)
Fixpoint Next_only_when_valid {I : Type} (ops : Iterator I) (it : startIterator) (cs : list call)
  : bool :=
  match cs with
  | [] => true
  | cl :: rest =>
      match cl with
      | CallNext => negb (s_seeked it) || s_valid it
      | _ => true
      end && Next_only_when_valid ops (startIterator_call ops it cl).1 rest
  end.

Section StartBounds.

Context {I : Type} (ops : Iterator I) (c : Comparer) (good : I -> Prop).
Hypothesis c_orders : orders c.
Hypothesis contract : keeps_contract ops c good.

(** The iterator compares with [c], its bound is [lo], and whenever it
    reports valid the wrapped iterator stands on a key at or after it. *)
Definition from_start (lo : bytes) (it : startIterator) : Prop :=
  s_cmp it = c /\ s_start it = lo /\ good (s_iter it) /\
  (s_valid it = true ->
   Iterator_Valid ops (s_iter it) = true /\
   0 <= Compare c (Iterator_Key ops (s_iter it)) lo).

Lemma checkStart_from_start (lo : bytes) (it : startIterator) (ok : bool) :
  s_cmp it = c -> s_start it = lo -> good (s_iter it) ->
  (ok = true -> Iterator_Valid ops (s_iter it) = true) ->
  from_start lo (startIterator_checkStart ops it ok).1.
Proof.
  intros Hc Hs Hg Hok. unfold startIterator_checkStart. rewrite Hc, Hs.
  destruct ok; simpl.
  - destruct (Z.leb_spec 0 (Compare c (Iterator_Key ops (s_iter it)) lo)); simpl.
    + unfold from_start. simpl. split_and!; auto.
    + unfold from_start. simpl. split_and!; auto. discriminate.
  - unfold from_start. simpl. split_and!; auto. discriminate.
Qed.

Lemma Seek_from_start (lo target : bytes) (it : startIterator) :
  from_start lo it -> 0 <= Compare c target lo ->
  from_start lo
    (let '(i, ok) := Iterator_Seek ops target (s_iter it) in
     ({| s_cmp := s_cmp it; s_iter := i; s_start := s_start it;
         s_valid := ok; s_seeked := true |}, ok)).1.
Proof.
  intros (Hc & Hs & Hg & _) Ht.
  pose proof contract as (_ & _ & _ & _ & H5 & _ & _ & _ & H9 & H10 & _ & _).
  pose proof (H5 target _ Hg) as Hg'. pose proof (H9 target _ Hg) as Hv.
  pose proof (H10 target _ Hg) as Hk.
  destruct (Iterator_Seek ops target (s_iter it)) as [i ok]. simpl in *.
  unfold from_start. simpl. split_and!; auto. intros Hok. subst ok. split; [auto|].
  apply (orders_ge_trans c c_orders _ target); auto.
Qed.

Lemma call_from_start (lo : bytes) (it : startIterator) (cl : call) :
  from_start lo it ->
  match cl with CallNext => negb (s_seeked it) || s_valid it | _ => true end = true ->
  from_start lo (startIterator_call ops it cl).1.
Proof.
  intros Hin Hguard. pose proof Hin as (Hc & Hs & Hg & Hv).
  pose proof c_orders as (Hrefl & _ & _).
  pose proof contract as (_ & H2 & H3 & H4 & _ & H6 & H7 & H8 & _ & _ & H11 & _).
  destruct cl as [| | | |target]; simpl.
  - unfold startIterator_First.
    apply (Seek_from_start lo (s_start it) it Hin). rewrite Hs, Hrefl. lia.
  - unfold startIterator_Last.
    pose proof (H2 _ Hg) as Hg'. pose proof (H6 _ Hg) as Hv'.
    destruct (Iterator_Last ops (s_iter it)) as [i ok]. simpl in *.
    apply checkStart_from_start; auto.
  - unfold startIterator_Next. destruct (s_seeked it); simpl in Hguard.
    + destruct (Hv Hguard) as [Hvalid Hlo].
      pose proof (H3 _ Hg) as Hg'. pose proof (H7 _ Hg) as Hv'.
      pose proof (H11 _ Hg Hvalid) as Hk.
      destruct (Iterator_Next ops (s_iter it)) as [i ok]. simpl in *.
      unfold from_start. simpl. split_and!; auto. intros Hok. subst ok. split; [auto|].
      apply (orders_ge_trans c c_orders _ (Iterator_Key ops (s_iter it))); auto.
    + unfold startIterator_First.
      apply (Seek_from_start lo (s_start it) it Hin). rewrite Hs, Hrefl. lia.
  - unfold startIterator_Prev.
    pose proof (H4 _ Hg) as Hg'. pose proof (H8 _ Hg) as Hv'.
    destruct (Iterator_Prev ops (s_iter it)) as [i ok]. simpl in *.
    apply checkStart_from_start; auto.
  - unfold startIterator_Seek. cbv zeta.
    destruct (Compare (s_cmp it) target (s_start it) <? 0) eqn:Hcmp; rewrite Hc in Hcmp.
    + apply (Seek_from_start lo (s_start it) it Hin). rewrite Hs, Hrefl. lia.
    + apply Z.ltb_ge in Hcmp.
      apply (Seek_from_start lo target it Hin). rewrite <- Hs. lia.
Qed.

(** X13: The iterator [NewRangeIterator] builds for a start bound alone keeps
    to it as long as [Next] is only called on a valid iterator (or
    before any positioning): after such calls a valid iterator stands on
    a key at or after [start]. *)
Theorem NewRangeIterator_stays_after_start
    (start : bytes) (inner : I) (it : startIterator) (cs : list call) :
  good inner ->
  NewRangeIterator start [] c inner = FromStart it ->
  Next_only_when_valid ops it cs = true ->
  startIterator_Valid (startIterator_calls ops it cs) = true ->
  exists k, startIterator_Key ops (startIterator_calls ops it cs) = Some k /\
            0 <= Compare c k start.
Proof.
  intros Hgood Hnew Hguard Hvalid.
  assert (Hin : from_start start it).
  { unfold NewRangeIterator in Hnew.
    repeat match type of Hnew with (if ?t then _ else _) = _ => destruct t end;
      try congruence.
    injection Hnew as <-. unfold from_start, newStartIterator. simpl.
    split_and!; auto. discriminate. }
  clear Hnew. revert it Hin Hguard Hvalid.
  induction cs as [|cl cs IH]; intros it Hin Hguard Hvalid.
  - simpl in *. destruct Hin as (_ & _ & _ & Hv).
    unfold startIterator_Valid in Hvalid. destruct (Hv Hvalid) as [_ Hlo].
    unfold startIterator_Key, startIterator_Valid. rewrite Hvalid. eauto.
  - simpl in Hguard. apply andb_true_iff in Hguard as [Hg1 Hg2].
    unfold startIterator_calls in *. simpl in *.
    apply IH; auto. apply call_from_start; assumption.
Qed.

End StartBounds.

(** *** Forward scans *)

(** [for it.Next() { keys = append(keys, it.Key()) }]: the keys the
    loop collects.  [None]: the loop is still running after [fuel]
    turns. *)
Fixpoint rangeIterator_scan {I : Type} (ops : Iterator I) (fuel : nat) (it : rangeIterator)
  : option (list (option bytes)) :=
  match fuel with
  | O => None
  | S fuel' =>
      let '(it', ok) := rangeIterator_Next ops it in
      if ok then
        match rangeIterator_scan ops fuel' it' with
        | Some l => Some (rangeIterator_Key ops it' :: l)
        | None => None
        end
      else Some []
  end.

Fixpoint startIterator_scan {I : Type} (ops : Iterator I) (fuel : nat) (it : startIterator)
  : option (list (option bytes)) :=
  match fuel with
  | O => None
  | S fuel' =>
      let '(it', ok) := startIterator_Next ops it in
      if ok then
        match startIterator_scan ops fuel' it' with
        | Some l => Some (startIterator_Key ops it' :: l)
        | None => None
        end
      else Some []
  end.

(** The keys from the first one that is not below [lo], and the keys up
    to the first one that is not below [hi]. *)
Fixpoint skip_below (c : Comparer) (lo : bytes) (ks : list bytes) : list bytes :=
  match ks with
  | [] => []
  | k :: ks' => if 0 <=? Compare c k lo then ks else skip_below c lo ks'
  end.

Fixpoint keep_below (c : Comparer) (hi : bytes) (ks : list bytes) : list bytes :=
  match ks with
  | [] => []
  | k :: ks' => if Compare c k hi <? 0 then k :: keep_below c hi ks' else []
  end.

Lemma first_at_or_after_skips (c : Comparer) (lo : bytes) (ks : list bytes) :
  drop (Z.to_nat (first_at_or_after c lo ks)) ks = skip_below c lo ks.
Proof.
  induction ks as [|k ks IH]; [reflexivity|]. simpl.
  destruct (0 <=? Compare c k lo); [reflexivity|].
  pose proof (proj1 (first_at_or_after_spec c lo ks)) as H0.
  replace (Z.to_nat (1 + first_at_or_after c lo ks))
    with (S (Z.to_nat (first_at_or_after c lo ks))) by lia.
  exact IH.
Qed.

(** The cursor at index [i]: what is left of the slice, and whether the
    cursor is valid. *)
Lemma sliceIterator_at_rest (s : sliceIterator) (i : Z) :
  0 <= i ->
  match drop (Z.to_nat i) (sl_keys s) with
  | [] => (sliceIterator_at s i).2 = false
  | k :: rest =>
      (sliceIterator_at s i).2 = true /\
      sliceIterator_Key (sliceIterator_at s i).1 = k /\
      drop (Z.to_nat (i + 1)) (sl_keys s) = rest
  end.
Proof.
  intros Hi. unfold sliceIterator_at, sliceIterator_Key. cbn [fst snd].
  unfold sliceIterator_Valid. cbn [sl_index sl_keys].
  destruct (drop (Z.to_nat i) (sl_keys s)) as [|k rest] eqn:Hd.
  - assert (Hlen : (length (sl_keys s) <= Z.to_nat i)%nat).
    { apply (f_equal length) in Hd. rewrite length_drop in Hd. simpl in Hd. lia. }
    destruct (Z.ltb_spec i (Z.of_nat (length (sl_keys s)))); [lia|].
    apply andb_false_r.
  - assert (Hk : sl_keys s !! Z.to_nat i = Some k).
    { rewrite <- (Nat.add_0_r (Z.to_nat i)), <- lookup_drop, Hd. reflexivity. }
    pose proof (lookup_lt_Some _ _ _ Hk) as Hlt.
    destruct (Z.leb_spec 0 i); [|lia].
    destruct (Z.ltb_spec i (Z.of_nat (length (sl_keys s)))); [|lia].
    cbn [andb]. split_and!; [reflexivity | exact (f_equal (default []) Hk) |].
    replace (Z.to_nat (i + 1)) with (S (Z.to_nat i)) by lia.
    rewrite (drop_S _ _ _ Hk) in Hd. injection Hd as Hd. exact Hd.
Qed.

(** What the loop collects once the inner cursor has moved to an index
    and [checkLimit] has looked at it. *)
Lemma rangeIterator_scan_from (fuel : nat) :
  forall (it : rangeIterator) (s : sliceIterator) (i : Z),
    soi it = true -> 0 <= i ->
    (length (drop (Z.to_nat i) (sl_keys s)) <= fuel)%nat ->
    (let '(it', ok) :=
       rangeIterator_checkLimit sliceIterator_ops
         (set_iter it (sliceIterator_at s i).1) (sliceIterator_at s i).2 in
     if ok then
       match rangeIterator_scan sliceIterator_ops fuel it' with
       | Some l => Some (rangeIterator_Key sliceIterator_ops it' :: l)
       | None => None
       end
     else Some []) =
    Some (map Some (keep_below (cmp it) (limit it) (drop (Z.to_nat i) (sl_keys s)))).
Proof.
  induction fuel as [|fuel IH]; intros it s i Hsoi Hi Hlen;
    pose proof (sliceIterator_at_rest s i Hi) as Hat;
    destruct (drop (Z.to_nat i) (sl_keys s)) as [|k rest] eqn:Hd.
  - unfold rangeIterator_checkLimit. rewrite Hat. reflexivity.
  - simpl in Hlen. lia.
  - unfold rangeIterator_checkLimit. rewrite Hat. reflexivity.
  - destruct Hat as (Hok & Hkey & Hrest).
    unfold rangeIterator_checkLimit. rewrite Hok.
    cbn [andb set_iter cmp limit iter Iterator_Key sliceIterator_ops].
    rewrite Hkey. cbn [keep_below].
    destruct (Compare (cmp it) k (limit it) <? 0); [|reflexivity].
    cbn [rangeIterator_scan].
    unfold rangeIterator_Next at 1.
    cbn [set_valid set_iter soi valid iter negb Iterator_Next sliceIterator_ops].
    rewrite Hsoi. cbn [negb].
    change (sl_open (sliceIterator_at s i).1) with true. cbv iota.
    change (sl_index (sliceIterator_at s i).1) with i.
    specialize (IH (set_valid (set_iter it (sliceIterator_at s i).1) true)
                   (sliceIterator_at s i).1 (i + 1) Hsoi ltac:(lia)).
    change (sl_keys (sliceIterator_at s i).1) with (sl_keys s) in IH.
    rewrite Hrest in IH. simpl in Hlen. specialize (IH ltac:(lia)).
    cbn [cmp limit set_valid set_iter] in IH.
    destruct (sliceIterator_at (sliceIterator_at s i).1 (i + 1)) as [s1 ok1] eqn:Hs1.
    cbn [fst snd] in IH.
    change (set_iter (set_valid (set_iter it (sliceIterator_at s i).1) true) s1)
      with (set_iter (set_valid (set_iter it (sliceIterator_at s i).1) true) s1) in IH.
    destruct (rangeIterator_checkLimit sliceIterator_ops
                (set_iter (set_valid (set_iter it (sliceIterator_at s i).1) true) s1) ok1)
      as [it2 ok2] eqn:Hcheck.
    rewrite IH. unfold rangeIterator_Key.
    cbn [valid set_valid iter set_iter Iterator_Key sliceIterator_ops].
    rewrite Hkey. reflexivity.
Qed.

Lemma startIterator_scan_from (fuel : nat) :
  forall (c : Comparer) (lo : bytes) (s : sliceIterator) (i : Z),
    0 <= i ->
    (length (drop (Z.to_nat i) (sl_keys s)) <= fuel)%nat ->
    (if (sliceIterator_at s i).2 then
       match startIterator_scan sliceIterator_ops fuel
               {| s_cmp := c; s_iter := (sliceIterator_at s i).1; s_start := lo;
                  s_valid := (sliceIterator_at s i).2; s_seeked := true |} with
       | Some l => Some (Some (sliceIterator_Key (sliceIterator_at s i).1) :: l)
       | None => None
       end
     else Some []) =
    Some (map Some (drop (Z.to_nat i) (sl_keys s))).
Proof.
  induction fuel as [|fuel IH]; intros c lo s i Hi Hlen;
    pose proof (sliceIterator_at_rest s i Hi) as Hat;
    destruct (drop (Z.to_nat i) (sl_keys s)) as [|k rest] eqn:Hd.
  - rewrite Hat. reflexivity.
  - simpl in Hlen. lia.
  - rewrite Hat. reflexivity.
  - destruct Hat as (Hok & Hkey & Hrest). rewrite Hok, Hkey.
    cbn [startIterator_scan]. unfold startIterator_Next.
    cbn [s_seeked s_iter s_cmp s_start Iterator_Next sliceIterator_ops].
    change (sl_open (sliceIterator_at s i).1) with true. cbv iota.
    change (sl_index (sliceIterator_at s i).1) with i.
    specialize (IH c lo (sliceIterator_at s i).1 (i + 1) ltac:(lia)).
    change (sl_keys (sliceIterator_at s i).1) with (sl_keys s) in IH.
    rewrite Hrest in IH. simpl in Hlen. specialize (IH ltac:(lia)).
    destruct (sliceIterator_at (sliceIterator_at s i).1 (i + 1)) as [s1 ok1] eqn:Hs1.
    cbn [fst snd] in IH.
    destruct ok1.
    + unfold startIterator_Key.
      cbn [startIterator_Valid s_valid s_iter Iterator_Key sliceIterator_ops].
      destruct (startIterator_scan sliceIterator_ops fuel _) as [l|]; [|discriminate].
      injection IH as IH. cbn [map]. rewrite <- IH. reflexivity.
    + injection IH as IH. cbn [map]. rewrite <- IH. reflexivity.
Qed.

Lemma slice_ascending_cons (c : Comparer) (k : bytes) (ks : list bytes) :
  slice_ascending c (k :: ks) ->
  slice_ascending c ks /\ forall x, In x ks -> Compare c k x <= 0.
Proof.
  intros Ha. split.
  - intros i j x y Hij Hx Hy. apply (Ha (S i) (S j) x y); [lia | exact Hx | exact Hy].
  - intros x Hx. apply In_nth_error in Hx as [n Hn].
    apply (Ha 0%nat (S n) k x); [lia | reflexivity |].
    simpl. rewrite <- Hn. clear. revert n. induction ks as [|y ks IH]; intros [|n]; simpl; auto.
Qed.

Lemma keep_below_filter (c : Comparer) (lo hi : bytes) (ks : list bytes) :
  orders c -> slice_ascending c ks ->
  (forall x, In x ks -> 0 <= Compare c x lo) ->
  keep_below c hi ks =
  List.filter (fun k => (0 <=? Compare c k lo) && (Compare c k hi <? 0)) ks.
Proof.
  intros (Hrefl & Hflip & Htrans). induction ks as [|k ks IH]; intros Ha Hlo; [reflexivity|].
  destruct (slice_ascending_cons c k ks Ha) as [Ha' Hk].
  simpl. destruct (Z.leb_spec 0 (Compare c k lo)) as [_|Hbad];
    [|specialize (Hlo k (or_introl eq_refl)); lia].
  destruct (Z.ltb_spec (Compare c k hi) 0) as [Hlt|Hge]; simpl.
  - f_equal. apply IH; [exact Ha'|]. intros x Hx. apply Hlo. right. exact Hx.
  - symmetry. clear IH. 
    assert (Hall : forall x, In x ks -> 0 <= Compare c x hi).
    { intros x Hx. specialize (Hk x Hx).
      pose proof (Htrans hi k x). pose proof (Hflip k hi). pose proof (Hflip x hi). lia. }
    clear Ha Ha' Hk Hlo. induction ks as [|x ks IH]; [reflexivity|].
    simpl. destruct (Z.ltb_spec (Compare c x hi) 0) as [Hlt|_].
    + specialize (Hall x (or_introl eq_refl)). lia.
    + rewrite andb_false_r. apply IH. intros y Hy. apply Hall. right. exact Hy.
Qed.

Lemma skip_below_filter (c : Comparer) (lo : bytes) (ks : list bytes) :
  orders c -> slice_ascending c ks ->
  (forall x, In x (skip_below c lo ks) -> 0 <= Compare c x lo) /\
  slice_ascending c (skip_below c lo ks) /\
  forall p : bytes -> bool,
    List.filter (fun k => (0 <=? Compare c k lo) && p k) ks =
    List.filter (fun k => (0 <=? Compare c k lo) && p k) (skip_below c lo ks).
Proof.
  intros (Hrefl & Hflip & Htrans). induction ks as [|k ks IH]; intros Ha.
  - split_and!; [intros x [] | exact Ha | reflexivity].
  - destruct (slice_ascending_cons c k ks Ha) as [Ha' Hk].
    cbn [skip_below]. destruct (Z.leb_spec 0 (Compare c k lo)) as [Hge|Hlt].
    + split_and!; [|exact Ha | reflexivity].
      intros x [<-|Hx]; [exact Hge|]. specialize (Hk x Hx).
      pose proof (Htrans lo k x). pose proof (Hflip k lo). pose proof (Hflip x lo). lia.
    + destruct (IH Ha') as (H1 & H2 & H3). split_and!; [exact H1 | exact H2 |].
      intros p. cbn [List.filter]. destruct (Z.leb_spec 0 (Compare c k lo)); [lia|].
      cbn [andb]. apply H3.
Qed.

(** X14: A loop over [Next] on the iterator that [NewRangeIterator] gives for
    two bounds collects, from a cursor over ascending keys, exactly the
    keys [k] with [start <= k < limit], in their order; it ends by itself
    within one turn more than there are keys. *)
Theorem rangeIterator_Next_scans_the_range
    (c : Comparer) (lo hi : bytes) (ks : list bytes) (it : rangeIterator) (fuel : nat) :
  orders c ->
  slice_ascending c ks ->
  NewRangeIterator lo hi c (newSliceIterator c ks) = Between it ->
  (length ks < fuel)%nat ->
  rangeIterator_scan sliceIterator_ops fuel it =
  Some (map Some
          (List.filter (fun k => (0 <=? Compare c k lo) && (Compare c k hi <? 0)) ks)).
Proof.
  intros Ho Ha Hnew Hfuel.
  unfold NewRangeIterator in Hnew.
  destruct ((length lo =? 0)%nat && (length hi =? 0)%nat); [discriminate|].
  destruct (length hi =? 0)%nat; [discriminate|].
  destruct (length lo =? 0)%nat; [discriminate|].
  destruct (0 <=? Compare c lo hi); [discriminate|].
  injection Hnew as <-.
  destruct fuel as [|fuel]; [lia|].
  cbn [rangeIterator_scan]. unfold rangeIterator_Next, rangeIterator_First.
  cbn [soi negb set_soi start iter Iterator_Seek sliceIterator_ops newSliceIterator sl_cmp sl_keys].
  set (it0 := set_soi _).
  pose proof (proj1 (first_at_or_after_spec c lo ks)) as H0.
  pose proof (rangeIterator_scan_from fuel it0 (newSliceIterator c ks)
                (first_at_or_after c lo ks) eq_refl H0) as Hscan.
  cbn [newSliceIterator sl_keys] in Hscan.
  rewrite first_at_or_after_skips in Hscan.
  destruct (skip_below_filter c lo ks Ho Ha) as (Hlo & Hasc & Hsame).
  assert (Hlen : (length (skip_below c lo ks) <= fuel)%nat).
  { rewrite <- first_at_or_after_skips, length_drop. lia. }
  specialize (Hscan Hlen).
  destruct (sliceIterator_at (newSliceIterator c ks) (first_at_or_after c lo ks))
    as [s1 ok1] eqn:Hs1.
  cbn [fst snd] in Hscan. rewrite Hscan.
  subst it0. cbn [set_soi cmp limit]. do 2 f_equal.
  rewrite (keep_below_filter c lo hi _ Ho Hasc Hlo).
  symmetry. apply (Hsame (fun k => Compare c k hi <? 0)).
Qed.

(** X15: A loop over [Next] on the iterator that [NewRangeIterator] gives for
    a start alone collects, from a cursor over ascending keys, exactly the
    keys that are not below the start, in their order, and ends by
    itself. *)
Theorem startIterator_Next_scans_from_start
    (c : Comparer) (lo : bytes) (ks : list bytes) (it : startIterator) (fuel : nat) :
  orders c ->
  slice_ascending c ks ->
  NewRangeIterator lo [] c (newSliceIterator c ks) = FromStart it ->
  (length ks < fuel)%nat ->
  startIterator_scan sliceIterator_ops fuel it =
  Some (map Some (List.filter (fun k => 0 <=? Compare c k lo) ks)).
Proof.
  intros Ho Ha Hnew Hfuel.
  unfold NewRangeIterator in Hnew. cbn [length Nat.eqb] in Hnew.
  destruct (length lo =? 0)%nat; [discriminate|]. cbn [andb] in Hnew.
  injection Hnew as <-.
  destruct fuel as [|fuel]; [lia|].
  cbn [startIterator_scan]. unfold startIterator_Next, startIterator_First, newStartIterator.
  cbn [s_seeked s_start s_iter s_cmp Iterator_Seek sliceIterator_ops newSliceIterator
       sl_cmp sl_keys].
  pose proof (proj1 (first_at_or_after_spec c lo ks)) as H0.
  pose proof (startIterator_scan_from fuel c lo (newSliceIterator c ks)
                (first_at_or_after c lo ks) H0) as Hscan.
  cbn [newSliceIterator sl_keys] in Hscan.
  rewrite first_at_or_after_skips in Hscan.
  destruct (skip_below_filter c lo ks Ho Ha) as (Hlo & Hasc & Hsame).
  assert (Hlen : (length (skip_below c lo ks) <= fuel)%nat).
  { rewrite <- first_at_or_after_skips, length_drop. lia. }
  specialize (Hscan Hlen).
  destruct (sliceIterator_at (newSliceIterator c ks) (first_at_or_after c lo ks))
    as [s1 ok1] eqn:Hs1.
  cbn [fst snd] in Hscan.
  assert (Hgoal : (if ok1
                   then match startIterator_scan sliceIterator_ops fuel
                                {| s_cmp := c; s_iter := s1; s_start := lo;
                                   s_valid := ok1; s_seeked := true |} with
                        | Some l =>
                            Some (startIterator_Key sliceIterator_ops
                                    {| s_cmp := c; s_iter := s1; s_start := lo;
                                       s_valid := ok1; s_seeked := true |} :: l)
                        | None => None
                        end
                   else Some []) = Some (map Some (skip_below c lo ks))).
  { rewrite <- Hscan. destruct ok1; reflexivity. }
  rewrite Hgoal. do 2 f_equal.
  specialize (Hsame (fun _ => true)).
  assert (Hext : forall l, List.filter (fun k => (0 <=? Compare c k lo) && true) l =
                           List.filter (fun k => 0 <=? Compare c k lo) l).
  { intros l. apply filter_ext. intros k. apply andb_true_r. }
  rewrite !Hext in Hsame. rewrite Hsame.
  clear -Hlo. induction (skip_below c lo ks) as [|x l IH]; [reflexivity|].
  simpl. destruct (Z.leb_spec 0 (Compare c x lo)) as [_|Hbad].
  - f_equal. apply IH. intros y Hy. apply Hlo. right. exact Hy.
  - specialize (Hlo x (or_introl eq_refl)). lia.
Qed.

(** *** Witnesses *)

Lemma abc_ascending : slice_ascending BytewiseComparer [b "a"; b "b"; b "c"].
Proof.
  intros i j x y Hij Hi Hj.
  destruct i as [|[|[|i]]]; simpl in Hi; try discriminate; injection Hi as <-;
    destruct j as [|[|[|j]]]; simpl in Hj; try discriminate; injection Hj as <-;
    try lia; vm_compute; discriminate.
Qed.

Lemma abc_good : slice_good BytewiseComparer abc.
Proof. split_and!; [reflexivity | exact abc_ascending | reflexivity]. Qed.

(** The keys from "b" up to "c", asked for their last key and then for
    the one before. *)
Definition b_to_c : rangeIterator :=
  {| cmp := BytewiseComparer; soi := false; iter := abc; valid := false;
     start := b "b"; limit := b "c" |}.

Lemma NewRangeIterator_stays_between_witness :
  exists k,
    rangeIterator_Key sliceIterator_ops
      {| cmp := BytewiseComparer; soi := true;
         iter := {| sl_cmp := BytewiseComparer; sl_open := true; sl_index := 1;
                    sl_keys := [b "a"; b "b"; b "c"] |};
         valid := true; start := b "b"; limit := b "c" |} = Some k /\
    0 <= bytesCompare k (b "b") /\ bytesCompare k (b "c") < 0.
Proof.
  exact (NewRangeIterator_stays_between sliceIterator_ops BytewiseComparer
           (slice_good BytewiseComparer) (b "b") (b "c") abc b_to_c _ 4 [CallLast]
           bytewise_orders (slice_keeps_contract BytewiseComparer bytewise_orders) abc_good
           eq_refl eq_refl eq_refl).
Defined.

Lemma NewRangeIterator_stays_after_start_witness :
  exists k,
    startIterator_Key sliceIterator_ops
      (startIterator_calls sliceIterator_ops from_c [CallLast; CallPrev; CallFirst]) = Some k /\
    0 <= bytesCompare k (b "c").
Proof.
  exact (NewRangeIterator_stays_after_start sliceIterator_ops BytewiseComparer
           (slice_good BytewiseComparer) bytewise_orders
           (slice_keeps_contract BytewiseComparer bytewise_orders)
           (b "c") abc from_c [CallLast; CallPrev; CallFirst] abc_good eq_refl eq_refl eq_refl).
Defined.

Lemma rangeIterator_Next_scans_the_range_witness :
  rangeIterator_scan sliceIterator_ops 4 b_to_c = Some [Some (b "b")].
Proof.
  exact (rangeIterator_Next_scans_the_range BytewiseComparer (b "b") (b "c")
           [b "a"; b "b"; b "c"] b_to_c 4 bytewise_orders abc_ascending eq_refl
           ltac:(simpl; lia)).
Defined.

Lemma startIterator_Next_scans_from_start_witness :
  startIterator_scan sliceIterator_ops 4 from_c = Some [Some (b "c")].
Proof.
  exact (startIterator_Next_scans_from_start BytewiseComparer (b "c")
           [b "a"; b "b"; b "c"] from_c 4 bytewise_orders abc_ascending eq_refl
           ltac:(simpl; lia)).
Defined.

End iterator.

(** ** Package iovecs: gathered writes *)

Module iovecs.

(** The [io.Writer] under a table file: what has been written so far, and
    the outcome of the coming [Write] calls.  [Some (k, e)]: the call
    returns the count [k] with the error [e], having written the first
    [k] bytes of its slice ([io.Writer] allows any [0 <= k <= len(p)]
    beside an error).  [None], and every call past the end of the list:
    the call writes the whole slice and returns its length and nil. *)
Record Sink := {
  written : list bytes;
  faults : list (option (Z * error))
}.

Definition Sink_Write (s : Sink) (p : bytes) : Sink * (Z * option error) :=
  match faults s with
  | Some (k, e) :: rest =>
      ({| written := written s ++ [take (Z.to_nat k) p]; faults := rest |}, (k, Some e))
  | None :: rest =>
      ({| written := written s ++ [p]; faults := rest |}, (Z.of_nat (length p), None))
  | [] => ({| written := written s ++ [p]; faults := [] |}, (Z.of_nat (length p), None))
  end.

(** [ioWriter.Writev]: one [Write] per slice, stopping at the first error. *)
Fixpoint ioWriter_Writev (s : Sink) (slices : list bytes) (n : Z) : Sink * (Z * option error) :=
  match slices with
  | [] => (s, (n, None))
  | p :: rest =>
      let '(s', (k, e)) := Sink_Write s p in
      match e with
      | Some _ => (s', (wrap64 (n + k), e))
      | None => ioWriter_Writev s' rest (wrap64 (n + k))
      end
  end.

Definition Writev (s : Sink) (slices : list bytes) : Sink * (Z * option error) :=
  ioWriter_Writev s slices 0.

(** *** What [ioWriter.Writev] writes *)

(** The bytes in a list of slices. *)
Definition total_length (slices : list bytes) : Z :=
  Z.of_nat (length (concat slices)).

(** Whether the coming [n] calls of [Write] all succeed. *)
Definition accepts (s : Sink) (n : nat) : bool :=
  forallb (fun o => match o with None => true | Some _ => false end) (take n (faults s)).

Lemma accepts_S (s : Sink) (n : nat) (p : bytes) :
  accepts s (S n) = true ->
  Sink_Write s p =
    ({| written := written s ++ [p]; faults := drop 1 (faults s) |},
     (Z.of_nat (length p), None)) /\
  accepts {| written := written s ++ [p]; faults := drop 1 (faults s) |} n = true.
Proof.
  unfold accepts, Sink_Write. destruct (faults s) as [|[e|] rest]; simpl.
  - intros _. split; [reflexivity|]. destruct n; reflexivity.
  - discriminate.
  - intros H. split; [reflexivity | exact H].
Qed.

Lemma total_length_cons (p : bytes) (slices : list bytes) :
  total_length (p :: slices) = Z.of_nat (length p) + total_length slices.
Proof. unfold total_length. simpl. rewrite length_app. lia. Qed.

Lemma total_length_nonneg (slices : list bytes) : 0 <= total_length slices.
Proof. unfold total_length. lia. Qed.

Lemma ioWriter_Writev_accepted (slices : list bytes) :
  forall (s : Sink) (n : Z),
    accepts s (length slices) = true ->
    0 <= n -> n + total_length slices < 2 ^ 63 ->
    ioWriter_Writev s slices n =
      ({| written := written s ++ slices; faults := drop (length slices) (faults s) |},
       (n + total_length slices, None)).
Proof.
  induction slices as [|p rest IH]; intros s n Hacc Hn Hfit.
  - simpl. rewrite app_nil_r, drop_0. unfold total_length. simpl.
    rewrite Z.add_0_r. destruct s; reflexivity.
  - rewrite total_length_cons in *. pose proof (total_length_nonneg rest).
    simpl. destruct (accepts_S s (length rest) p Hacc) as [-> Hacc'].
    rewrite wrap64_small by lia.
    rewrite IH; [|exact Hacc' | lia | lia].
    simpl. rewrite <- app_assoc, drop_drop, Z.add_assoc. reflexivity.
Qed.

(** X1: When none of the writes fails, [Writev] appends every slice in order
    and returns the number of bytes in them. *)
Theorem Writev_writes_every_slice (s : Sink) (slices : list bytes) :
  accepts s (length slices) = true ->
  total_length slices < 2 ^ 63 ->
  Writev s slices =
    ({| written := written s ++ slices; faults := drop (length slices) (faults s) |},
     (total_length slices, None)).
Proof.
  intros Hacc Hfit. unfold Writev.
  rewrite ioWriter_Writev_accepted; [reflexivity | exact Hacc | lia | lia].
Qed.

Lemma ioWriter_Writev_failing
    (pre : list bytes) (p : bytes) (post : list bytes) (k : Z) (e : error) :
  forall (s : Sink) (n : Z),
    accepts s (length pre) = true ->
    faults s !! length pre = Some (Some (k, e)) ->
    0 <= k ->
    0 <= n -> n + total_length pre + k < 2 ^ 63 ->
    ioWriter_Writev s (pre ++ p :: post) n =
      ({| written := written s ++ pre ++ [take (Z.to_nat k) p];
          faults := drop (S (length pre)) (faults s) |},
       (n + total_length pre + k, Some e)).
Proof.
  induction pre as [|q pre IH]; intros s n Hacc Hfail Hk Hn Hfit.
  - unfold total_length in *. simpl in Hfail, Hfit |- *. unfold Sink_Write.
    destruct (faults s) as [|o rest]; [discriminate|].
    simpl in Hfail. injection Hfail as ->. simpl.
    rewrite drop_0, !Z.add_0_r. rewrite Z.add_0_r in Hfit.
    rewrite wrap64_small by lia. reflexivity.
  - rewrite total_length_cons in *. pose proof (total_length_nonneg pre).
    simpl. destruct (accepts_S s (length pre) q Hacc) as [-> Hacc'].
    rewrite wrap64_small by lia.
    rewrite IH; [|exact Hacc' | | exact Hk | lia | lia].
    + simpl. rewrite <- app_assoc, drop_drop, Z.add_assoc. reflexivity.
    + simpl. rewrite lookup_drop. exact Hfail.
Qed.

(** X2: [Writev] stops at the first write that fails.  The slices before
    it are written, in order; of the slice that fails, the bytes the
    failing [Write] reports as written; no later slice is written.  The
    count [Writev] returns with the error is the length of the slices
    before it plus the count of the failing [Write], which the loop adds
    before it looks at the error. *)
Theorem Writev_stops_at_first_error
    (s : Sink) (pre : list bytes) (p : bytes) (post : list bytes) (k : Z) (e : error) :
  accepts s (length pre) = true ->
  faults s !! length pre = Some (Some (k, e)) ->
  0 <= k <= Z.of_nat (length p) ->
  total_length pre + k < 2 ^ 63 ->
  Writev s (pre ++ p :: post) =
    ({| written := written s ++ pre ++ [take (Z.to_nat k) p];
        faults := drop (S (length pre)) (faults s) |},
     (total_length pre + k, Some e)) /\
  (Writev s (pre ++ p :: post)).2.1 - total_length pre =
    total_length [take (Z.to_nat k) p].
Proof.
  intros Hacc Hfail Hk Hfit. unfold Writev.
  rewrite (ioWriter_Writev_failing pre p post k e);
    [| exact Hacc | exact Hfail | lia | lia | lia].
  split; [reflexivity|].
  cbn [fst snd]. unfold total_length. simpl.
  rewrite app_nil_r, length_take. lia.
Qed.

(** *** [fileWriter.Writev] *)




(** A file whose second write fails after one byte. *)
Definition flaky_file : Sink :=
  {| written := [b "head"]; faults := [None; Some (1, ErrIO "disk full")] |}.

Lemma Writev_writes_every_slice_witness :
  Writev flaky_file [b "ab"] =
    ({| written := [b "head"; b "ab"]; faults := [Some (1, ErrIO "disk full")] |}, (2, None)).
Proof. exact (Writev_writes_every_slice flaky_file [b "ab"] eq_refl eq_refl). Defined.

Lemma Writev_stops_at_first_error_witness :
  Writev flaky_file [b "ab"; b "cde"; b "f"] =
    ({| written := [b "head"; b "ab"; b "c"]; faults := [] |}, (3, Some (ErrIO "disk full"))).
Proof.
  exact (proj1 (Writev_stops_at_first_error flaky_file [b "ab"] (b "cde") [b "f"] 1
                  (ErrIO "disk full") eq_refl eq_refl ltac:(simpl; lia) eq_refl)).
Defined.

End iovecs.

(** ** Package table: the table writer *)

Module table.

Import keys iovecs.

(** [block.Handle] and the footer's two handles. *)
Record Handle := { Offset : Z; Length : Z }.
Record Footer := { MetaIndexHandle : Handle; DataIndexHandle : Handle }.

(** [block.Writer], as the entries added since the last [Reset]. *)
Record blockWriter := {
  entries : list (bytes * bytes);
  RestartInterval : Z
}.

Definition blockWriter_Add (bw : blockWriter) (key value : bytes) : blockWriter :=
  {| entries := entries bw ++ [(key, value)]; RestartInterval := RestartInterval bw |}.
Definition blockWriter_Reset (bw : blockWriter) : blockWriter :=
  {| entries := []; RestartInterval := RestartInterval bw |}.
Definition blockWriter_Empty (bw : blockWriter) : bool :=
  match entries bw with [] => true | _ => false end.

Record Options := {
  BlockSize : Z;
  BlockRestartInterval : Z;
  Compression : Z;
  Comparator : keys.Comparator;
  Filter : option string
}.

Definition NoCompression : Z := 0.

Record Writer := {
  w : Sink;
  options : Options;
  err : option error;
  offset : Z;
  footer : Footer;
  lastKey : bytes;
  indexKey : bytes;
  numEntries : Z;
  dataBlock : blockWriter;
  dataIndexBlock : blockWriter;
  pendingDataIndex : Handle
}.

Definition set_w (x : Writer) (s : Sink) : Writer :=
  {| w := s; options := options x; err := err x; offset := offset x; footer := footer x;
     lastKey := lastKey x; indexKey := indexKey x; numEntries := numEntries x;
     dataBlock := dataBlock x; dataIndexBlock := dataIndexBlock x;
     pendingDataIndex := pendingDataIndex x |}.
Definition set_err (x : Writer) (e : option error) : Writer :=
  {| w := w x; options := options x; err := e; offset := offset x; footer := footer x;
     lastKey := lastKey x; indexKey := indexKey x; numEntries := numEntries x;
     dataBlock := dataBlock x; dataIndexBlock := dataIndexBlock x;
     pendingDataIndex := pendingDataIndex x |}.
Definition set_offset (x : Writer) (o : Z) : Writer :=
  {| w := w x; options := options x; err := err x; offset := o; footer := footer x;
     lastKey := lastKey x; indexKey := indexKey x; numEntries := numEntries x;
     dataBlock := dataBlock x; dataIndexBlock := dataIndexBlock x;
     pendingDataIndex := pendingDataIndex x |}.
Definition set_footer (x : Writer) (f : Footer) : Writer :=
  {| w := w x; options := options x; err := err x; offset := offset x; footer := f;
     lastKey := lastKey x; indexKey := indexKey x; numEntries := numEntries x;
     dataBlock := dataBlock x; dataIndexBlock := dataIndexBlock x;
     pendingDataIndex := pendingDataIndex x |}.
Definition set_lastKey (x : Writer) (k : bytes) : Writer :=
  {| w := w x; options := options x; err := err x; offset := offset x; footer := footer x;
     lastKey := k; indexKey := indexKey x; numEntries := numEntries x;
     dataBlock := dataBlock x; dataIndexBlock := dataIndexBlock x;
     pendingDataIndex := pendingDataIndex x |}.
Definition set_indexKey (x : Writer) (k : bytes) : Writer :=
  {| w := w x; options := options x; err := err x; offset := offset x; footer := footer x;
     lastKey := lastKey x; indexKey := k; numEntries := numEntries x;
     dataBlock := dataBlock x; dataIndexBlock := dataIndexBlock x;
     pendingDataIndex := pendingDataIndex x |}.
Definition set_numEntries (x : Writer) (n : Z) : Writer :=
  {| w := w x; options := options x; err := err x; offset := offset x; footer := footer x;
     lastKey := lastKey x; indexKey := indexKey x; numEntries := n;
     dataBlock := dataBlock x; dataIndexBlock := dataIndexBlock x;
     pendingDataIndex := pendingDataIndex x |}.
Definition set_dataBlock (x : Writer) (bw : blockWriter) : Writer :=
  {| w := w x; options := options x; err := err x; offset := offset x; footer := footer x;
     lastKey := lastKey x; indexKey := indexKey x; numEntries := numEntries x;
     dataBlock := bw; dataIndexBlock := dataIndexBlock x;
     pendingDataIndex := pendingDataIndex x |}.
Definition set_dataIndexBlock (x : Writer) (bw : blockWriter) : Writer :=
  {| w := w x; options := options x; err := err x; offset := offset x; footer := footer x;
     lastKey := lastKey x; indexKey := indexKey x; numEntries := numEntries x;
     dataBlock := dataBlock x; dataIndexBlock := bw;
     pendingDataIndex := pendingDataIndex x |}.
Definition set_pendingDataIndex (x : Writer) (h : Handle) : Writer :=
  {| w := w x; options := options x; err := err x; offset := offset x; footer := footer x;
     lastKey := lastKey x; indexKey := indexKey x; numEntries := numEntries x;
     dataBlock := dataBlock x; dataIndexBlock := dataIndexBlock x;
     pendingDataIndex := h |}.

(** Which of the writer's two block builders a call works on
    ([&w.dataBlock] or [&w.dataIndexBlock]). *)
Inductive blockRef := DataBlock | DataIndexBlock.

Definition get_block (x : Writer) (r : blockRef) : blockWriter :=
  match r with DataBlock => dataBlock x | DataIndexBlock => dataIndexBlock x end.
Definition set_block (x : Writer) (r : blockRef) (bw : blockWriter) : Writer :=
  match r with
  | DataBlock => set_dataBlock x bw
  | DataIndexBlock => set_dataIndexBlock x bw
  end.

(** A small codec and a table to run the writer on: a block is its keys
    and values followed by a four-byte restart count, nothing is
    compressed, and the comparator is bytewise with separators that are
    not shortened. *)
Definition plain_Finish (bw : blockWriter) : bytes :=
  flat_map (fun kv => kv.1 ++ kv.2) (entries bw) ++ putLE 4 (RestartInterval bw).
Definition plain_ApproximateSize (bw : blockWriter) : Z :=
  Z.of_nat (length (plain_Finish bw)).
Definition plain_Encode (compression : Z) (data : bytes) : option bytes := None.
Definition plain_trailer (contents : bytes) (compression : Z) : bytes :=
  byte_of_Z compression :: putLE 4 0.
Definition plain_EncodeHandle (h : Handle) : bytes :=
  putLE 8 (Offset h) ++ putLE 8 (Length h).
Definition plain_Footer_Encode (ft : Footer) : bytes :=
  plain_EncodeHandle (MetaIndexHandle ft) ++ plain_EncodeHandle (DataIndexHandle ft).

Definition plain_Comparator : keys.Comparator :=
  {| comparer := BytewiseComparer;
     AppendSuccessor := fun dst start limit => dst ++ start;
     MakePrefixSuccessor := fun prefix => prefix |}.

Definition plain_options : Options :=
  {| BlockSize := 8; BlockRestartInterval := 16; Compression := NoCompression;
     Comparator := plain_Comparator; Filter := None |}.

Definition blank_Writer : Writer :=
  {| w := {| written := []; faults := [] |}; options := plain_options; err := None;
     offset := 0;
     footer := {| MetaIndexHandle := {| Offset := 0; Length := 0 |};
                  DataIndexHandle := {| Offset := 0; Length := 0 |} |};
     lastKey := []; indexKey := []; numEntries := 0;
     dataBlock := {| entries := []; RestartInterval := 0 |};
     dataIndexBlock := {| entries := []; RestartInterval := 0 |};
     pendingDataIndex := {| Offset := 0; Length := 0 |} |}.

Definition new_file : Sink := {| written := []; faults := [] |}.

Definition five_pairs : list (bytes * bytes) :=
  [(b "a", b "1"); (b "b", b "2"); (b "c", b "3"); (b "d", b "4"); (b "e", b "5")].

Section Codec.

(** The encoders of the packages [block], [compress], [crc], [filter]
    and of [Footer], none of which is among the sources: the writer only
    moves their results around. *)
Variable block_Finish : blockWriter -> bytes.
Variable block_ApproximateSize : blockWriter -> Z.
Variable compress_Encode : Z -> bytes -> option bytes.
Variable block_trailer : bytes -> Z -> bytes.
Variable EncodeHandle : Handle -> bytes.
Variable Footer_Encode : Footer -> bytes.
Variable filter_Finish : option bytes.
Variable filter_name : bytes.

Definition Writer_Reset (x : Writer) (f : Sink) (opts : Options) : Writer :=
  {| w := f; options := opts; err := None; offset := 0; footer := footer x;
     lastKey := []; indexKey := []; numEntries := 0;
     dataBlock := {| entries := []; RestartInterval := BlockRestartInterval opts |};
     dataIndexBlock := {| entries := []; RestartInterval := 1 |};
     pendingDataIndex := {| Offset := Offset (pendingDataIndex x); Length := 0 |} |}.

Definition Writer_writeRawBlock (x : Writer) (contents : bytes) (compression : Z)
  : Writer * (Handle * option error) :=
  let trailer := block_trailer contents compression in
  let '(s, (n, e)) := Writev (w x) [contents; trailer] in
  let x := set_w x s in
  match e with
  | Some _ => (x, ({| Offset := 0; Length := 0 |}, e))
  | None =>
      let handle := {| Offset := offset x; Length := Z.of_nat (length contents) |} in
      (set_offset x (wrap64 (offset x + n)), (handle, None))
  end.

(** What [writeBlock] hands to [writeRawBlock]: the finished block,
    compressed when the options ask for it and the codec succeeds. *)
Definition block_contents (opts : Options) (bw : blockWriter) : bytes * Z :=
  let data := block_Finish bw in
  if Compression opts =? NoCompression then (data, NoCompression)
  else
    match compress_Encode (Compression opts) data with
    | Some compressed => (compressed, Compression opts)
    | None => (data, NoCompression)
    end.

Definition Writer_writeBlock (x : Writer) (r : blockRef) : Writer * (Handle * option error) :=
  let '(data, compression) := block_contents (options x) (get_block x r) in
  let '(x, res) := Writer_writeRawBlock x data compression in
  (set_block x r (blockWriter_Reset (get_block x r)), res).

Definition Writer_flushDataBlock (x : Writer) : Writer * option error :=
  if blockWriter_Empty (dataBlock x) then (x, err x)
  else
    let '(x, (h, e)) := Writer_writeBlock x DataBlock in
    let x := set_err (set_pendingDataIndex x h) e in
    (x, err x).

Definition Writer_flushPendingDataIndex (x : Writer) (limit : bytes) : Writer :=
  if negb (Length (pendingDataIndex x) =? 0) then
    let x := set_indexKey x
               (AppendSuccessor (Comparator (options x)) [] (lastKey x) limit) in
    let x := set_dataIndexBlock x
               (blockWriter_Add (dataIndexBlock x) (indexKey x)
                                (EncodeHandle (pendingDataIndex x))) in
    set_pendingDataIndex x {| Offset := Offset (pendingDataIndex x); Length := 0 |}
  else x.

Definition Writer_Add (x : Writer) (key value : bytes) : Writer * option error :=
  match err x with
  | Some e => (x, Some e)
  | None =>
      let x := Writer_flushPendingDataIndex x key in
      let x := set_numEntries x (wrap64 (numEntries x + 1)) in
      let x := set_lastKey x key in
      let x := set_dataBlock x (blockWriter_Add (dataBlock x) key value) in
      let x := if BlockSize (options x) <=? block_ApproximateSize (dataBlock x)
               then fst (Writer_flushDataBlock x) else x in
      (x, err x)
  end.

Definition Writer_writeMetaIndexBlock (x : Writer) (metaIndex : blockRef)
  : Writer * (Handle * option error) :=
  match filter_Finish with
  | Some data =>
      let '(x, (handle, e)) := Writer_writeRawBlock x data NoCompression in
      match e with
      | Some _ => (x, (handle, e))
      | None =>
          let x := set_block x metaIndex
                     (blockWriter_Add (get_block x metaIndex) filter_name (EncodeHandle handle)) in
          Writer_writeBlock x metaIndex
      end
  | None => Writer_writeBlock x metaIndex
  end.

(** [Finish], with the deferred [setError] applied on each return path:
    a non-nil result is stored in [w.err]. *)
Definition Writer_Finish (x : Writer) : Writer * option error :=
  match err x with
  | Some e => (x, Some e)
  | None =>
      let '(x, e) := Writer_flushDataBlock x in
      match e with
      | Some _ => (x, None)
      | None =>
          let '(x, (h, e)) := Writer_writeMetaIndexBlock x DataBlock in
          let x := set_footer x {| MetaIndexHandle := h;
                                   DataIndexHandle := DataIndexHandle (footer x) |} in
          match e with
          | Some _ => (set_err x e, e)
          | None =>
              let x := Writer_flushPendingDataIndex x [] in
              let '(x, (h, e)) := Writer_writeBlock x DataIndexBlock in
              let x := set_footer x {| MetaIndexHandle := MetaIndexHandle (footer x);
                                       DataIndexHandle := h |} in
              match e with
              | Some _ => (set_err x e, e)
              | None =>
                  let '(s, (n, e)) := Sink_Write (w x) (Footer_Encode (footer x)) in
                  let x := set_w x s in
                  match e with
                  | Some _ => (set_err x e, e)
                  | None =>
                      let x := set_offset x (wrap64 (offset x + n)) in
                      (x, err x)
                  end
              end
          end
      end
  end.

(** Feeding a sequence of pairs to [Add], in order. *)
Definition Writer_AddAll (x : Writer) (kvs : list (bytes * bytes)) : Writer :=
  fold_left (fun x kv => fst (Writer_Add x kv.1 kv.2)) kvs x.

(** *** The blocks and separators a key sequence should give *)

(** The data blocks cut from a sequence: a block is closed as soon as its
    approximate size reaches the block size. *)
Definition cut (opts : Options) (st : list (list (bytes * bytes)) * list (bytes * bytes))
    (kv : bytes * bytes) : list (list (bytes * bytes)) * list (bytes * bytes) :=
  let cur := st.2 ++ [kv] in
  if BlockSize opts <=? block_ApproximateSize
       {| entries := cur; RestartInterval := BlockRestartInterval opts |}
  then (st.1 ++ [cur], []) else (st.1, cur).

Definition cuts (opts : Options) (kvs : list (bytes * bytes))
  : list (list (bytes * bytes)) * list (bytes * bytes) :=
  fold_left (cut opts) kvs ([], []).

Definition blocks_of (opts : Options) (kvs : list (bytes * bytes)) : list (list (bytes * bytes)) :=
  let st := cuts opts kvs in
  match st.2 with [] => st.1 | _ => st.1 ++ [st.2] end.

Definition first_key (blk : list (bytes * bytes)) : bytes :=
  match blk with [] => [] | kv :: _ => kv.1 end.
Definition last_key (blk : list (bytes * bytes)) : bytes :=
  match last blk with None => [] | Some kv => kv.1 end.

(** The separators between consecutive blocks. *)
Fixpoint separators_between (c : keys.Comparator) (blks : list (list (bytes * bytes))) : list bytes :=
  match blks with
  | [] => []
  | b1 :: rest =>
      match rest with
      | [] => []
      | b2 :: _ => AppendSuccessor c [] (last_key b1) (first_key b2) :: separators_between c rest
      end
  end.

(** All index keys: the separators, and the successor of the last key. *)
Definition separators (c : keys.Comparator) (blks : list (list (bytes * bytes))) : list bytes :=
  match last blks with
  | None => []
  | Some bl => separators_between c blks ++ [AppendSuccessor c [] (last_key bl) []]
  end.

(** Each index key is at or after the last key of its block and, when a
    block follows, before that block's first key. *)
Fixpoint separates (c : keys.Comparator) (blks : list (list (bytes * bytes))) (ks : list bytes) : Prop :=
  match blks, ks with
  | [], [] => True
  | b1 :: rest, k :: ks' =>
      Compare c (last_key b1) k <= 0 /\
      match rest with
      | [] => True
      | b2 :: _ => Compare c k (first_key b2) < 0
      end /\
      separates c rest ks'
  | _, _ => False
  end.

(** Keys in strictly ascending order. *)
Fixpoint ascending (c : keys.Comparer) (ks : list bytes) : bool :=
  match ks with
  | [] => true
  | k :: rest =>
      match rest with
      | [] => true
      | k' :: _ => (Compare c k k' <? 0) && ascending c rest
      end
  end.

(** *** The index entries of a written table *)

Variable opts : Options.

(** The bytes a data block holding [blk] is written as, and the two
    writes it makes: contents, then trailer. *)
Definition block_bytes (blk : list (bytes * bytes)) : bytes :=
  (block_contents opts {| entries := blk; RestartInterval := BlockRestartInterval opts |}).1.

Definition block_writes (blk : list (bytes * bytes)) : list bytes :=
  [block_bytes blk;
   block_trailer (block_bytes blk)
     (block_contents opts {| entries := blk; RestartInterval := BlockRestartInterval opts |}).2].

Lemma cuts_snoc (kvs : list (bytes * bytes)) (kv : bytes * bytes) :
  cuts opts (kvs ++ [kv]) = cut opts (cuts opts kvs) kv.
Proof. unfold cuts. rewrite fold_left_app. reflexivity. Qed.

Lemma blocks_of_snoc (kvs : list (bytes * bytes)) (kv : bytes * bytes) :
  blocks_of opts (kvs ++ [kv]) = (cuts opts kvs).1 ++ [(cuts opts kvs).2 ++ [kv]].
Proof.
  unfold blocks_of. rewrite cuts_snoc. unfold cut.
  destruct (BlockSize opts <=? _); simpl; [reflexivity|].
  destruct ((cuts opts kvs).2 ++ [kv]) eqn:E; [|reflexivity].
  destruct ((cuts opts kvs).2); discriminate.
Qed.

Lemma blocks_of_nonempty (kvs : list (bytes * bytes)) :
  kvs <> [] -> blocks_of opts kvs <> [].
Proof.
  destruct kvs as [|kv kvs _] using rev_ind; [congruence|].
  intros _. rewrite blocks_of_snoc. destruct ((cuts opts kvs).1); discriminate.
Qed.

Lemma separators_between_snoc (c : keys.Comparator) (blks : list (list (bytes * bytes)))
    (bl blk : list (bytes * bytes)) :
  separators_between c ((blks ++ [bl]) ++ [blk]) =
  separators_between c (blks ++ [bl]) ++ [AppendSuccessor c [] (last_key bl) (first_key blk)].
Proof.
  induction blks as [|b0 blks IH]; [reflexivity|].
  simpl. simpl in IH.
  destruct (blks ++ [bl]) as [|b1 rest] eqn:E; [destruct blks; discriminate|].
  simpl. simpl in IH. rewrite IH. reflexivity.
Qed.

Lemma separators_between_last (c : keys.Comparator) (blks : list (list (bytes * bytes)))
    (b1 b2 : list (bytes * bytes)) :
  first_key b1 = first_key b2 ->
  separators_between c (blks ++ [b1]) = separators_between c (blks ++ [b2]).
Proof.
  intros Hk. destruct blks as [|b0 blks _] using rev_ind; [reflexivity|].
  rewrite !separators_between_snoc, Hk. reflexivity.
Qed.

Lemma last_key_snoc (blk : list (bytes * bytes)) (kv : bytes * bytes) :
  last_key (blk ++ [kv]) = kv.1.
Proof. unfold last_key. rewrite last_snoc. reflexivity. Qed.

Lemma first_key_snoc (blk : list (bytes * bytes)) (kv : bytes * bytes) :
  blk <> [] -> first_key (blk ++ [kv]) = first_key blk.
Proof. destruct blk; [congruence | reflexivity]. Qed.

Hypothesis contents_nonempty : forall blk, blk <> [] -> block_bytes blk <> [].

(** The state of a writer that was fed [kvs] through a sink that never
    fails and held [pre] before. *)
Definition fed (pre : list bytes) (kvs : list (bytes * bytes)) (x : Writer) : Prop :=
  err x = None /\ options x = opts /\ faults (w x) = [] /\
  dataBlock x = {| entries := (cuts opts kvs).2;
                   RestartInterval := BlockRestartInterval opts |} /\
  lastKey x = match last (blocks_of opts kvs) with Some bl => last_key bl | None => [] end /\
  map fst (entries (dataIndexBlock x)) =
    separators_between (Comparator opts) (blocks_of opts kvs) /\
  (Length (pendingDataIndex x) <> 0 <-> (cuts opts kvs).2 = [] /\ kvs <> []) /\
  written (w x) = pre ++ concat (map block_writes (cuts opts kvs).1).

Lemma Writer_flushDataBlock_ok (x : Writer) (blk : list (bytes * bytes)) :
  faults (w x) = [] -> options x = opts -> blk <> [] ->
  dataBlock x = {| entries := blk; RestartInterval := BlockRestartInterval opts |} ->
  (Writer_flushDataBlock x).2 = None /\
  err (Writer_flushDataBlock x).1 = None /\
  options (Writer_flushDataBlock x).1 = opts /\
  faults (w (Writer_flushDataBlock x).1) = [] /\
  dataBlock (Writer_flushDataBlock x).1 =
    {| entries := []; RestartInterval := BlockRestartInterval opts |} /\
  lastKey (Writer_flushDataBlock x).1 = lastKey x /\
  dataIndexBlock (Writer_flushDataBlock x).1 = dataIndexBlock x /\
  Length (pendingDataIndex (Writer_flushDataBlock x).1) <> 0 /\
  written (w (Writer_flushDataBlock x).1) = written (w x) ++ block_writes blk.
Proof.
  intros Hf Ho Hne Hd.
  pose proof (contents_nonempty blk Hne) as Hc.
  destruct x as [s o e off ft lk ik ne db dib pd]. simpl in *. subst o db.
  unfold Writer_flushDataBlock, blockWriter_Empty. simpl.
  destruct blk as [|kv blk]; [congruence|].
  unfold Writer_writeBlock. simpl.
  unfold block_bytes in Hc. unfold block_writes, block_bytes.
  destruct (block_contents opts _) as [data compression] eqn:Hbc. simpl in Hc.
  unfold Writer_writeRawBlock, Writev. simpl.
  unfold Sink_Write. simpl. rewrite Hf. simpl.
  split_and!; try reflexivity.
  - simpl. destruct data; [congruence|]. simpl. lia.
  - simpl. rewrite <- app_assoc. reflexivity.
Qed.

Lemma fed_Reset (x0 : Writer) (f : Sink) :
  faults f = [] -> fed (written f) [] (Writer_Reset x0 f opts).
Proof.
  intros Hf. unfold fed, Writer_Reset, cuts, blocks_of; simpl.
  split_and!; try reflexivity; try assumption.
  - split; [intros H; congruence | intros [_ H]; congruence].
  - rewrite app_nil_r. reflexivity.
Qed.

Lemma fed_Add (pre : list bytes) (kvs : list (bytes * bytes)) (kv : bytes * bytes) (x : Writer) :
  fed pre kvs x -> fed pre (kvs ++ [kv]) (Writer_Add x kv.1 kv.2).1.
Proof.
  intros (He & Ho & Hf & Hd & Hl & Hi & Hp & Hw).
  unfold Writer_Add. rewrite He.
  (* the pending index entry, if any, is written first *)
  set (x1 := Writer_flushPendingDataIndex x kv.1).
  assert (H1 : err x1 = None /\ options x1 = opts /\ faults (w x1) = [] /\
               dataBlock x1 = dataBlock x /\ written (w x1) = written (w x) /\
               Length (pendingDataIndex x1) = 0 /\
               map fst (entries (dataIndexBlock x1)) =
                 separators_between (Comparator opts)
                   ((cuts opts kvs).1 ++ [(cuts opts kvs).2 ++ [kv]])).
  { subst x1. unfold Writer_flushPendingDataIndex.
    destruct (Z.eqb_spec (Length (pendingDataIndex x)) 0) as [Hz|Hnz]; simpl.
    - split_and!; try assumption; try reflexivity.
      rewrite Hi. unfold blocks_of.
      destruct ((cuts opts kvs).2) as [|kv0 cur] eqn:Hcur.
      + destruct kvs as [|kv' kvs' _] using rev_ind.
        * reflexivity.
        * exfalso. apply (proj2 Hp); [|exact Hz]. split; [reflexivity|]. destruct kvs'; discriminate.
      + apply separators_between_last. reflexivity.
    - apply Hp in Hnz as [Hcur Hkvs].
      split_and!; try assumption; try reflexivity.
      rewrite map_app, Hi. simpl. rewrite Ho, Hl. unfold blocks_of. rewrite Hcur. simpl.
      pose proof (blocks_of_nonempty kvs Hkvs) as Hne.
      unfold blocks_of in Hne. rewrite Hcur in Hne.
      destruct ((cuts opts kvs).1) as [|bl blks _] using rev_ind; [congruence|].
      rewrite last_snoc, separators_between_snoc. reflexivity. }
  destruct H1 as (He1 & Ho1 & Hf1 & Hd1 & Hw1 & Hp1 & Hi1).
  set (x2 := set_dataBlock _ _).
  assert (Hd2 : dataBlock x2 = {| entries := (cuts opts kvs).2 ++ [kv];
                                  RestartInterval := BlockRestartInterval opts |}).
  { subst x2. simpl. rewrite Hd1, Hd. unfold blockWriter_Add. destruct kv; reflexivity. }
  assert (Hrest : err x2 = None /\ options x2 = opts /\ faults (w x2) = [] /\
                  lastKey x2 = kv.1 /\ written (w x2) = written (w x) /\
                  Length (pendingDataIndex x2) = 0 /\
                  dataIndexBlock x2 = dataIndexBlock x1).
  { subst x2. simpl. split_and!; assumption || reflexivity. }
  destruct Hrest as (He2 & Ho2 & Hf2 & Hl2 & Hw2 & Hp2 & Hi2).
  assert (Hb : blocks_of opts (kvs ++ [kv]) = (cuts opts kvs).1 ++ [(cuts opts kvs).2 ++ [kv]])
    by apply blocks_of_snoc.
  unfold fed. rewrite Hb, last_snoc, last_key_snoc, cuts_snoc. unfold cut.
  rewrite Ho2, Hd2.
  destruct (BlockSize opts <=? _) eqn:Hfull; simpl.
  - destruct (Writer_flushDataBlock_ok x2 ((cuts opts kvs).2 ++ [kv]))
      as (_ & He3 & Ho3 & Hf3 & Hd3 & Hl3 & Hi3 & Hp3 & Hw3); try assumption.
    { destruct ((cuts opts kvs).2); discriminate. }
    split_and!; try assumption; try congruence.
    + split; [intros _; split; [reflexivity | destruct kvs; discriminate] | intros _; exact Hp3].
    + rewrite Hw3, Hw2, Hw, map_app, concat_app. simpl.
      rewrite <- app_assoc. reflexivity.
  - split_and!; try assumption; try congruence.
    split; [intros H; congruence | intros [H _]].
    destruct ((cuts opts kvs).2); discriminate.
Qed.

Lemma fed_AddAll (x0 : Writer) (f : Sink) (kvs : list (bytes * bytes)) :
  faults f = [] -> fed (written f) kvs (Writer_AddAll (Writer_Reset x0 f opts) kvs).
Proof.
  intros Hf. induction kvs as [|kv kvs IH] using rev_ind.
  - apply fed_Reset; assumption.
  - unfold Writer_AddAll in *. rewrite fold_left_app. simpl. apply fed_Add. exact IH.
Qed.

Lemma Writer_writeRawBlock_ok (x : Writer) (contents : bytes) (compression : Z) :
  faults (w x) = [] ->
  Writer_writeRawBlock x contents compression =
    (set_offset
       (set_w x {| written := (written (w x) ++ [contents])
                              ++ [block_trailer contents compression];
                   faults := [] |})
       (wrap64 (offset x +
                wrap64 (wrap64 (0 + Z.of_nat (length contents)) +
                        Z.of_nat (length (block_trailer contents compression))))),
     ({| Offset := offset x; Length := Z.of_nat (length contents) |}, None)).
Proof.
  intros Hf. unfold Writer_writeRawBlock, Writev. simpl.
  unfold Sink_Write. rewrite Hf. simpl. reflexivity.
Qed.

(** On a sink that never fails, the meta-index step only appends to the
    file and to nothing that the index entries are made from. *)
Lemma Writer_writeMetaIndexBlock_ok (x : Writer) :
  faults (w x) = [] ->
  exists meta,
    (Writer_writeMetaIndexBlock x DataBlock).2.2 = None /\
    err (Writer_writeMetaIndexBlock x DataBlock).1 = err x /\
    options (Writer_writeMetaIndexBlock x DataBlock).1 = options x /\
    faults (w (Writer_writeMetaIndexBlock x DataBlock).1) = [] /\
    lastKey (Writer_writeMetaIndexBlock x DataBlock).1 = lastKey x /\
    dataIndexBlock (Writer_writeMetaIndexBlock x DataBlock).1 = dataIndexBlock x /\
    pendingDataIndex (Writer_writeMetaIndexBlock x DataBlock).1 = pendingDataIndex x /\
    written (w (Writer_writeMetaIndexBlock x DataBlock).1) = written (w x) ++ meta.
Proof.
  intros Hf. unfold Writer_writeMetaIndexBlock.
  destruct filter_Finish as [data|].
  - rewrite Writer_writeRawBlock_ok by exact Hf. cbv beta iota zeta.
    unfold Writer_writeBlock.
    destruct (block_contents _ _) as [d c].
    rewrite Writer_writeRawBlock_ok by reflexivity. simpl.
    eexists. split_and!; try reflexivity.
    rewrite <- !app_assoc. reflexivity.
  - unfold Writer_writeBlock.
    destruct (block_contents _ _) as [d c].
    rewrite Writer_writeRawBlock_ok by exact Hf. simpl.
    eexists. split_and!; try reflexivity.
    rewrite <- !app_assoc. reflexivity.
Qed.

Lemma fed_Finish (pre : list bytes) (kvs : list (bytes * bytes)) (x : Writer) :
  fed pre kvs x ->
  exists (idx : blockWriter) (meta : list bytes),
    (Writer_Finish x).2 = None /\
    map fst (entries idx) = separators (Comparator opts) (blocks_of opts kvs) /\
    written (w (Writer_Finish x).1) =
      pre ++ concat (map block_writes (blocks_of opts kvs)) ++ meta ++
      [(block_contents opts idx).1;
       block_trailer (block_contents opts idx).1 (block_contents opts idx).2;
       Footer_Encode (footer (Writer_Finish x).1)].
Proof.
  intros (He & Ho & Hf & Hd & Hl & Hi & Hp & Hw).
  unfold Writer_Finish. rewrite He.
  (* the last data block, if it holds anything *)
  assert (H1 : (Writer_flushDataBlock x).2 = None /\
               err (Writer_flushDataBlock x).1 = None /\
               options (Writer_flushDataBlock x).1 = opts /\
               faults (w (Writer_flushDataBlock x).1) = [] /\
               lastKey (Writer_flushDataBlock x).1 = lastKey x /\
               dataIndexBlock (Writer_flushDataBlock x).1 = dataIndexBlock x /\
               (Length (pendingDataIndex (Writer_flushDataBlock x).1) <> 0 <-> kvs <> []) /\
               written (w (Writer_flushDataBlock x).1) =
                 pre ++ concat (map block_writes (blocks_of opts kvs))).
  { destruct ((cuts opts kvs).2) as [|kv0 cur] eqn:Hcur.
    - unfold Writer_flushDataBlock, blockWriter_Empty. rewrite Hd. simpl.
      split_and!; try assumption; try reflexivity.
      + rewrite Hp. tauto.
      + rewrite Hw. unfold blocks_of. rewrite Hcur. reflexivity.
    - destruct (Writer_flushDataBlock_ok x (kv0 :: cur))
        as (Hr & He3 & Ho3 & Hf3 & Hd3 & Hl3 & Hi3 & Hp3 & Hw3); try assumption.
      { discriminate. }
      split_and!; try assumption.
      + split; [intros _ | intros _; exact Hp3].
        intros ->. unfold cuts in Hcur. simpl in Hcur. discriminate.
      + rewrite Hw3, Hw. unfold blocks_of. rewrite Hcur, map_app, concat_app. simpl.
        rewrite <- app_assoc. reflexivity. }
  destruct (Writer_flushDataBlock x) as [x1 e1]. simpl in H1.
  destruct H1 as (-> & He1 & Ho1 & Hf1 & Hl1 & Hi1 & Hp1 & Hw1).
  destruct (Writer_writeMetaIndexBlock_ok x1 Hf1)
    as (meta & Hr2 & He2 & Ho2 & Hf2 & Hl2 & Hi2 & Hp2 & Hw2).
  destruct (Writer_writeMetaIndexBlock x1 DataBlock) as [x2 [h2 e2]]. simpl in *.
  subst e2.
  set (x3 := Writer_flushPendingDataIndex _ _).
  assert (H3 : faults (w x3) = [] /\ options x3 = opts /\ err x3 = None /\
               written (w x3) = written (w x2) /\
               map fst (entries (dataIndexBlock x3)) =
                 separators (Comparator opts) (blocks_of opts kvs)).
  { subst x3. unfold Writer_flushPendingDataIndex. simpl. rewrite Hp2.
    destruct (Z.eqb_spec (Length (pendingDataIndex x1)) 0) as [Hz|Hnz]; simpl.
    - split_and!; try assumption; try congruence.
      rewrite Hi2, Hi1, Hi.
      assert (kvs = []) as ->.
      { destruct kvs; [reflexivity|]. exfalso. apply (proj2 Hp1); [discriminate | exact Hz]. }
      reflexivity.
    - split_and!; try assumption; try congruence.
      rewrite map_app, Hi2, Hi1, Hi, Hl2, Hl1, Hl, Ho2, Ho1. simpl.
      unfold separators.
      pose proof (blocks_of_nonempty kvs (proj1 Hp1 Hnz)) as Hne.
      destruct (last (blocks_of opts kvs)) as [bl|] eqn:Hlast; [reflexivity|].
      apply last_None in Hlast. congruence. }
  destruct H3 as (Hf3 & Ho3 & He3 & Hw3 & Hi3).
  unfold Writer_writeBlock. simpl.
  destruct (block_contents (options x3) (dataIndexBlock x3)) as [d c] eqn:Hbc.
  rewrite Writer_writeRawBlock_ok by exact Hf3. simpl.
  unfold Sink_Write. simpl.
  exists (dataIndexBlock x3), meta.
  split_and!; [exact He3 | exact Hi3 |].
  rewrite Ho3 in Hbc. rewrite Hbc. simpl.
  rewrite Hw3, Hw2, Hw1, <- !app_assoc. reflexivity.
Qed.

(** *** The order of index keys *)

Lemma cuts_partition (kvs : list (bytes * bytes)) :
  concat (cuts opts kvs).1 ++ (cuts opts kvs).2 = kvs /\
  Forall (fun blk => blk <> []) (cuts opts kvs).1.
Proof.
  induction kvs as [|kv kvs [IHc IHn]] using rev_ind.
  - split; [reflexivity | constructor].
  - rewrite cuts_snoc. unfold cut.
    destruct (BlockSize opts <=? _); simpl.
    + split.
      * rewrite concat_app. simpl. rewrite !app_nil_r, app_assoc, IHc. reflexivity.
      * apply Forall_app. split; [exact IHn|]. constructor; [|constructor].
        destruct ((cuts opts kvs).2); discriminate.
    + split; [rewrite app_assoc, IHc; reflexivity | exact IHn].
Qed.

Lemma blocks_of_partition (kvs : list (bytes * bytes)) :
  concat (blocks_of opts kvs) = kvs /\
  Forall (fun blk => blk <> []) (blocks_of opts kvs).
Proof.
  destruct (cuts_partition kvs) as [Hc Hn]. unfold blocks_of.
  destruct ((cuts opts kvs).2) as [|kv0 cur] eqn:Hcur.
  - rewrite app_nil_r in Hc. split; assumption.
  - split.
    + rewrite concat_app. simpl. rewrite app_nil_r. exact Hc.
    + apply Forall_app. split; [exact Hn|]. constructor; [discriminate | constructor].
Qed.

Lemma ascending_tail (c : keys.Comparer) (k : bytes) (ks : list bytes) :
  ascending c (k :: ks) = true -> ascending c ks = true.
Proof.
  simpl. destruct ks as [|k' ks]; [reflexivity|].
  intros H. apply andb_prop in H. tauto.
Qed.

Lemma ascending_app_r (c : keys.Comparer) (l1 l2 : list bytes) :
  ascending c (l1 ++ l2) = true -> ascending c l2 = true.
Proof.
  induction l1 as [|k l1 IH]; [trivial|].
  intros H. apply IH. exact (ascending_tail c k _ H).
Qed.

Lemma ascending_adjacent (c : keys.Comparer) (l1 l2 : list bytes) (k1 k2 : bytes) :
  ascending c (l1 ++ k1 :: k2 :: l2) = true -> Compare c k1 k2 < 0.
Proof.
  intros H. apply ascending_app_r in H. simpl in H.
  apply andb_prop in H as [H _]. apply Z.ltb_lt in H. exact H.
Qed.

Lemma separators_cons2 (c : keys.Comparator) (b1 b2 : list (bytes * bytes))
    (rest : list (list (bytes * bytes))) :
  separators c (b1 :: b2 :: rest) =
  AppendSuccessor c [] (last_key b1) (first_key b2) :: separators c (b2 :: rest).
Proof.
  unfold separators.
  change (last (b1 :: b2 :: rest)) with (last (b2 :: rest)).
  destruct (last (b2 :: rest)) as [bl|] eqn:Hl; [reflexivity|].
  apply last_None in Hl. discriminate.
Qed.

Hypothesis successor_between : forall start limit,
  Compare (Comparator opts) start limit < 0 ->
  Compare (Comparator opts) start (AppendSuccessor (Comparator opts) [] start limit) <= 0 /\
  Compare (Comparator opts) (AppendSuccessor (Comparator opts) [] start limit) limit < 0.
Hypothesis successor_open : forall start,
  Compare (Comparator opts) start (AppendSuccessor (Comparator opts) [] start []) <= 0.

Lemma separators_separate (blks : list (list (bytes * bytes))) :
  Forall (fun blk => blk <> []) blks ->
  ascending (Comparator opts) (map fst (concat blks)) = true ->
  separates (Comparator opts) blks (separators (Comparator opts) blks).
Proof.
  induction blks as [|b1 rest IH]; intros Hn Hs; [exact I|].
  destruct rest as [|b2 rest].
  - simpl. split; [apply successor_open | split; exact I].
  - rewrite separators_cons2.
    apply Forall_cons in Hn as [Hb1 Hn].
    pose proof Hn as Hn'. apply Forall_cons in Hn' as [Hb2 _].
    assert (Hadj : Compare (Comparator opts) (last_key b1) (first_key b2) < 0).
    { destruct b1 as [|kvl b1' _] using rev_ind; [congruence|].
      destruct b2 as [|kvf b2']; [congruence|].
      rewrite last_key_snoc. simpl first_key.
      simpl in Hs. rewrite <- app_assoc, map_app in Hs. simpl in Hs.
      exact (ascending_adjacent _ _ _ _ _ Hs). }
    destruct (successor_between _ _ Hadj) as [Hlo Hhi].
    split; [exact Hlo|]. split; [exact Hhi|].
    apply IH; [exact Hn|].
    simpl in Hs. rewrite map_app in Hs. exact (ascending_app_r _ _ _ Hs).
Qed.

(** C8: a writer reset onto a sink that never fails and fed the pairs
    [kvs], whose keys ascend.  While adding, the index block holds only
    the separators between consecutive blocks, each
    [AppendSuccessor(last key of the block, first key of the next)]: the
    entry of a block that was just flushed is pending, not yet in the
    index.  [Finish] succeeds and writes, after the data blocks of
    [blocks_of] and the meta blocks, an index block whose keys are those
    separators followed by [AppendSuccessor(last key, nil)]; every index
    key is at or after the last key of its block and before the first key
    of the next block. *)
Theorem Writer_index_entries_deferred (x0 : Writer) (f : Sink) (kvs : list (bytes * bytes)) :
  faults f = [] ->
  ascending (Comparator opts) (map fst kvs) = true ->
  err (Writer_AddAll (Writer_Reset x0 f opts) kvs) = None /\
  map fst (entries (dataIndexBlock (Writer_AddAll (Writer_Reset x0 f opts) kvs))) =
    separators_between (Comparator opts) (blocks_of opts kvs) /\
  (Length (pendingDataIndex (Writer_AddAll (Writer_Reset x0 f opts) kvs)) <> 0 <->
   entries (dataBlock (Writer_AddAll (Writer_Reset x0 f opts) kvs)) = [] /\ kvs <> []) /\
  (exists (idx : blockWriter) (meta : list bytes),
     (Writer_Finish (Writer_AddAll (Writer_Reset x0 f opts) kvs)).2 = None /\
     map fst (entries idx) = separators (Comparator opts) (blocks_of opts kvs) /\
     written (w (Writer_Finish (Writer_AddAll (Writer_Reset x0 f opts) kvs)).1) =
       written f ++ concat (map block_writes (blocks_of opts kvs)) ++ meta ++
       [(block_contents opts idx).1;
        block_trailer (block_contents opts idx).1 (block_contents opts idx).2;
        Footer_Encode (footer (Writer_Finish (Writer_AddAll (Writer_Reset x0 f opts) kvs)).1)]) /\
  concat (blocks_of opts kvs) = kvs /\
  separates (Comparator opts) (blocks_of opts kvs)
    (separators (Comparator opts) (blocks_of opts kvs)).
Proof.
  intros Hf Hs.
  pose proof (fed_AddAll x0 f kvs Hf) as Hfed.
  pose proof (fed_Finish _ _ _ Hfed) as Hfin.
  destruct Hfed as (He & Ho & Hfs & Hd & Hl & Hi & Hp & Hw).
  destruct (blocks_of_partition kvs) as [Hc Hn].
  split_and!; try assumption.
  - rewrite Hd. exact Hp.
  - apply separators_separate; [exact Hn|]. rewrite Hc. exact Hs.
Qed.

(** *** Errors of the writer *)

(** [Add] and [flushDataBlock] return [w.err] as they leave it. *)
Lemma Writer_flushDataBlock_err (x : Writer) :
  (Writer_flushDataBlock x).2 = err (Writer_flushDataBlock x).1.
Proof.
  unfold Writer_flushDataBlock. destruct (blockWriter_Empty (dataBlock x)); [reflexivity|].
  destruct (Writer_writeBlock x DataBlock) as [x1 [h e]]. reflexivity.
Qed.

Lemma Writer_Add_err (x : Writer) (key value : bytes) :
  (Writer_Add x key value).2 = err (Writer_Add x key value).1.
Proof.
  unfold Writer_Add. destruct (err x) eqn:E; [simpl; symmetry; exact E | reflexivity].
Qed.

Lemma Writer_AddAll_failed (x : Writer) (e : error) (kvs : list (bytes * bytes)) :
  err x = Some e -> Writer_AddAll x kvs = x.
Proof.
  intros He. unfold Writer_AddAll. induction kvs as [|kv kvs IH]; [reflexivity|].
  simpl. unfold Writer_Add at 2. rewrite He. simpl. exact IH.
Qed.

(** X4: An error that [Add] returns is there to stay: every later [Add] and
    [Finish] returns the same error and leaves the writer, the file
    included, as it is. *)
Theorem Writer_error_is_sticky
    (x : Writer) (key value : bytes) (e : error) (kvs : list (bytes * bytes)) :
  (Writer_Add x key value).2 = Some e ->
  Forall (fun kv => Writer_Add (Writer_Add x key value).1 kv.1 kv.2 =
                    ((Writer_Add x key value).1, Some e)) kvs /\
  Writer_AddAll (Writer_Add x key value).1 kvs = (Writer_Add x key value).1 /\
  Writer_Finish (Writer_Add x key value).1 = ((Writer_Add x key value).1, Some e).
Proof.
  intros H. rewrite Writer_Add_err in H.
  set (x' := (Writer_Add x key value).1) in *.
  split_and!.
  - apply Forall_forall. intros kv _. unfold Writer_Add. rewrite H. reflexivity.
  - exact (Writer_AddAll_failed x' e kvs H).
  - unfold Writer_Finish. rewrite H. reflexivity.
Qed.

(** X5: When flushing the last data block fails inside [Finish], [Finish]
    returns nil: the error only goes to [w.err], where the next call finds
    it, and neither index nor footer is written. *)
Theorem Writer_Finish_hides_flush_error (x : Writer) (e : error) :
  err x = None ->
  (Writer_flushDataBlock x).2 = Some e ->
  (Writer_Finish x).2 = None /\
  (Writer_Finish x).1 = (Writer_flushDataBlock x).1 /\
  err (Writer_Finish x).1 = Some e /\
  (Writer_Finish (Writer_Finish x).1).2 = Some e.
Proof.
  intros He Hflush. pose proof (Writer_flushDataBlock_err x) as Herr.
  assert (Hfin : Writer_Finish x = ((Writer_flushDataBlock x).1, None)).
  { unfold Writer_Finish. rewrite He.
    destruct (Writer_flushDataBlock x) as [x1 e1]. simpl in Hflush. subst e1. reflexivity. }
  rewrite Hfin. simpl. rewrite <- Herr, Hflush.
  split_and!; try reflexivity.
  unfold Writer_Finish. rewrite <- Herr, Hflush. reflexivity.
Qed.

(** *** Where the blocks are in the file *)

Lemma wrap64_add_l (a c : Z) : wrap64 (wrap64 a + c) = wrap64 (a + c).
Proof.
  unfold wrap64. f_equal.
  replace ((a + 2 ^ 63) mod 2 ^ 64 - 2 ^ 63 + c + 2 ^ 63)
    with ((a + 2 ^ 63) mod 2 ^ 64 + c) by lia.
  rewrite Zplus_mod_idemp_l. f_equal. lia.
Qed.

Lemma wrap64_add_r (a c : Z) : wrap64 (a + wrap64 c) = wrap64 (a + c).
Proof. rewrite (Z.add_comm a), wrap64_add_l. f_equal. lia. Qed.

Lemma wrap64_decomp (z : Z) : exists k, wrap64 z = z + 2 ^ 64 * k.
Proof.
  exists (- ((z + 2 ^ 63) / 2 ^ 64)). unfold wrap64.
  rewrite (Z.mod_eq (z + 2 ^ 63) (2 ^ 64)) by lia. lia.
Qed.

Lemma wrap64_shift (z k : Z) : wrap64 (z + 2 ^ 64 * k) = wrap64 z.
Proof.
  unfold wrap64. f_equal.
  replace (z + 2 ^ 64 * k + 2 ^ 63) with (z + 2 ^ 63 + k * 2 ^ 64) by lia.
  apply Z_mod_plus_full.
Qed.

Lemma wrap64_reshift (z k1 k2 : Z) :
  wrap64 (z + 2 ^ 64 * k1) = wrap64 (z + 2 ^ 64 * (k1 + k2)).
Proof. rewrite !wrap64_shift. reflexivity. Qed.

(** Two [int64] sums agree when they add up the same terms, however the
    intermediate results were wrapped. *)
Ltac same_wrapped_sum :=
  lazymatch goal with
  | |- wrap64 ?a = wrap64 ?c =>
      transitivity (wrap64 (c + 2 ^ 64 * 0)); [|apply wrap64_shift]
  end;
  repeat match goal with
  | |- wrap64 ?a = wrap64 (?c + 2 ^ 64 * ?K) =>
      match a with
      | context [wrap64 ?z] =>
          let k := fresh "k" in
          destruct (wrap64_decomp z) as [k ->];
          rewrite (wrap64_reshift c K k)
      end
  end;
  f_equal; lia.

(** [LastKey], [Empty] and [FileSize]. *)
Definition Writer_LastKey (x : Writer) : bytes := lastKey x.
Definition Writer_Empty (x : Writer) : bool := numEntries x =? 0.
Definition Writer_FileSize (x : Writer) : Z := offset x.

(** The bytes a data block takes in the file, trailer included, and
    those of a run of blocks. *)
Definition block_size (blk : list (bytes * bytes)) : Z :=
  total_length (block_writes blk).
Definition blocks_size (blks : list (list (bytes * bytes))) : Z :=
  total_length (concat (map block_writes blks)).

(** The handles of consecutive blocks, the first at offset [off]: each
    offset is an [int64] sum, each length that of the block's contents. *)
Fixpoint handles (off : Z) (blks : list (list (bytes * bytes))) : list Handle :=
  match blks with
  | [] => []
  | blk :: rest =>
      {| Offset := wrap64 off; Length := Z.of_nat (length (block_bytes blk)) |}
      :: handles (off + block_size blk) rest
  end.

(** Reading [len] bytes at [off]. *)
Definition read_at (p : bytes) (off len : Z) : bytes :=
  take (Z.to_nat len) (drop (Z.to_nat off) p).

Lemma total_length_app (l1 l2 : list bytes) :
  total_length (l1 ++ l2) = total_length l1 + total_length l2.
Proof. unfold total_length. rewrite concat_app, length_app. lia. Qed.

Lemma total_length_three (p1 p2 p3 : bytes) :
  total_length [p1; p2; p3] =
  Z.of_nat (length p1) + Z.of_nat (length p2) + Z.of_nat (length p3).
Proof. unfold total_length. simpl. rewrite ?app_nil_r, !length_app. lia. Qed.

Lemma blocks_size_snoc (blks : list (list (bytes * bytes))) (blk : list (bytes * bytes)) :
  blocks_size (blks ++ [blk]) = blocks_size blks + block_size blk.
Proof.
  unfold blocks_size, block_size. rewrite map_app, concat_app, total_length_app.
  simpl. rewrite ?app_nil_r. reflexivity.
Qed.

Lemma blocks_size_cons (blk : list (bytes * bytes)) (blks : list (list (bytes * bytes))) :
  blocks_size (blk :: blks) = block_size blk + blocks_size blks.
Proof.
  unfold blocks_size, block_size.
  change (concat (map block_writes (blk :: blks)))
    with (block_writes blk ++ concat (map block_writes blks)).
  apply total_length_app.
Qed.

Lemma block_size_eq (blk : list (bytes * bytes)) :
  block_size blk =
  Z.of_nat (length (block_bytes blk)) +
  Z.of_nat (length (block_trailer (block_bytes blk)
    (block_contents opts {| entries := blk; RestartInterval := BlockRestartInterval opts |}).2)).
Proof.
  unfold block_size, total_length, block_writes. simpl.
  rewrite ?app_nil_r, length_app. lia.
Qed.

Lemma handles_snoc (blks : list (list (bytes * bytes))) (blk : list (bytes * bytes)) :
  forall off,
    handles off (blks ++ [blk]) =
    handles off blks ++
    [{| Offset := wrap64 (off + blocks_size blks);
        Length := Z.of_nat (length (block_bytes blk)) |}].
Proof.
  induction blks as [|b0 blks IH]; intros off.
  - simpl. unfold blocks_size, total_length. simpl. rewrite Z.add_0_r. reflexivity.
  - simpl. rewrite IH, blocks_size_cons, Z.add_assoc. reflexivity.
Qed.

(** What [flushPendingDataIndex] changes: the index block gains the
    pending handle, if there is one, and nothing is pending afterwards. *)
Lemma Writer_flushPendingDataIndex_fields (x : Writer) (limit : bytes) :
  w (Writer_flushPendingDataIndex x limit) = w x /\
  err (Writer_flushPendingDataIndex x limit) = err x /\
  options (Writer_flushPendingDataIndex x limit) = options x /\
  offset (Writer_flushPendingDataIndex x limit) = offset x /\
  numEntries (Writer_flushPendingDataIndex x limit) = numEntries x /\
  dataBlock (Writer_flushPendingDataIndex x limit) = dataBlock x /\
  footer (Writer_flushPendingDataIndex x limit) = footer x /\
  Length (pendingDataIndex (Writer_flushPendingDataIndex x limit)) = 0 /\
  map snd (entries (dataIndexBlock (Writer_flushPendingDataIndex x limit))) =
    map snd (entries (dataIndexBlock x)) ++
    (if Length (pendingDataIndex x) =? 0 then [] else [EncodeHandle (pendingDataIndex x)]).
Proof.
  unfold Writer_flushPendingDataIndex.
  destruct (Z.eqb_spec (Length (pendingDataIndex x)) 0) as [Hz|Hnz]; simpl.
  - rewrite app_nil_r. split_and!; try reflexivity. exact Hz.
  - rewrite map_app. split_and!; reflexivity.
Qed.

(** What flushing a data block changes on a file that takes every
    write: the block is appended, its handle is pending, the offset has
    moved past it. *)
Lemma Writer_flushDataBlock_places (x : Writer) (blk : list (bytes * bytes)) :
  faults (w x) = [] -> options x = opts -> blk <> [] ->
  dataBlock x = {| entries := blk; RestartInterval := BlockRestartInterval opts |} ->
  offset (Writer_flushDataBlock x).1 = wrap64 (offset x + block_size blk) /\
  pendingDataIndex (Writer_flushDataBlock x).1 =
    {| Offset := offset x; Length := Z.of_nat (length (block_bytes blk)) |} /\
  numEntries (Writer_flushDataBlock x).1 = numEntries x /\
  footer (Writer_flushDataBlock x).1 = footer x.
Proof.
  intros Hf Ho Hne Hd. rewrite block_size_eq.
  destruct x as [s o e off ft lk ik ne db dib pd]. simpl in *. subst o db.
  unfold Writer_flushDataBlock, blockWriter_Empty. simpl.
  destruct blk as [|kv blk]; [congruence|].
  unfold Writer_writeBlock. simpl. unfold block_bytes.
  destruct (block_contents opts _) as [data compression] eqn:Hbc.
  unfold Writer_writeRawBlock, Writev. simpl.
  unfold Sink_Write. simpl. rewrite Hf. simpl.
  split_and!; try reflexivity.
  rewrite wrap64_add_r, (Z.add_comm (wrap64 _)), Z.add_assoc, wrap64_add_r. f_equal. lia.
Qed.

(** The offsets of a writer that was fed [kvs]: the file offset is past
    the flushed blocks, the index block holds their handles, and the
    handle of a block flushed last is the pending one. *)
Definition placed (kvs : list (bytes * bytes)) (x : Writer) : Prop :=
  offset x = wrap64 (blocks_size (cuts opts kvs).1) /\
  numEntries x = wrap64 (Z.of_nat (length kvs)) /\
  if Length (pendingDataIndex x) =? 0 then
    map snd (entries (dataIndexBlock x)) = map EncodeHandle (handles 0 (cuts opts kvs).1)
  else
    exists done bl,
      (cuts opts kvs).1 = done ++ [bl] /\
      map snd (entries (dataIndexBlock x)) = map EncodeHandle (handles 0 done) /\
      pendingDataIndex x = {| Offset := wrap64 (blocks_size done);
                              Length := Z.of_nat (length (block_bytes bl)) |}.

Lemma placed_Reset (x0 : Writer) (f : Sink) : placed [] (Writer_Reset x0 f opts).
Proof. unfold placed, Writer_Reset, cuts. simpl. split_and!; reflexivity. Qed.

Lemma placed_index (kvs : list (bytes * bytes)) (x : Writer) (limit : bytes) :
  placed kvs x ->
  map snd (entries (dataIndexBlock (Writer_flushPendingDataIndex x limit))) =
  map EncodeHandle (handles 0 (cuts opts kvs).1).
Proof.
  intros (_ & _ & Hp).
  destruct (Writer_flushPendingDataIndex_fields x limit) as (_ & _ & _ & _ & _ & _ & _ & _ & ->).
  destruct (Length (pendingDataIndex x) =? 0).
  - rewrite app_nil_r. exact Hp.
  - destruct Hp as (done & bl & -> & -> & ->).
    rewrite handles_snoc, map_app. reflexivity.
Qed.

Lemma placed_Add (pre : list bytes) (kvs : list (bytes * bytes)) (kv : bytes * bytes)
    (x : Writer) :
  fed pre kvs x -> placed kvs x -> placed (kvs ++ [kv]) (Writer_Add x kv.1 kv.2).1.
Proof.
  intros (He & Ho & Hf & Hd & _ & _ & _ & _) Hpl.
  pose proof (placed_index kvs x kv.1 Hpl) as Hidx.
  destruct Hpl as (Hoff & Hnum & _).
  unfold Writer_Add. rewrite He.
  destruct (Writer_flushPendingDataIndex_fields x kv.1)
    as (Hw1 & He1 & Ho1 & Hoff1 & Hn1 & Hd1 & _ & Hp1 & _).
  set (x1 := Writer_flushPendingDataIndex x kv.1) in *.
  set (x2 := set_dataBlock _ _).
  assert (H2 : faults (w x2) = [] /\ options x2 = opts /\
               offset x2 = wrap64 (blocks_size (cuts opts kvs).1) /\
               numEntries x2 = wrap64 (Z.of_nat (length (kvs ++ [kv]))) /\
               dataBlock x2 = {| entries := (cuts opts kvs).2 ++ [kv];
                                 RestartInterval := BlockRestartInterval opts |} /\
               Length (pendingDataIndex x2) = 0 /\
               dataIndexBlock x2 = dataIndexBlock x1).
  { subst x2. simpl. rewrite Hw1, Ho1, Hoff1, Hn1, Hd1, Hd, Hnum, wrap64_add_l, length_app.
    split_and!; try assumption; try reflexivity.
    - f_equal. simpl. lia.
    - unfold blockWriter_Add. destruct kv; reflexivity. }
  destruct H2 as (Hf2 & Ho2 & Hoff2 & Hn2 & Hd2 & Hp2 & Hi2).
  unfold placed. rewrite cuts_snoc. unfold cut. rewrite Ho2, Hd2.
  destruct (BlockSize opts <=? _) eqn:Hfull; cbn [fst snd].
  - assert (Hne : (cuts opts kvs).2 ++ [kv] <> []) by (destruct ((cuts opts kvs).2); discriminate).
    destruct (Writer_flushDataBlock_ok x2 _ Hf2 Ho2 Hne Hd2)
      as (_ & _ & _ & _ & _ & _ & Hi3 & Hp3 & _).
    destruct (Writer_flushDataBlock_places x2 _ Hf2 Ho2 Hne Hd2) as (Hoff3 & Hpd3 & Hn3 & _).
    split_and!.
    + rewrite Hoff3, Hoff2, wrap64_add_l, blocks_size_snoc. reflexivity.
    + rewrite Hn3. exact Hn2.
    + destruct (Z.eqb_spec (Length (pendingDataIndex (Writer_flushDataBlock x2).1)) 0)
        as [Hz|_]; [contradiction|].
      exists (cuts opts kvs).1, ((cuts opts kvs).2 ++ [kv]).
      split_and!; [reflexivity | rewrite Hi3, Hi2; exact Hidx | rewrite Hpd3, Hoff2; reflexivity].
  - split_and!; [exact Hoff2 | exact Hn2 |].
    rewrite Hp2, Hi2. simpl. exact Hidx.
Qed.

Lemma placed_AddAll (x0 : Writer) (f : Sink) (kvs : list (bytes * bytes)) :
  faults f = [] -> placed kvs (Writer_AddAll (Writer_Reset x0 f opts) kvs).
Proof.
  intros Hf. induction kvs as [|kv kvs IH] using rev_ind.
  - apply placed_Reset.
  - pose proof (fed_AddAll x0 f kvs Hf) as Hfed.
    unfold Writer_AddAll in *. rewrite fold_left_app. simpl.
    exact (placed_Add _ _ _ _ Hfed IH).
Qed.

(** X6: On a file that takes every write, [Empty] tells whether a pair was
    added since [Reset] and [LastKey] is the key that was added last. *)
Theorem Writer_Empty_and_LastKey (x0 : Writer) (f : Sink) (kvs : list (bytes * bytes)) :
  faults f = [] ->
  Z.of_nat (length kvs) < 2 ^ 63 ->
  Writer_Empty (Writer_AddAll (Writer_Reset x0 f opts) kvs) =
    match kvs with [] => true | _ => false end /\
  Writer_LastKey (Writer_AddAll (Writer_Reset x0 f opts) kvs) =
    match last kvs with Some kv => kv.1 | None => [] end.
Proof.
  intros Hf Hlen.
  destruct (placed_AddAll x0 f kvs Hf) as (_ & Hnum & _).
  destruct (fed_AddAll x0 f kvs Hf) as (_ & _ & _ & _ & Hl & _).
  unfold Writer_Empty, Writer_LastKey. rewrite Hnum, Hl, wrap64_small by lia. split.
  - destruct kvs; [reflexivity|]. simpl length. apply Z.eqb_neq. lia.
  - destruct kvs as [|kv kvs _] using rev_ind; [reflexivity|].
    rewrite blocks_of_snoc, !last_snoc, last_key_snoc. reflexivity.
Qed.

(** What the meta-index step changes on a file that takes every write. *)
Lemma Writer_writeMetaIndexBlock_places (x : Writer) :
  faults (w x) = [] ->
  exists meta,
    (Writer_writeMetaIndexBlock x DataBlock).2.2 = None /\
    err (Writer_writeMetaIndexBlock x DataBlock).1 = err x /\
    options (Writer_writeMetaIndexBlock x DataBlock).1 = options x /\
    faults (w (Writer_writeMetaIndexBlock x DataBlock).1) = [] /\
    lastKey (Writer_writeMetaIndexBlock x DataBlock).1 = lastKey x /\
    dataIndexBlock (Writer_writeMetaIndexBlock x DataBlock).1 = dataIndexBlock x /\
    pendingDataIndex (Writer_writeMetaIndexBlock x DataBlock).1 = pendingDataIndex x /\
    written (w (Writer_writeMetaIndexBlock x DataBlock).1) = written (w x) ++ meta /\
    offset (Writer_writeMetaIndexBlock x DataBlock).1 = wrap64 (offset x + total_length meta).
Proof.
  intros Hf. unfold Writer_writeMetaIndexBlock.
  destruct filter_Finish as [data|].
  - rewrite Writer_writeRawBlock_ok by exact Hf. cbv beta iota zeta.
    unfold Writer_writeBlock.
    destruct (block_contents _ _) as [d c].
    rewrite Writer_writeRawBlock_ok by reflexivity. simpl.
    eexists [_; _; _; _]. split_and!; try reflexivity.
    + rewrite <- !app_assoc. reflexivity.
    + unfold total_length. simpl. rewrite ?length_app. simpl. same_wrapped_sum.
  - unfold Writer_writeBlock.
    destruct (block_contents _ _) as [d c].
    rewrite Writer_writeRawBlock_ok by exact Hf. simpl.
    eexists [_; _]. split_and!; try reflexivity.
    + rewrite <- !app_assoc. reflexivity.
    + unfold total_length. simpl. rewrite ?length_app. simpl. same_wrapped_sum.
Qed.

(** The index block holds the handles of the blocks [blks], the last of
    them possibly still pending. *)
Definition indexed (blks : list (list (bytes * bytes))) (x : Writer) : Prop :=
  if Length (pendingDataIndex x) =? 0 then
    map snd (entries (dataIndexBlock x)) = map EncodeHandle (handles 0 blks)
  else
    exists done bl,
      blks = done ++ [bl] /\
      map snd (entries (dataIndexBlock x)) = map EncodeHandle (handles 0 done) /\
      pendingDataIndex x = {| Offset := wrap64 (blocks_size done);
                              Length := Z.of_nat (length (block_bytes bl)) |}.

Lemma indexed_flush (blks : list (list (bytes * bytes))) (x : Writer) (limit : bytes) :
  indexed blks x ->
  map snd (entries (dataIndexBlock (Writer_flushPendingDataIndex x limit))) =
  map EncodeHandle (handles 0 blks).
Proof.
  unfold indexed. intros Hp.
  destruct (Writer_flushPendingDataIndex_fields x limit) as (_ & _ & _ & _ & _ & _ & _ & _ & ->).
  destruct (Length (pendingDataIndex x) =? 0).
  - rewrite app_nil_r. exact Hp.
  - destruct Hp as (done & bl & -> & -> & ->).
    rewrite handles_snoc, map_app. reflexivity.
Qed.

(** [Finish] on a file that takes every write: what the index block
    holds, what the file holds, where the footer says the index block is,
    and the file size the writer reports. *)
Lemma placed_Finish (pre : list bytes) (kvs : list (bytes * bytes)) (x : Writer) :
  fed pre kvs x -> placed kvs x ->
  exists (idx : blockWriter) (meta : list bytes),
    (Writer_Finish x).2 = None /\
    map fst (entries idx) = separators (Comparator opts) (blocks_of opts kvs) /\
    map snd (entries idx) = map EncodeHandle (handles 0 (blocks_of opts kvs)) /\
    written (w (Writer_Finish x).1) =
      pre ++ concat (map block_writes (blocks_of opts kvs)) ++ meta ++
      [(block_contents opts idx).1;
       block_trailer (block_contents opts idx).1 (block_contents opts idx).2;
       Footer_Encode (footer (Writer_Finish x).1)] /\
    DataIndexHandle (footer (Writer_Finish x).1) =
      {| Offset := wrap64 (blocks_size (blocks_of opts kvs) + total_length meta);
         Length := Z.of_nat (length (block_contents opts idx).1) |} /\
    Writer_FileSize (Writer_Finish x).1 =
      wrap64 (blocks_size (blocks_of opts kvs) + total_length meta +
              total_length
                [(block_contents opts idx).1;
                 block_trailer (block_contents opts idx).1 (block_contents opts idx).2;
                 Footer_Encode (footer (Writer_Finish x).1)]).
Proof.
  intros (He & Ho & Hf & Hd & Hl & Hi & Hp & Hw) (Hoff & _ & Hidx).
  change (indexed (cuts opts kvs).1 x) in Hidx.
  unfold Writer_Finish, Writer_FileSize. rewrite He.
  (* the last data block, if it holds anything *)
  assert (H1 : (Writer_flushDataBlock x).2 = None /\
               err (Writer_flushDataBlock x).1 = None /\
               options (Writer_flushDataBlock x).1 = opts /\
               faults (w (Writer_flushDataBlock x).1) = [] /\
               lastKey (Writer_flushDataBlock x).1 = lastKey x /\
               map fst (entries (dataIndexBlock (Writer_flushDataBlock x).1)) =
                 map fst (entries (dataIndexBlock x)) /\
               (Length (pendingDataIndex (Writer_flushDataBlock x).1) <> 0 <-> kvs <> []) /\
               written (w (Writer_flushDataBlock x).1) =
                 pre ++ concat (map block_writes (blocks_of opts kvs)) /\
               offset (Writer_flushDataBlock x).1 = wrap64 (blocks_size (blocks_of opts kvs)) /\
               indexed (blocks_of opts kvs) (Writer_flushDataBlock x).1).
  { destruct ((cuts opts kvs).2) as [|kv0 cur] eqn:Hcur.
    - unfold Writer_flushDataBlock, blockWriter_Empty. rewrite Hd. simpl.
      unfold blocks_of. rewrite Hcur. simpl.
      split_and!; try assumption; try reflexivity.
      rewrite Hp. tauto.
    - destruct (Writer_flushDataBlock_ok x (kv0 :: cur))
        as (Hr & He3 & Ho3 & Hf3 & Hd3 & Hl3 & Hi3 & Hp3 & Hw3); try assumption.
      { discriminate. }
      destruct (Writer_flushDataBlock_places x (kv0 :: cur))
        as (Hoff3 & Hpd3 & _ & _); try assumption.
      { discriminate. }
      assert (Hb : blocks_of opts kvs = (cuts opts kvs).1 ++ [kv0 :: cur]).
      { unfold blocks_of. rewrite Hcur. reflexivity. }
      assert (Hz : Length (pendingDataIndex x) = 0).
      { destruct (Z.eq_dec (Length (pendingDataIndex x)) 0) as [Hz|Hnz]; [exact Hz|].
        apply Hp in Hnz as [Hnil _]. discriminate. }
      split_and!; try assumption.
      + rewrite Hi3. reflexivity.
      + split; [intros _ | intros _; exact Hp3].
        intros ->. unfold cuts in Hcur. simpl in Hcur. discriminate.
      + rewrite Hw3, Hw, Hb, map_app, concat_app. simpl.
        rewrite <- app_assoc. reflexivity.
      + rewrite Hoff3, Hoff, Hb, wrap64_add_l, blocks_size_snoc. reflexivity.
      + unfold indexed in *. rewrite Hz in Hidx. simpl in Hidx.
        destruct (Z.eqb_spec (Length (pendingDataIndex (Writer_flushDataBlock x).1)) 0)
          as [Hz3|_]; [contradiction|].
        exists (cuts opts kvs).1, (kv0 :: cur).
        split_and!; [exact Hb | rewrite Hi3; exact Hidx | rewrite Hpd3, Hoff; reflexivity]. }
  destruct (Writer_flushDataBlock x) as [x1 e1]. simpl in H1.
  destruct H1 as (-> & He1 & Ho1 & Hf1 & Hl1 & Hi1 & Hp1 & Hw1 & Hoff1 & Hidx1).
  destruct (Writer_writeMetaIndexBlock_places x1 Hf1)
    as (meta & Hr2 & He2 & Ho2 & Hf2 & Hl2 & Hi2 & Hp2 & Hw2 & Hoff2).
  assert (Hidx2 : indexed (blocks_of opts kvs) (Writer_writeMetaIndexBlock x1 DataBlock).1).
  { unfold indexed in *. rewrite Hi2, Hp2. exact Hidx1. }
  destruct (Writer_writeMetaIndexBlock x1 DataBlock) as [x2 [h2 e2]]. simpl in *.
  subst e2.
  pose proof (indexed_flush _ (set_footer x2 {| MetaIndexHandle := h2;
                                               DataIndexHandle := DataIndexHandle (footer x2) |})
                [] Hidx2) as Hval3.
  destruct (Writer_flushPendingDataIndex_fields
              (set_footer x2 {| MetaIndexHandle := h2;
                                DataIndexHandle := DataIndexHandle (footer x2) |}) [])
    as (Hw3' & He3' & Ho3' & Hoff3' & _ & _ & Hft3 & _ & _).
  set (x3 := Writer_flushPendingDataIndex _ _) in *.
  assert (H3 : faults (w x3) = [] /\ options x3 = opts /\ err x3 = None /\
               written (w x3) = written (w x2) /\ offset x3 = offset x2 /\
               map fst (entries (dataIndexBlock x3)) =
                 separators (Comparator opts) (blocks_of opts kvs)).
  { rewrite Hw3', He3', Ho3', Hoff3'. simpl.
    split_and!; try assumption; try congruence.
    subst x3. unfold Writer_flushPendingDataIndex. simpl. rewrite Hp2.
    destruct (Z.eqb_spec (Length (pendingDataIndex x1)) 0) as [Hz|Hnz]; simpl.
    - rewrite Hi2, Hi1, Hi.
      assert (kvs = []) as ->.
      { destruct kvs; [reflexivity|]. exfalso. apply (proj2 Hp1); [discriminate | exact Hz]. }
      reflexivity.
    - rewrite map_app, Hi2, Hi1, Hi, Hl2, Hl1, Hl, Ho2, Ho1. simpl.
      unfold separators.
      pose proof (blocks_of_nonempty kvs (proj1 Hp1 Hnz)) as Hne.
      destruct (last (blocks_of opts kvs)) as [bl|] eqn:Hlast; [reflexivity|].
      apply last_None in Hlast. congruence. }
  destruct H3 as (Hf3 & Ho3 & He3 & Hw3 & Hoff3 & Hi3).
  unfold Writer_writeBlock. simpl.
  destruct (block_contents (options x3) (dataIndexBlock x3)) as [d c] eqn:Hbc.
  rewrite Writer_writeRawBlock_ok by exact Hf3. simpl.
  unfold Sink_Write. simpl.
  exists (dataIndexBlock x3), meta.
  rewrite Ho3 in Hbc. rewrite Hbc. simpl.
  split_and!; [exact He3 | exact Hi3 | exact Hval3 | | |].
  - rewrite Hw3, Hw2, Hw1, <- !app_assoc. reflexivity.
  - rewrite Hoff3, Hoff2, Hoff1, wrap64_add_l. reflexivity.
  - rewrite Hoff3, Hoff2, Hoff1, total_length_three.
    generalize (Footer_Encode
                  {| MetaIndexHandle := MetaIndexHandle (footer x3);
                     DataIndexHandle :=
                       {| Offset := wrap64 (wrap64 (blocks_size (blocks_of opts kvs)) +
                                            total_length meta);
                          Length := Z.of_nat (length d) |} |}).
    intros fb. same_wrapped_sum.
Qed.

Lemma blocks_size_nonneg (blks : list (list (bytes * bytes))) : 0 <= blocks_size blks.
Proof. apply total_length_nonneg. Qed.

(** Reading at a handle of consecutive blocks gives the block back. *)
Lemma handles_locate (rest : bytes) (blks : list (list (bytes * bytes))) :
  forall (pre : bytes) (off : Z),
    off = Z.of_nat (length pre) ->
    off + blocks_size blks < 2 ^ 63 ->
    Forall2 (fun blk h =>
               read_at (pre ++ concat (concat (map block_writes blks)) ++ rest)
                       (Offset h) (Length h) = block_bytes blk)
            blks (handles off blks).
Proof.
  induction blks as [|blk blks IH]; intros pre off Hoff Hfit; [constructor|].
  rewrite blocks_size_cons in Hfit.
  pose proof (blocks_size_nonneg blks) as Hn.
  assert (Hb : 0 <= block_size blk) by apply total_length_nonneg.
  assert (Hcat : concat (concat (map block_writes (blk :: blks))) =
                 concat (block_writes blk) ++ concat (concat (map block_writes blks))).
  { change (concat (map block_writes (blk :: blks)))
      with (block_writes blk ++ concat (map block_writes blks)).
    apply concat_app. }
  simpl handles. constructor.
  - unfold read_at. simpl Offset. simpl Length.
    rewrite wrap64_small by lia. rewrite Hcat.
    unfold block_writes at 1. simpl concat.
    rewrite drop_app_length' by lia.
    rewrite <- !app_assoc, Nat2Z.id. apply take_app_length.
  - specialize (IH (pre ++ concat (block_writes blk)) (off + block_size blk)).
    rewrite Hcat. rewrite <- app_assoc in IH. rewrite <- app_assoc.
    apply IH; [|lia].
    rewrite length_app. unfold block_size, total_length. lia.
Qed.

(** X7: After [Finish] on a file that takes every write, [FileSize] is the
    number of bytes written since [Reset], as an [int64]. *)
Theorem Writer_FileSize_counts_bytes (x0 : Writer) (f : Sink) (kvs : list (bytes * bytes)) :
  faults f = [] ->
  Writer_FileSize (Writer_Finish (Writer_AddAll (Writer_Reset x0 f opts) kvs)).1 =
  wrap64 (total_length
            (written (w (Writer_Finish (Writer_AddAll (Writer_Reset x0 f opts) kvs)).1))
          - total_length (written f)).
Proof.
  intros Hf.
  destruct (placed_Finish _ _ _ (fed_AddAll x0 f kvs Hf) (placed_AddAll x0 f kvs Hf))
    as (idx & meta & _ & _ & _ & Hw & _ & Hsize).
  rewrite Hsize, Hw, !total_length_app. f_equal. unfold blocks_size. lia.
Qed.

(** X8: The index of a table written to a file that takes every write and
    stays below 2^63 bytes: the index block pairs each separator with the
    encoded handle of its data block, reading the file at that handle
    gives the block's contents back, and reading it at the footer's index
    handle gives the index block. *)
Theorem Writer_index_locates_blocks (x0 : Writer) (f : Sink) (kvs : list (bytes * bytes)) :
  faults f = [] ->
  total_length (written (w (Writer_Finish (Writer_AddAll (Writer_Reset x0 f opts) kvs)).1))
    - total_length (written f) < 2 ^ 63 ->
  exists (idx : blockWriter) (table : bytes),
    (Writer_Finish (Writer_AddAll (Writer_Reset x0 f opts) kvs)).2 = None /\
    concat (written (w (Writer_Finish (Writer_AddAll (Writer_Reset x0 f opts) kvs)).1)) =
      concat (written f) ++ table /\
    map fst (entries idx) = separators (Comparator opts) (blocks_of opts kvs) /\
    map snd (entries idx) = map EncodeHandle (handles 0 (blocks_of opts kvs)) /\
    Forall2 (fun blk h => read_at table (Offset h) (Length h) = block_bytes blk)
            (blocks_of opts kvs) (handles 0 (blocks_of opts kvs)) /\
    read_at table
      (Offset (DataIndexHandle
                 (footer (Writer_Finish (Writer_AddAll (Writer_Reset x0 f opts) kvs)).1)))
      (Length (DataIndexHandle
                 (footer (Writer_Finish (Writer_AddAll (Writer_Reset x0 f opts) kvs)).1))) =
      (block_contents opts idx).1.
Proof.
  intros Hf Hfit.
  destruct (placed_Finish _ _ _ (fed_AddAll x0 f kvs Hf) (placed_AddAll x0 f kvs Hf))
    as (idx & meta & Hr & Hkeys & Hvals & Hw & Hdih & _).
  set (final := (Writer_Finish (Writer_AddAll (Writer_Reset x0 f opts) kvs)).1) in *.
  set (tail := [(block_contents opts idx).1;
                block_trailer (block_contents opts idx).1 (block_contents opts idx).2;
                Footer_Encode (footer final)]) in *.
  rewrite Hw, !total_length_app in Hfit.
  pose proof (total_length_nonneg meta) as Hm.
  pose proof (total_length_nonneg tail) as Ht.
  pose proof (blocks_size_nonneg (blocks_of opts kvs)) as Hb.
  fold (blocks_size (blocks_of opts kvs)) in Hfit.
  exists idx, (concat (concat (map block_writes (blocks_of opts kvs))) ++ concat (meta ++ tail)).
  split_and!; [exact Hr | | exact Hkeys | exact Hvals | |].
  - rewrite Hw, !concat_app. reflexivity.
  - apply (handles_locate (concat (meta ++ tail)) (blocks_of opts kvs) [] 0); [reflexivity | lia].
  - rewrite Hdih. unfold read_at. simpl Offset. simpl Length.
    rewrite wrap64_small by lia.
    rewrite concat_app, app_assoc, drop_app_length'.
    + subst tail. simpl concat. rewrite Nat2Z.id. apply take_app_length.
    + rewrite length_app. unfold blocks_size, total_length. lia.
Qed.

End Codec.

Lemma Writer_index_entries_deferred_witness :
  faults new_file = [] /\
  ascending plain_Comparator (map fst five_pairs) = true /\
  map fst (entries (dataIndexBlock
    (Writer_AddAll plain_Finish plain_ApproximateSize plain_Encode plain_trailer
       plain_EncodeHandle
       (Writer_Reset blank_Writer new_file plain_options) five_pairs))) =
    separators_between plain_Comparator
      (blocks_of plain_ApproximateSize plain_options five_pairs) /\
  separates plain_Comparator
    (blocks_of plain_ApproximateSize plain_options five_pairs)
    (separators plain_Comparator
       (blocks_of plain_ApproximateSize plain_options five_pairs)).
Proof.
  assert (Hne : forall blk, blk <> [] ->
            block_bytes plain_Finish plain_Encode plain_options blk <> []).
  { intros blk _ H. apply (f_equal (@length _)) in H.
    unfold block_bytes, block_contents, plain_Finish in H. simpl in H.
    rewrite length_app in H. simpl in H. lia. }
  assert (Hbetween : forall start limit,
            Compare (Comparator plain_options) start limit < 0 ->
            Compare (Comparator plain_options) start
              (AppendSuccessor (Comparator plain_options) [] start limit) <= 0 /\
            Compare (Comparator plain_options)
              (AppendSuccessor (Comparator plain_options) [] start limit) limit < 0).
  { intros start limit H. simpl in *. rewrite bytesCompare_refl. split; [lia | exact H]. }
  assert (Hopen : forall start,
            Compare (Comparator plain_options) start
              (AppendSuccessor (Comparator plain_options) [] start []) <= 0).
  { intros start. simpl. rewrite bytesCompare_refl. lia. }
  pose proof (Writer_index_entries_deferred plain_Finish plain_ApproximateSize
                plain_Encode plain_trailer plain_EncodeHandle plain_Footer_Encode
                None [] plain_options Hne Hbetween Hopen blank_Writer new_file five_pairs
                eq_refl eq_refl) as (_ & Hi & _ & _ & _ & Hsep).
  split; [reflexivity|]. split; [reflexivity|]. split; [exact Hi | exact Hsep].
Defined.

(** A file that fails its first write after three bytes. *)
Definition full_disk : Sink := {| written := []; faults := [Some (3, ErrIO "disk full")] |}.

Lemma plain_contents_nonempty (blk : list (bytes * bytes)) :
  blk <> [] -> block_bytes plain_Finish plain_Encode plain_options blk <> [].
Proof.
  intros _ H. apply (f_equal (@length _)) in H.
  unfold block_bytes, block_contents, plain_Finish in H. simpl in H.
  rewrite length_app in H. simpl in H. lia.
Qed.

Lemma Writer_error_is_sticky_witness :
  (Writer_Add plain_Finish plain_ApproximateSize plain_Encode plain_trailer plain_EncodeHandle
     (Writer_Reset blank_Writer full_disk plain_options) (b "abcd") (b "1")).2 =
    Some (ErrIO "disk full") /\
  Writer_Finish plain_Finish plain_Encode plain_trailer plain_EncodeHandle plain_Footer_Encode
    None []
    (Writer_Add plain_Finish plain_ApproximateSize plain_Encode plain_trailer plain_EncodeHandle
       (Writer_Reset blank_Writer full_disk plain_options) (b "abcd") (b "1")).1 =
    ((Writer_Add plain_Finish plain_ApproximateSize plain_Encode plain_trailer plain_EncodeHandle
        (Writer_Reset blank_Writer full_disk plain_options) (b "abcd") (b "1")).1,
     Some (ErrIO "disk full")).
Proof.
  split; [reflexivity|].
  exact (proj2 (proj2 (Writer_error_is_sticky plain_Finish plain_ApproximateSize plain_Encode
                         plain_trailer plain_EncodeHandle plain_Footer_Encode None []
                         (Writer_Reset blank_Writer full_disk plain_options)
                         (b "abcd") (b "1") (ErrIO "disk full") [] eq_refl))).
Defined.

Lemma Writer_Finish_hides_flush_error_witness :
  (Writer_Finish plain_Finish plain_Encode plain_trailer plain_EncodeHandle plain_Footer_Encode
     None []
     (Writer_Add plain_Finish plain_ApproximateSize plain_Encode plain_trailer plain_EncodeHandle
        (Writer_Reset blank_Writer full_disk plain_options) (b "a") (b "1")).1).2 = None /\
  err (Writer_Finish plain_Finish plain_Encode plain_trailer plain_EncodeHandle
         plain_Footer_Encode None []
         (Writer_Add plain_Finish plain_ApproximateSize plain_Encode plain_trailer
            plain_EncodeHandle
            (Writer_Reset blank_Writer full_disk plain_options) (b "a") (b "1")).1).1 =
    Some (ErrIO "disk full").
Proof.
  destruct (Writer_Finish_hides_flush_error plain_Finish plain_Encode plain_trailer
              plain_EncodeHandle plain_Footer_Encode None []
              (Writer_Add plain_Finish plain_ApproximateSize plain_Encode plain_trailer
                 plain_EncodeHandle
                 (Writer_Reset blank_Writer full_disk plain_options) (b "a") (b "1")).1
              (ErrIO "disk full") eq_refl eq_refl) as (H1 & _ & H3 & _).
  exact (conj H1 H3).
Defined.

Lemma Writer_Empty_and_LastKey_witness :
  Writer_Empty
    (Writer_AddAll plain_Finish plain_ApproximateSize plain_Encode plain_trailer
       plain_EncodeHandle (Writer_Reset blank_Writer new_file plain_options) five_pairs) = false /\
  Writer_LastKey
    (Writer_AddAll plain_Finish plain_ApproximateSize plain_Encode plain_trailer
       plain_EncodeHandle (Writer_Reset blank_Writer new_file plain_options) five_pairs) = b "e".
Proof.
  exact (Writer_Empty_and_LastKey plain_Finish plain_ApproximateSize plain_Encode plain_trailer
           plain_EncodeHandle plain_options plain_contents_nonempty blank_Writer new_file
           five_pairs eq_refl eq_refl).
Defined.

Lemma Writer_FileSize_counts_bytes_witness :
  Writer_FileSize
    (Writer_Finish plain_Finish plain_Encode plain_trailer plain_EncodeHandle
       plain_Footer_Encode None []
       (Writer_AddAll plain_Finish plain_ApproximateSize plain_Encode plain_trailer
          plain_EncodeHandle (Writer_Reset blank_Writer new_file plain_options) five_pairs)).1 =
  138.
Proof.
  exact (Writer_FileSize_counts_bytes plain_Finish plain_ApproximateSize plain_Encode
           plain_trailer plain_EncodeHandle plain_Footer_Encode None [] plain_options
           plain_contents_nonempty blank_Writer new_file five_pairs eq_refl).
Defined.

Lemma Writer_index_locates_blocks_witness :
  exists (idx : blockWriter) (table : bytes),
    map snd (entries idx) =
      map plain_EncodeHandle
        [{| Offset := 0; Length := 8 |}; {| Offset := 13; Length := 8 |};
         {| Offset := 26; Length := 6 |}] /\
    Forall2 (fun blk h => read_at table (Offset h) (Length h) =
                          block_bytes plain_Finish plain_Encode plain_options blk)
      (blocks_of plain_ApproximateSize plain_options five_pairs)
      [{| Offset := 0; Length := 8 |}; {| Offset := 13; Length := 8 |};
       {| Offset := 26; Length := 6 |}].
Proof.
  destruct (Writer_index_locates_blocks plain_Finish plain_ApproximateSize plain_Encode
              plain_trailer plain_EncodeHandle plain_Footer_Encode None [] plain_options
              plain_contents_nonempty blank_Writer new_file five_pairs eq_refl eq_refl)
    as (idx & table & _ & _ & _ & Hvals & Hread & _).
  exists idx, table. exact (conj Hvals Hread).
Defined.

End table.

(** ** Package leveldb: the database coordinator *)

Module leveldb.

Import keys.

(** *** Collaborators that are not among the sources *)

(** [batch.Item] and [batch.Batch]: one write, and a sequence number with
    the writes it covers. *)
Record Item := { i_kind : Kind; i_key : bytes; i_value : bytes }.
Record Batch := { b_sequence : Sequence; b_items : list Item }.

Definition Batch_SetSequence (bt : Batch) (s : Sequence) : Batch :=
  {| b_sequence := s; b_items := b_items bt |}.
Definition Batch_Count (bt : Batch) : Z := Z.of_nat (length (b_items bt)).

(** One record of a memtable or of a table file. *)
Record entry := {
  e_ukey : bytes;
  e_seq : Sequence;
  e_kind : Kind;
  e_value : bytes
}.

(** Modelled from the spec: the memtable is "keyed by internal key under
    the internal-key comparator"; "each entry stores the full internal key
    plus the value bytes"; it "exposes an approximate byte usage"
    (package memtable is not among the sources). *)
Record MemTable := {
  m_cmp : Comparer;
  m_entries : list entry;
  m_usage : Z
}.

Definition MemTable_New (c : Comparer) : MemTable :=
  {| m_cmp := c; m_entries := []; m_usage := 0 |}.
Definition MemTable_Empty (m : MemTable) : bool :=
  match m_entries m with [] => true | _ => false end.
Definition MemTable_ApproximateMemoryUsage (m : MemTable) : Z := m_usage m.

(** [x] sorts before [y] in internal-key order: user key ascending, then
    packed suffix descending. *)
Definition entry_before (c : Comparer) (x y : entry) : bool :=
  let r := Compare c (e_ukey x) (e_ukey y) in
  if r <? 0 then true
  else if r =? 0 then packTag (e_seq y) (e_kind y) <? packTag (e_seq x) (e_kind x)
  else false.

Fixpoint insert_entry (c : Comparer) (x : entry) (es : list entry) : list entry :=
  match es with
  | [] => [x]
  | y :: rest => if entry_before c x y then x :: es else y :: insert_entry c x rest
  end.

Definition MemTable_Add (m : MemTable) (seq : Sequence) (it : Item) : MemTable :=
  {| m_cmp := m_cmp m;
     m_entries := insert_entry (m_cmp m)
                    {| e_ukey := i_key it; e_seq := seq; e_kind := i_kind it;
                       e_value := i_value it |} (m_entries m);
     m_usage := wrap64 (m_usage m + Z.of_nat (length (i_key it))
                        + Z.of_nat (length (i_value it)) + 8) |}.

(** [mem.Batch(seq, items)]: the items take the sequences [seq],
    [seq + 1], ... in order. *)
Fixpoint MemTable_Batch (m : MemTable) (seq : Sequence) (items : list Item) : MemTable :=
  match items with
  | [] => m
  | it :: rest => MemTable_Batch (MemTable_Add m seq it) (Sequence_Add seq 1) rest
  end.





(** A table file: its metadata and the records it holds. *)
Record Table := {
  t_meta : version.FileMeta;
  t_rows : list entry
}.

(** Modelled from the spec: a version is "a snapshot of per-level file
    sets"; a read that misses the memtables walks "each level's tables",
    level 0 first and its newest file first, and ends in NotFound
    (package version's [Version] is not among the sources). *)
Record Version := { Levels : list (list Table) }.



(** [version.Edit]: the scalars the coordinator fills in, and the file
    changes a compaction adds. *)
Record Edit := {
  ed_LogNumber : Z;
  ed_LastSequence : Sequence;
  ed_NextFileNumber : Z;
  ed_deleted : list (Z * Z);
  ed_added : list (Z * Table)
}.

(** Modelled from the spec: "The version state owns: the current
    version ..., next_file_number, last_sequence, log_number, ...,
    manifest_number" ([version.State] is not among the sources). *)
Record State := {
  st_current : Version;
  st_lastSequence : Sequence;
  st_nextFileNumber : Z;
  st_logNumber : Z;
  st_manifestNumber : Z
}.

Definition State_LastSequence (s : State) : Sequence := st_lastSequence s.
Definition State_SetLastSequence (s : State) (q : Sequence) : State :=
  {| st_current := st_current s; st_lastSequence := q;
     st_nextFileNumber := st_nextFileNumber s; st_logNumber := st_logNumber s;
     st_manifestNumber := st_manifestNumber s |}.
Definition State_Current (s : State) : Version := st_current s.
Definition State_LogFileNumber (s : State) : Z := st_logNumber s.
Definition State_ManifestFileNumber (s : State) : Z := st_manifestNumber s.
Definition State_NextFileNumber (s : State) : Z := st_nextFileNumber s.
Definition State_NewFileNumber (s : State) : State * Z :=
  ({| st_current := st_current s; st_lastSequence := st_lastSequence s;
      st_nextFileNumber := wrapU64 (st_nextFileNumber s + 1);
      st_logNumber := st_logNumber s; st_manifestNumber := st_manifestNumber s |},
   st_nextFileNumber s).
Definition State_ReuseFileNumber (s : State) (n : Z) : State :=
  if st_nextFileNumber s =? wrapU64 (n + 1) then
    {| st_current := st_current s; st_lastSequence := st_lastSequence s;
       st_nextFileNumber := n;
       st_logNumber := st_logNumber s; st_manifestNumber := st_manifestNumber s |}
  else s.
Definition State_MarkFileNumberUsed (s : State) (n : Z) : State :=
  if st_nextFileNumber s <=? n then
    {| st_current := st_current s; st_lastSequence := st_lastSequence s;
       st_nextFileNumber := wrapU64 (n + 1);
       st_logNumber := st_logNumber s; st_manifestNumber := st_manifestNumber s |}
  else s.

(** The numbers of the table files the current version refers to. *)
Definition State_liveTables (s : State) : list Z :=
  map (fun t => version.Number (t_meta t)) (concat (Levels (st_current s))).

(** A log file under the file system: the complete records it holds,
    each with the offset just after it, how reading ends after them, and
    how the file answers [Truncate] and [Seek]. *)
Record File := {
  f_number : Z;
  f_records : list (bytes * Z);
  f_tail : error;
  f_size : Z;
  f_pos : Z;
  f_closed : bool;
  f_truncate_err : option error;
  f_seek_err : option error
}.

Definition File_Truncate (f : File) (n : Z) : File :=
  match f_truncate_err f with
  | Some _ => f
  | None =>
      {| f_number := f_number f; f_records := f_records f; f_tail := f_tail f;
         f_size := n; f_pos := f_pos f; f_closed := f_closed f;
         f_truncate_err := f_truncate_err f; f_seek_err := f_seek_err f |}
  end.

Definition File_Seek (f : File) (n : Z) : File * option error :=
  match f_seek_err f with
  | Some e => (f, Some e)
  | None =>
      ({| f_number := f_number f; f_records := f_records f; f_tail := f_tail f;
          f_size := f_size f; f_pos := n; f_closed := f_closed f;
          f_truncate_err := f_truncate_err f; f_seek_err := f_seek_err f |}, None)
  end.

Definition new_log_file (n : Z) : File :=
  {| f_number := n; f_records := []; f_tail := EOF; f_size := 0; f_pos := 0;
     f_closed := false; f_truncate_err := None; f_seek_err := None |}.

(** [log.Writer]: the file it appends to and the offset it starts at. *)
Record logWriter := { lw_file : Z; lw_offset : Z }.

Record Options := {
  Comparator : Comparer;
  WriteBufferSize : Z;
  CreateIfMissing : bool;
  ErrorIfExists : bool
}.

(** Modelled from the spec: "Tuning constants. ... L0 compaction
    trigger=4, slowdown=8, stop=12" (package configs is not among the
    sources). *)
Definition L0SlowdownFiles : Z := 8.
Definition L0StopWritesFiles : Z := 12.

(** *** The database handle *)

Record DB := {
  mem : MemTable;
  imm : option MemTable;
  state : State;
  closing : bool;
  options : Options;
  log : option logWriter;
  logErr : option error;
  logFile : option File;
  logNumber : Z;
  nextLogNumber : Z;
  collectionFiles : bool;
  compactionLevel : Z;
  compactionMemory : bool;
  compactionErr : option error;
  bgGroup : Z;
  snapshots : list Sequence
}.

Definition set_mem (d : DB) (m : MemTable) : DB :=
  {| mem := m; imm := imm d; state := state d; closing := closing d;
     options := options d; log := log d; logErr := logErr d; logFile := logFile d;
     logNumber := logNumber d; nextLogNumber := nextLogNumber d;
     collectionFiles := collectionFiles d; compactionLevel := compactionLevel d;
     compactionMemory := compactionMemory d; compactionErr := compactionErr d;
     bgGroup := bgGroup d; snapshots := snapshots d |}.
Definition set_imm (d : DB) (m : option MemTable) : DB :=
  {| mem := mem d; imm := m; state := state d; closing := closing d;
     options := options d; log := log d; logErr := logErr d; logFile := logFile d;
     logNumber := logNumber d; nextLogNumber := nextLogNumber d;
     collectionFiles := collectionFiles d; compactionLevel := compactionLevel d;
     compactionMemory := compactionMemory d; compactionErr := compactionErr d;
     bgGroup := bgGroup d; snapshots := snapshots d |}.
Definition set_state (d : DB) (s : State) : DB :=
  {| mem := mem d; imm := imm d; state := s; closing := closing d;
     options := options d; log := log d; logErr := logErr d; logFile := logFile d;
     logNumber := logNumber d; nextLogNumber := nextLogNumber d;
     collectionFiles := collectionFiles d; compactionLevel := compactionLevel d;
     compactionMemory := compactionMemory d; compactionErr := compactionErr d;
     bgGroup := bgGroup d; snapshots := snapshots d |}.
Definition set_log (d : DB) (l : option logWriter) (e : option error)
    (f : option File) (n : Z) : DB :=
  {| mem := mem d; imm := imm d; state := state d; closing := closing d;
     options := options d; log := l; logErr := e; logFile := f;
     logNumber := n; nextLogNumber := nextLogNumber d;
     collectionFiles := collectionFiles d; compactionLevel := compactionLevel d;
     compactionMemory := compactionMemory d; compactionErr := compactionErr d;
     bgGroup := bgGroup d; snapshots := snapshots d |}.
Definition set_nextLogNumber (d : DB) (n : Z) : DB :=
  {| mem := mem d; imm := imm d; state := state d; closing := closing d;
     options := options d; log := log d; logErr := logErr d; logFile := logFile d;
     logNumber := logNumber d; nextLogNumber := n;
     collectionFiles := collectionFiles d; compactionLevel := compactionLevel d;
     compactionMemory := compactionMemory d; compactionErr := compactionErr d;
     bgGroup := bgGroup d; snapshots := snapshots d |}.
Definition set_collectionFiles (d : DB) (c : bool) : DB :=
  {| mem := mem d; imm := imm d; state := state d; closing := closing d;
     options := options d; log := log d; logErr := logErr d; logFile := logFile d;
     logNumber := logNumber d; nextLogNumber := nextLogNumber d;
     collectionFiles := c; compactionLevel := compactionLevel d;
     compactionMemory := compactionMemory d; compactionErr := compactionErr d;
     bgGroup := bgGroup d; snapshots := snapshots d |}.
Definition set_compactionLevel (d : DB) (l : Z) : DB :=
  {| mem := mem d; imm := imm d; state := state d; closing := closing d;
     options := options d; log := log d; logErr := logErr d; logFile := logFile d;
     logNumber := logNumber d; nextLogNumber := nextLogNumber d;
     collectionFiles := collectionFiles d; compactionLevel := l;
     compactionMemory := compactionMemory d; compactionErr := compactionErr d;
     bgGroup := bgGroup d; snapshots := snapshots d |}.
Definition set_compactionMemory (d : DB) (c : bool) : DB :=
  {| mem := mem d; imm := imm d; state := state d; closing := closing d;
     options := options d; log := log d; logErr := logErr d; logFile := logFile d;
     logNumber := logNumber d; nextLogNumber := nextLogNumber d;
     collectionFiles := collectionFiles d; compactionLevel := compactionLevel d;
     compactionMemory := c; compactionErr := compactionErr d;
     bgGroup := bgGroup d; snapshots := snapshots d |}.
Definition set_compactionErr (d : DB) (e : option error) : DB :=
  {| mem := mem d; imm := imm d; state := state d; closing := closing d;
     options := options d; log := log d; logErr := logErr d; logFile := logFile d;
     logNumber := logNumber d; nextLogNumber := nextLogNumber d;
     collectionFiles := collectionFiles d; compactionLevel := compactionLevel d;
     compactionMemory := compactionMemory d; compactionErr := e;
     bgGroup := bgGroup d; snapshots := snapshots d |}.
Definition set_bgGroup (d : DB) (n : Z) : DB :=
  {| mem := mem d; imm := imm d; state := state d; closing := closing d;
     options := options d; log := log d; logErr := logErr d; logFile := logFile d;
     logNumber := logNumber d; nextLogNumber := nextLogNumber d;
     collectionFiles := collectionFiles d; compactionLevel := compactionLevel d;
     compactionMemory := compactionMemory d; compactionErr := compactionErr d;
     bgGroup := n; snapshots := snapshots d |}.

(** *** Reads: [DB.Get] and [DB.get] *)





(** A write to [key] that a snapshot at [snap] can see. *)
Definition visible (c : Comparer) (key : bytes) (snap : Sequence) (x : entry) : bool :=
  (Compare c (e_ukey x) key =? 0) && (e_seq x <=? snap).

(** The most recent write to [key] with a sequence of at most [snap],
    wherever it stands in the list. *)
Fixpoint most_recent (c : Comparer) (key : bytes) (snap : Sequence) (es : list entry)
  : option entry :=
  match es with
  | [] => None
  | x :: rest =>
      let r := most_recent c key snap rest in
      if visible c key snap x then
        match r with
        | Some y => if e_seq x <? e_seq y then Some y else Some x
        | None => Some x
        end
      else r
  end.


(** Sequence numbers fit their 56 bits. *)
Definition in_range (es : list entry) : bool :=
  forallb (fun x => (0 <=? e_seq x) && (e_seq x <=? MaxSequence)) es.

(** *** What the coordinator exchanges with the world *)

(** The goroutines the coordinator starts. *)
Inductive job :=
| JobOpenNextLog (number : Z)
| JobCompactAndLog (level : Z) (fileNumber : Z) (edit : Edit)
| JobRemoveObsoleteFiles (logNumber manifestNumber : Z).

(** What a coordinator step does to the world outside the handle, in
    order: log appends and syncs, memtable applications, replies to the
    waiting writers, closed files, started goroutines. *)
Inductive event :=
| EvLogWrite (lw : logWriter) (record : bytes)
| EvLogSync
| EvMemApply (bt : Batch)
| EvSend (e : option error)
| EvFileClose (number : Z)
| EvGo (j : job).

(** [batch.Group]: the concatenated batch of the requests gathered so
    far, whether one of them asked for a sync, and how many writers wait
    for a reply ([Send] answers each of them). *)
Record Group := {
  g_Sync : bool;
  g_Batch : Batch;
  g_waiting : nat
}.

Definition Group_Empty (g : Group) : bool := (g_waiting g =? 0)%nat.
Definition Group_Rewind (g : Group) : Group :=
  {| g_Sync := false; g_Batch := {| b_sequence := 0; b_items := [] |}; g_waiting := 0 |}.

(** [batch.Iterate(db.mem)]: the items enter the memtable under the
    batch's sequence numbers. *)
Definition Batch_Iterate (bt : Batch) (m : MemTable) : MemTable :=
  MemTable_Batch m (b_sequence bt) (b_items bt).

(** How the log file answers one group: the result of [log.Write] and of
    [logFile.Sync]. *)
Record logIO := { io_write : option error; io_sync : option error }.

(** *** A concrete engine to run the coordinator on *)

(** A batch as bytes: sequence, count, then per item its kind, the
    length of its key, the key and, for a value, its length and bytes
    (lengths below 256 in one byte). *)
Definition plain_item (it : Item) : bytes :=
  byte_of_Z (Kind_byte (i_kind it)) :: byte_of_Z (Z.of_nat (length (i_key it))) :: i_key it ++
  match i_kind it with
  | Value => byte_of_Z (Z.of_nat (length (i_value it))) :: i_value it
  | Deletion => []
  end.

Definition plain_Bytes (bt : Batch) : bytes :=
  putLE 8 (b_sequence bt) ++ putLE 4 (Batch_Count bt) ++ flat_map plain_item (b_items bt).

Fixpoint plain_items (n : nat) (fuel : nat) (p : bytes) : option (list Item) :=
  match n with
  | O => match p with [] => Some [] | _ => None end
  | S n' =>
      match fuel, p with
      | S fuel', kb :: kl :: rest =>
          let klen := N.to_nat (Byte.to_N kl) in
          let key := take klen rest in
          let rest := drop klen rest in
          if (length key <? klen)%nat then None
          else if (Byte.to_N kb =? 1)%N then
            match rest with
            | vl :: rest =>
                let vlen := N.to_nat (Byte.to_N vl) in
                if (length (take vlen rest) <? vlen)%nat then None
                else
                  option_map (cons {| i_kind := Value; i_key := key;
                                      i_value := take vlen rest |})
                             (plain_items n' fuel' (drop vlen rest))
            | [] => None
            end
          else if (Byte.to_N kb =? 0)%N then
            option_map (cons {| i_kind := Deletion; i_key := key; i_value := [] |})
                       (plain_items n' fuel' rest)
          else None
      | _, _ => None
      end
  end.

Definition plain_Split (record : bytes) : Sequence * list Item * bool :=
  if (length record <? 12)%nat then (0, [], false)
  else
    match plain_items (Z.to_nat (getLE (take 4 (drop 8 record)))) (length record)
                      (drop 12 record) with
    | Some items => (getLE (take 8 record), items, true)
    | None => (0, [], false)
    end.

(** Applying an edit: the scalars are taken over and the added tables
    join their levels. *)
Fixpoint add_to_level (levels : list (list Table)) (level : nat) (t : Table)
  : list (list Table) :=
  match levels, level with
  | l :: rest, O => (t :: l) :: rest
  | l :: rest, S n => l :: add_to_level rest n t
  | [], _ => []
  end.

Definition plain_Apply (s : State) (edit : Edit) : State :=
  {| st_current :=
       {| Levels := fold_left (fun ls a => add_to_level ls (Z.to_nat a.1) a.2)
                              (ed_added edit) (Levels (st_current s)) |};
     st_lastSequence := ed_LastSequence edit;
     st_nextFileNumber := ed_NextFileNumber edit;
     st_logNumber := ed_LogNumber edit;
     st_manifestNumber := st_manifestNumber s |}.

(** Level 0 is picked once it holds four files. *)
Definition plain_PickCompaction (s : State) : option Z :=
  match Levels (st_current s) with
  | l0 :: _ => if (4 <=? length l0)%nat then Some 0 else None
  | [] => None
  end.

Definition plain_Options : Options :=
  {| Comparator := BytewiseComparer; WriteBufferSize := 64;
     CreateIfMissing := false; ErrorIfExists := false |}.

Definition table_numbered (n : Z) (rows : list entry) : Table :=
  {| t_meta := {| version.Number := n; version.Size := 100;
                  version.Smallest := []; version.Largest := [] |};
     t_rows := rows |}.

Definition seven_levels (l0 l1 : list Table) : Version :=
  {| Levels := [l0; l1; []; []; []; []; []] |}.

(** An open database: the log file 3 is being written, the last
    sequence is 5, the memtables and one table hold writes to "a", "b"
    and "c". *)
Definition open_db : DB :=
  {| mem := MemTable_Batch (MemTable_New BytewiseComparer) 4
              [ {| i_kind := Value; i_key := b "b"; i_value := b "v4" |};
                {| i_kind := Deletion; i_key := b "a"; i_value := [] |} ];
     imm := Some (MemTable_Batch (MemTable_New BytewiseComparer) 3
                    [ {| i_kind := Value; i_key := b "a"; i_value := b "v3" |} ]);
     state := {| st_current :=
                   seven_levels [table_numbered 2
                                   [ {| e_ukey := b "a"; e_seq := 1; e_kind := Value;
                                        e_value := b "v1" |};
                                     {| e_ukey := b "c"; e_seq := 2; e_kind := Value;
                                        e_value := b "v2" |} ]] [];
                 st_lastSequence := 5; st_nextFileNumber := 7;
                 st_logNumber := 3; st_manifestNumber := 1 |};
     closing := false; options := plain_Options;
     log := Some {| lw_file := 3; lw_offset := 0 |}; logErr := None;
     logFile := Some (new_log_file 3); logNumber := 3; nextLogNumber := 0;
     collectionFiles := false; compactionLevel := -1; compactionMemory := false;
     compactionErr := None; bgGroup := 0; snapshots := [] |}.

(** One writer waiting with a single put, no sync asked. *)
Definition one_put (key value : string) : Group :=
  {| g_Sync := false;
     g_Batch := {| b_sequence := 0;
                   b_items := [ {| i_kind := Value; i_key := b key; i_value := b value |} ] |};
     g_waiting := 1 |}.

Definition io_ok : logIO := {| io_write := None; io_sync := None |}.
Definition io_fails : logIO := {| io_write := Some (ErrIO "disk full"); io_sync := None |}.

(** *** The write path *)

Section Engine.

(** What the coordinator leaves to packages that are not among the
    sources: the bytes of a batch and their parsing ([batch.Batch]),
    applying an edit to the version state and picking a level to compact
    ([version.State]). *)
Variable Batch_Bytes : Batch -> bytes.
Variable Batch_Split : bytes -> Sequence * list Item * bool.
Variable State_Apply : State -> Edit -> State.
Variable State_PickCompaction : State -> option Z.

Definition DB_getSmallestSnapshot (d : DB) : Sequence :=
  match snapshots d with
  | [] => State_LastSequence (state d)
  | oldest :: _ => oldest
  end.

Definition DB_tryMemoryCompaction (d : DB) : DB * list event :=
  match imm d with
  | None => (d, [])
  | Some _ =>
      if collectionFiles d || closing d then (d, [])
      else
        let d := set_compactionMemory d true in
        let '(s, fileNumber) := State_NewFileNumber (state d) in
        let d := set_state d s in
        let edit := {| ed_LogNumber := logNumber d;
                       ed_LastSequence := State_LastSequence s;
                       ed_NextFileNumber := State_NextFileNumber s;
                       ed_deleted := []; ed_added := [] |} in
        (set_bgGroup d (bgGroup d + 1), [EvGo (JobCompactAndLog (-1) fileNumber edit)])
  end.

Definition DB_tryLevelCompaction (d : DB) : DB * list event :=
  if collectionFiles d || (0 <=? compactionLevel d) || closing d then (d, [])
  else
    match State_PickCompaction (state d) with
    | None => (d, [])
    | Some level =>
        let d := set_compactionLevel d level in
        let edit := {| ed_LogNumber := logNumber d;
                       ed_LastSequence := State_LastSequence (state d);
                       ed_NextFileNumber := State_NextFileNumber (state d);
                       ed_deleted := []; ed_added := [] |} in
        (set_bgGroup d (bgGroup d + 1), [EvGo (JobCompactAndLog level 0 edit)])
    end.

Definition DB_tryRemoveObsoleteFiles (d : DB) : DB * list event :=
  if (0 <=? compactionLevel d) || compactionMemory d then (d, [])
  else
    let d := set_collectionFiles d true in
    (set_bgGroup d (bgGroup d + 1),
     [EvGo (JobRemoveObsoleteFiles (State_LogFileNumber (state d))
                                   (State_ManifestFileNumber (state d)))]).

Definition DB_tryOpenNextLog (d : DB) : DB * list event :=
  match imm d with
  | None =>
      if nextLogNumber d =? 0 then
        let '(s, n) := State_NewFileNumber (state d) in
        let d := set_nextLogNumber (set_state d s) n in
        (set_bgGroup d (bgGroup d + 1), [EvGo (JobOpenNextLog n)])
      else (d, [])
  | Some _ => (d, [])
  end.

Definition DB_openLog (d : DB) (f : File) (number : Z) : DB * list event :=
  let closed := match logFile d with Some old => [EvFileClose (f_number old)] | None => [] end in
  let d := set_log d (Some {| lw_file := f_number f; lw_offset := 0 |}) None (Some f) number in
  if negb (MemTable_Empty (mem d)) then
    let d := set_imm d (Some (mem d)) in
    let d := set_mem d (MemTable_New (Comparator (options d))) in
    let '(d, evs) := DB_tryMemoryCompaction d in
    (d, closed ++ evs)
  else (d, closed).

Definition DB_closeLog (d : DB) (e : option error) : DB * list event :=
  (set_log d None e None 0,
   match logFile d with Some f => [EvFileClose (f_number f)] | None => [] end).

Definition DB_writeLog (lw : logWriter) (sync : bool) (record : bytes) (io : logIO)
  : option error * list event :=
  match io_write io with
  | None => if sync then (io_sync io, [EvLogWrite lw record; EvLogSync])
            else (None, [EvLogWrite lw record])
  | Some e => (Some e, [EvLogWrite lw record])
  end.

Definition Second : Z := 1000000000.
Definition Millisecond : Z := 1000000.

(** [len(db.state.Current().Levels[0])]. *)
Definition level0NumFiles (d : DB) : Z :=
  Z.of_nat (length (match Levels (State_Current (state d)) with
                    | l0 :: _ => l0
                    | [] => []
                    end)).

(** [bufSize + bufSize/4] on Go's [int]. *)
Definition pause_threshold (bufSize : Z) : Z := wrap64 (bufSize + Z.quot bufSize 4).

(** [throttle]: the timer to wait for, if any, and whether to pause. *)
Definition DB_throttle (d : DB) : DB * (option Z * bool) * list event :=
  let bufSize := WriteBufferSize (options d) in
  let bufUsage := MemTable_ApproximateMemoryUsage (mem d) in
  let level0NumFiles := level0NumFiles d in
  match log d with
  | None => (d, (None, false), [])
  | Some _ =>
      match compactionErr d with
      | Some _ => (d, (None, false), [])
      | None =>
          if bufUsage <=? bufSize then (d, (None, false), [])
          else if L0StopWritesFiles <=? level0NumFiles then (d, (None, true), [])
          else
            let '(d, evs) := DB_tryOpenNextLog d in
            if pause_threshold bufSize <=? bufUsage then (d, (None, true), evs)
            else if L0SlowdownFiles <=? level0NumFiles then (d, (Some Millisecond, false), evs)
            else (d, (None, false), evs)
      end
  end.

Definition DB_writeBatchGroup (d : DB) (writes : Group) (io : logIO)
  : DB * Group * list event :=
  if Group_Empty writes then (d, writes, [])
  else
    match log d with
    | None => (d, Group_Rewind writes, [EvSend (logErr d)])
    | Some lw =>
        match compactionErr d with
        | Some e => (d, Group_Rewind writes, [EvSend (Some e)])
        | None =>
            let lastSequence := State_LastSequence (state d) in
            let batch := Batch_SetSequence (g_Batch writes) (wrapU64 (lastSequence + 1)) in
            let d := set_state d
                       (State_SetLastSequence (state d)
                          (Sequence_Add lastSequence (wrapU64 (Batch_Count batch)))) in
            let '(e, evs) := DB_writeLog lw (g_Sync writes) (Batch_Bytes batch) io in
            match e with
            | Some _ =>
                let '(d, closed) := DB_closeLog d e in
                (d, Group_Rewind writes, evs ++ [EvSend e] ++ closed)
            | None =>
                let d := set_mem d (Batch_Iterate batch (mem d)) in
                (d, Group_Rewind writes, evs ++ [EvMemApply batch; EvSend None])
            end
        end
    end.

Definition throttle_timer (d : DB) : option Z := (DB_throttle d).1.2.1.
Definition throttle_pause (d : DB) : bool := (DB_throttle d).1.2.2.

(** [compactionResult], as the background job sends it. *)
Record compactionResult := {
  cr_level : Z;
  cr_err : option error;
  cr_edit : option Edit;
  cr_aborted : bool
}.

Definition DB_completeCompaction (d : DB) (r : compactionResult) : DB * list event :=
  let finished := match cr_err r with None => true | Some _ => cr_aborted r end in
  let d := if finished then
             (if cr_level r =? -1 then set_compactionMemory d false
              else set_compactionLevel d (-1))
           else d in
  let done (d : DB) := if finished then set_bgGroup d (bgGroup d - 1) else d in
  let d := set_compactionErr d (cr_err r) in
  match cr_err r with
  | Some _ => (done d, [])
  | None =>
      let d := if cr_level r =? -1 then set_imm d None else d in
      let d := match cr_edit r with
               | Some edit => set_state d (State_Apply (state d) edit)
               | None => d
               end in
      let '(d, evs1) := DB_tryLevelCompaction d in
      let '(d, evs2) := DB_tryRemoveObsoleteFiles d in
      (done d, evs1 ++ evs2)
  end.

Definition DB_completeCollectionFiles (d : DB) : DB * list event :=
  let d := set_collectionFiles d false in
  let '(d, evs1) := DB_tryMemoryCompaction d in
  let '(d, evs2) := DB_tryLevelCompaction d in
  (d, evs1 ++ evs2).

(** What the serving routine does between two waits: the throttle at the
    top of its loop, a gathered group written, a pre-opened log file
    arriving, a collection or a compaction reporting back. *)
Inductive action :=
| ActThrottle
| ActWrite (writes : Group) (io : logIO)
| ActNextLogFile (f : option File)
| ActCollectionDone
| ActCompactionResult (r : compactionResult).

Definition DB_serve_action (d : DB) (a : action) : DB * list event :=
  match a with
  | ActThrottle => let '(d, _, evs) := DB_throttle d in (d, evs)
  | ActWrite writes io => let '(d, _, evs) := DB_writeBatchGroup d writes io in (d, evs)
  | ActNextLogFile f =>
      let d := set_bgGroup d (bgGroup d - 1) in
      match f with
      | None => (d, [])
      | Some f =>
          let '(d, evs) := DB_openLog d f (nextLogNumber d) in
          (set_nextLogNumber d 0, evs)
      end
  | ActCollectionDone => DB_completeCollectionFiles d
  | ActCompactionResult r => DB_completeCompaction d r
  end.

Fixpoint DB_serve (d : DB) (acts : list action) : DB * list (list event) :=
  match acts with
  | [] => (d, [])
  | a :: rest =>
      let '(d, evs) := DB_serve_action d a in
      let '(d, more) := DB_serve d rest in
      (d, evs :: more)
  end.

(** *** Background compaction with retries *)

(** What one turn of the retry loop meets: the result of [c.Compact]
    (asked only until it has succeeded once), the result of
    [db.state.Log], and whether the close signal is ready before the
    timer. *)
Record attempt := {
  a_compact : option error;
  a_log : option error;
  a_closing : bool
}.

Inductive bgEvent :=
| BgResult (r : compactionResult)
| BgSleep (timeout : Z)
| BgRemoveTableFiles.

(** [timeout += timeout/2 + time.Second] on a [time.Duration]. *)
Definition next_timeout (timeout : Z) : Z :=
  wrap64 (timeout + wrap64 (Z.quot timeout 2 + Second)).

(** The loop of [compactAndLog]; the flag tells whether the function
    returned ([false]: the attempts listed all ended in the timer and the
    loop goes on). *)
Fixpoint compactAndLog_loop (level : Z) (edit : Edit) (env : list attempt)
    (compacted : bool) (timeout : Z) : list bgEvent * bool :=
  match env with
  | [] => ([], false)
  | a :: rest =>
      let '(compacted, timeout, outcome) :=
        if compacted then (true, timeout, a_log a)
        else
          match a_compact a with
          | Some e => (false, timeout, Some e)
          | None => (true, 0, a_log a)
          end in
      match outcome with
      | None =>
          ([BgResult {| cr_level := level; cr_err := None; cr_edit := Some edit;
                        cr_aborted := false |}], true)
      | Some e =>
          let failed := BgResult {| cr_level := level; cr_err := Some e; cr_edit := None;
                                    cr_aborted := false |} in
          let timeout := next_timeout timeout in
          if a_closing a then
            ([failed; BgRemoveTableFiles;
              BgResult {| cr_level := level; cr_err := Some e; cr_edit := None;
                          cr_aborted := true |}], true)
          else
            let '(evs, returned) := compactAndLog_loop level edit rest compacted timeout in
            (failed :: BgSleep timeout :: evs, returned)
      end
  end.

Definition DB_compactAndLog (level : Z) (edit : Edit) (env : list attempt)
  : list bgEvent * bool :=
  compactAndLog_loop level edit env false 0.

(** The timers of consecutive failed turns, from a timeout of zero. *)
Fixpoint backoff (n : nat) : Z :=
  match n with
  | O => 0
  | S n' => next_timeout (backoff n')
  end.

(** A turn in which compaction succeeds (or has succeeded) and the
    manifest log fails with [e], the close signal not being ready. *)
Definition log_failure (e : error) : attempt :=
  {| a_compact := None; a_log := Some e; a_closing := false |}.

Definition failure_events (level : Z) (e : error) (from n : nat) : list bgEvent :=
  flat_map (fun k => [BgResult {| cr_level := level; cr_err := Some e; cr_edit := None;
                                  cr_aborted := false |};
                      BgSleep (backoff k)]) (seq from n).

(** The error [writeLog] returns for a group. *)
Definition logIO_result (sync : bool) (io : logIO) : option error :=
  match io_write io with
  | Some e => Some e
  | None => if sync then io_sync io else None
  end.

(** An action that does not install a new log file. *)
Definition no_new_log (a : action) : bool :=
  match a with
  | ActNextLogFile (Some _) => false
  | _ => true
  end.

(** The action, if it writes a non-empty group, replies [e] and does
    nothing else. *)
Definition answered_with (e : error) (a : action) (evs : list event) : Prop :=
  match a with
  | ActWrite writes _ => Group_Empty writes = false -> evs = [EvSend (Some e)]
  | _ => True
  end.

(** The timers among the events of a compaction job. *)
Fixpoint sleeps (evs : list bgEvent) : list Z :=
  match evs with
  | [] => []
  | BgSleep t :: rest => t :: sleeps rest
  | _ :: rest => sleeps rest
  end.

(** *** Recovery *)

(** Modelled from the spec: the file names of a database directory,
    "CURRENT", "LOCK", "LOG", "LOG.old", "NNNNNN.log", "NNNNNN.ldb (also
    recognized: .sst)", "MANIFEST-NNNNNN", "NNNNNN.dbtmp" (package files
    is not among the sources). *)
Inductive FileKind :=
| KindInvalid
| KindLock
| KindCurrent
| KindInfoLog
| KindTemp
| KindLog
| KindTable
| KindSSTTable
| KindManifest.

Fixpoint parse_number (name : string) (acc : Z) (seen : bool) : option (Z * string) :=
  match name with
  | EmptyString => if seen then Some (acc, EmptyString) else None
  | String ch rest =>
      let n := Z.of_nat (Ascii.nat_of_ascii ch) in
      if (48 <=? n) && (n <=? 57) then parse_number rest (acc * 10 + (n - 48)) true
      else if seen then Some (acc, name) else None
  end.

Definition files_Parse (name : string) : FileKind * Z :=
  if String.eqb name "CURRENT" then (KindCurrent, 0)
  else if String.eqb name "LOCK" then (KindLock, 0)
  else if String.eqb name "LOG" || String.eqb name "LOG.old" then (KindInfoLog, 0)
  else if String.prefix "MANIFEST-" name then
    match parse_number (String.substring 9 (String.length name - 9) name) 0 false with
    | Some (n, EmptyString) => (KindManifest, n)
    | _ => (KindInvalid, 0)
    end
  else
    match parse_number name 0 false with
    | Some (n, suffix) =>
        if String.eqb suffix ".log" then (KindLog, n)
        else if String.eqb suffix ".ldb" then (KindTable, n)
        else if String.eqb suffix ".sst" then (KindSSTTable, n)
        else if String.eqb suffix ".dbtmp" then (KindTemp, n)
        else (KindInvalid, 0)
    | None => (KindInvalid, 0)
    end.

(** The file system under a database directory, as recovery meets it:
    whether the lock can be taken, whether CURRENT exists, the listing
    (or the error of [List]), the log files by number, whether a new log
    file can be created, and how a memtable flush ends. *)
Record FileSystem := {
  fs_lock_err : option error;
  fs_current_exists : bool;
  fs_list_err : option error;
  fs_names : list string;
  fs_logs : gmap Z File;
  fs_create_err : option error;
  fs_compact_err : option error
}.

(** What [loadLog] returns and leaves behind: the file, offset and
    error it returns, the memtable and the maximal sequence it was given
    pointers to, and the files it closed. *)
Record loaded := {
  ld_file : option File;
  ld_offset : Z;
  ld_err : option error;
  ld_mem : MemTable;
  ld_maxSequence : Sequence;
  ld_events : list event
}.

(** The loop of [loadLog] over the records the reader returns;
    [offset] is [r.Offset()], the end of the last record read. *)
Fixpoint loadLog_records (f : File) (records : list (bytes * Z)) (offset : Z)
    (m : MemTable) (maxSequence : Sequence) : loaded :=
  match records with
  | [] =>
      match f_tail f with
      | EOF =>
          {| ld_file := Some f; ld_offset := offset; ld_err := None;
             ld_mem := m; ld_maxSequence := maxSequence; ld_events := [] |}
      | ErrIncompleteRecord =>
          let '(f', e) := File_Seek (File_Truncate f offset) offset in
          {| ld_file := Some f'; ld_offset := offset; ld_err := e;
             ld_mem := m; ld_maxSequence := maxSequence; ld_events := [] |}
      | e =>
          {| ld_file := None; ld_offset := 0; ld_err := Some e;
             ld_mem := m; ld_maxSequence := maxSequence;
             ld_events := [EvFileClose (f_number f)] |}
      end
  | (record, next) :: rest =>
      let '(seq, items, ok) := Batch_Split record in
      if negb ok || (length items =? 0)%nat then
        {| ld_file := None; ld_offset := 0; ld_err := Some ErrCorruptWriteBatch;
           ld_mem := m; ld_maxSequence := maxSequence;
           ld_events := [EvFileClose (f_number f)] |}
      else
        let m := MemTable_Batch m seq items in
        let lastSequence := Sequence_Add seq (wrapU64 (Z.of_nat (length items) - 1)) in
        let maxSequence := if maxSequence <? lastSequence then lastSequence else maxSequence in
        loadLog_records f rest next m maxSequence
  end.

Definition DB_loadLog (fs : FileSystem) (m : MemTable) (logNumber : Z)
    (maxSequence : Sequence) : loaded :=
  match fs_logs fs !! logNumber with
  | None =>
      {| ld_file := None; ld_offset := 0; ld_err := Some (ErrIO "open");
         ld_mem := m; ld_maxSequence := maxSequence; ld_events := [] |}
  | Some f => loadLog_records f (f_records f) 0 m maxSequence
  end.

Definition DB_newLogFile (d : DB) (fs : FileSystem) : DB * option (File * Z) * option error :=
  let '(s, logNumber) := State_NewFileNumber (state d) in
  let d := set_state d s in
  match fs_create_err fs with
  | Some e => (set_state d (State_ReuseFileNumber s logNumber), None, Some e)
  | None => (d, Some (new_log_file logNumber, logNumber), None)
  end.

(** The loop of [recoverLogs] over all logs but the last, into [mem0]. *)
Fixpoint load_earlier_logs (fs : FileSystem) (logs : list Z) (mem0 : MemTable)
    (maxSequence : Sequence) : MemTable * Sequence * option error * list event :=
  match logs with
  | [] => (mem0, maxSequence, None, [])
  | logNumber :: rest =>
      let r := DB_loadLog fs mem0 logNumber maxSequence in
      match ld_err r with
      | Some e => (ld_mem r, ld_maxSequence r, Some e, ld_events r)
      | None =>
          let closed := match ld_file r with
                        | Some f => [EvFileClose (f_number f)]
                        | None => []
                        end in
          let '(m, q, e, evs) := load_earlier_logs fs rest (ld_mem r) (ld_maxSequence r) in
          (m, q, e, ld_events r ++ closed ++ evs)
      end
  end.

Definition DB_recoverLogs (d : DB) (fs : FileSystem) (logs : list Z)
  : DB * option error * list event :=
  let n := length logs in
  match logs with
  | [] =>
      let '(d, created, e) := DB_newLogFile d fs in
      match created with
      | None => (d, e, [])
      | Some (f, logNumber) =>
          let d := set_mem d (MemTable_New (Comparator (options d))) in
          (set_log d (Some {| lw_file := f_number f; lw_offset := 0 |}) (logErr d)
                   (Some f) logNumber, None, [])
      end
  | _ :: _ =>
      let maxSequence := State_LastSequence (state d) in
      let logs := if (n =? 1)%nat then logs else merge_sort Z.le logs in
      let '(mem0, maxSequence, e, evs0) :=
        if (n =? 1)%nat then (None, maxSequence, None, [])
        else
          let '(m, q, e, evs) :=
            load_earlier_logs fs (take (n - 1) logs)
              (MemTable_New (Comparator (options d))) maxSequence in
          (Some m, q, e, evs) in
      match e with
      | Some _ => (d, e, evs0)
      | None =>
          let logNumber := default 0 (last logs) in
          let r := DB_loadLog fs (MemTable_New (Comparator (options d))) logNumber maxSequence in
          match ld_err r, ld_file r with
          | Some _, _ | None, None => (d, ld_err r, evs0 ++ ld_events r)
          | None, Some f =>
              let maxSequence := ld_maxSequence r in
              let d := set_mem d (ld_mem r) in
              let d := set_log d (Some {| lw_file := f_number f; lw_offset := ld_offset r |})
                               (logErr d) (Some f) logNumber in
              let d := set_state d (State_SetLastSequence (state d) maxSequence) in
              let d := set_state d (State_MarkFileNumberUsed (state d) logNumber) in
              match mem0 with
              | None => (d, None, evs0 ++ ld_events r)
              | Some m0 =>
                  let '(s, fileNumber) := State_NewFileNumber (state d) in
                  let d := set_state d s in
                  let edit := {| ed_LogNumber := logNumber; ed_LastSequence := maxSequence;
                                 ed_NextFileNumber := State_NextFileNumber s;
                                 ed_deleted := []; ed_added := [] |} in
                  match fs_compact_err fs with
                  | Some e => (d, Some e, evs0 ++ ld_events r)
                  | None => (set_state d (State_Apply (state d) edit), None,
                             evs0 ++ ld_events r)
                  end
              end
          end
      end
  end.

Definition DB_tryStartBackground (d : DB) : DB * list event :=
  let '(d, evs1) := DB_tryMemoryCompaction d in
  let '(d, evs2) := DB_tryLevelCompaction d in
  let '(d, evs3) := DB_tryRemoveObsoleteFiles d in
  (d, evs1 ++ evs2 ++ evs3).

(** [initDB] on the zero value of [DB]. *)
Definition initDB (s : State) (opts : Options) : DB :=
  {| mem := MemTable_New (Comparator opts); imm := None; state := s; closing := false;
     options := opts; log := None; logErr := None; logFile := None; logNumber := 0;
     nextLogNumber := 0; collectionFiles := false; compactionLevel := -1;
     compactionMemory := false; compactionErr := None; bgGroup := 0; snapshots := [] |}.

(** The scan of the directory listing in [recoverDB]: a table file
    found is deleted from [tables], a log file at or after the state's log
    number is appended to [logs]. *)
Definition scan_name (logNumber : Z) (acc : gset Z * list Z) (name : string)
  : gset Z * list Z :=
  let '(kind, number) := files_Parse name in
  match kind with
  | KindTable => (acc.1 ∖ {[ number ]}, acc.2)
  | KindLog => if logNumber <=? number then (acc.1, acc.2 ++ [number]) else acc
  | _ => acc
  end.

(** [recoverDB]: [recovered] is what [version.Recover] returned.  The
    map [tables] starts out empty, as [make] leaves it. *)
Definition recoverDB (recovered : State + error) (fs : FileSystem) (opts : Options)
  : (DB + error) * list event :=
  match recovered with
  | inr e => (inr e, [])
  | inl s =>
      match fs_list_err fs with
      | Some e => (inr e, [])
      | None =>
          let logNumber := State_LogFileNumber s in
          let '(tables, logs) := fold_left (scan_name logNumber) (fs_names fs) (∅, []) in
          if negb (size tables =? 0)%nat then (inr (ErrMissingTables (elements tables)), [])
          else
            let d := initDB s opts in
            let '(d, e, evs) := DB_recoverLogs d fs logs in
            match e with
            | Some e =>
                let '(_, closed) := DB_closeLog d None in
                (inr e, evs ++ closed)
            | None =>
                let '(d, started) := DB_tryStartBackground d in
                (inl d, evs ++ started)
            end
      end
  end.

(** [Open] on a directory whose CURRENT file exists goes to [recoverDB]. *)
Definition Open (recovered : State + error) (fs : FileSystem) (opts : Options)
  : (DB + error) * list event :=
  match fs_lock_err fs with
  | Some e => (inr e, [])
  | None =>
      if fs_current_exists fs then
        if ErrorIfExists opts then (inr ErrDBExists, [])
        else recoverDB recovered fs opts
      else if negb (CreateIfMissing opts) then (inr ErrDBMissing, [])
      else
        (* createDB: a fresh state from [version.Create] and a new log file *)
        match recovered with
        | inr e => (inr e, [])
        | inl s =>
            let '(s, logNumber) := State_NewFileNumber s in
            match fs_create_err fs with
            | Some _ => (inr (ErrIO "leveldb: fail to create log file"), [])
            | None =>
                let d := initDB s opts in
                (inl (set_log d (Some {| lw_file := logNumber; lw_offset := 0 |}) None
                              (Some (new_log_file logNumber)) logNumber), [])
            end
        end
  end.

(** Whether a file name is that of table [n]. *)
Definition names_table (n : Z) (name : string) : bool :=
  match files_Parse name with
  | (KindTable, m) => m =? n
  | _ => false
  end.

(** Whether the result of [Open] is the missing-tables error. *)
Definition is_missing_tables (r : DB + error) : bool :=
  match r with
  | inr (ErrMissingTables _) => true
  | _ => false
  end.

(** A record that [batch.Split] accepts and that holds an item. *)
Definition well_formed (record : bytes) : bool :=
  let '(_, items, ok) := Batch_Split record in
  ok && negb (length items =? 0)%nat.

(** The memtable after one more record of the log. *)
Definition replay (m : MemTable) (record : bytes) : MemTable :=
  let '(seq, items, _) := Batch_Split record in
  MemTable_Batch m seq items.

(** The offset after the last complete record. *)
Definition end_offset (records : list (bytes * Z)) (start : Z) : Z :=
  match last records with
  | Some r => r.2
  | None => start
  end.

(** *** Reads return the most recent visible write *)

Section Reads.

Variable c : Comparer.

(** User keys that compare equal to one key compare equal to each other. *)
Hypothesis Compare_eq_trans :
  forall x y k, Compare c x k = 0 -> Compare c y k = 0 -> Compare c y x = 0.







(** [most_recent] is what its name says: a visible write of the list
    that no visible write of the list is newer than; and it finds one
    whenever there is one. *)
Lemma most_recent_newest (key : bytes) (snap : Sequence) (es : list entry) :
  match most_recent c key snap es with
  | Some y => In y es /\ visible c key snap y = true /\
              forall x, In x es -> visible c key snap x = true -> e_seq x <= e_seq y
  | None => forall x, In x es -> visible c key snap x = false
  end.
Proof.
  induction es as [|x es IH]; [intros x []|].
  simpl. destruct (visible c key snap x) eqn:Hv.
  - destruct (most_recent c key snap es) as [z|].
    + destruct IH as (Hin & Hvz & Hmax).
      destruct (Z.ltb_spec (e_seq x) (e_seq z)).
      * split; [right; exact Hin|]. split; [exact Hvz|].
        intros x' [<-|Hx'] Hv'; [lia | apply Hmax; assumption].
      * split; [left; reflexivity|]. split; [exact Hv|].
        intros x' [<-|Hx'] Hv'; [lia | specialize (Hmax x' Hx' Hv'); lia].
    + split; [left; reflexivity|]. split; [exact Hv|].
      intros x' [<-|Hx'] Hv'; [lia | rewrite (IH x' Hx') in Hv'; discriminate].
  - destruct (most_recent c key snap es) as [z|].
    + destruct IH as (Hin & Hvz & Hmax).
      split; [right; exact Hin|]. split; [exact Hvz|].
      intros x' [<-|Hx'] Hv'; [congruence | apply Hmax; assumption].
    + intros x' [<-|Hx']; [exact Hv | apply IH; exact Hx'].
Qed.



(** *** The write path keeps the read order *)









(** The fields a read looks at. *)
Definition same_reads (d d' : DB) : Prop :=
  options d' = options d /\ mem d' = mem d /\ imm d' = imm d /\
  State_Current (state d') = State_Current (state d) /\
  State_LastSequence (state d') = State_LastSequence (state d).

Lemma same_reads_refl (d : DB) : same_reads d d.
Proof. unfold same_reads. auto. Qed.





Lemma DB_tryRemoveObsoleteFiles_reads (d : DB) :
  same_reads d (DB_tryRemoveObsoleteFiles d).1.
Proof.
  unfold DB_tryRemoveObsoleteFiles. destruct (_ || _); [apply same_reads_refl|].
  unfold same_reads. simpl. auto.
Qed.









End Reads.

(** *** Write groups *)

Lemma DB_writeLog_result (lw : logWriter) (sync : bool) (record : bytes) (io : logIO) :
  (DB_writeLog lw sync record io).1 = logIO_result sync io /\
  exists more, (DB_writeLog lw sync record io).2 = EvLogWrite lw record :: more /\
               (more = [] \/ more = [EvLogSync]).
Proof.
  unfold DB_writeLog, logIO_result.
  destruct (io_write io); [split; [reflexivity | eexists; split; [reflexivity | left; reflexivity]]|].
  destruct sync; (split; [reflexivity | eexists; split; [reflexivity|]]); [right | left]; reflexivity.
Qed.


(** *** A failed log append *)

Lemma DB_tryMemoryCompaction_log (d : DB) :
  log (DB_tryMemoryCompaction d).1 = log d /\ logErr (DB_tryMemoryCompaction d).1 = logErr d.
Proof.
  unfold DB_tryMemoryCompaction. destruct (imm d); [|split; reflexivity].
  destruct (_ || _); split; reflexivity.
Qed.

Lemma DB_tryLevelCompaction_log (d : DB) :
  log (DB_tryLevelCompaction d).1 = log d /\ logErr (DB_tryLevelCompaction d).1 = logErr d.
Proof.
  unfold DB_tryLevelCompaction. destruct (_ || _ || _); [split; reflexivity|].
  destruct (State_PickCompaction _); split; reflexivity.
Qed.

Lemma DB_tryRemoveObsoleteFiles_log (d : DB) :
  log (DB_tryRemoveObsoleteFiles d).1 = log d /\
  logErr (DB_tryRemoveObsoleteFiles d).1 = logErr d.
Proof. unfold DB_tryRemoveObsoleteFiles. destruct (_ || _); split; reflexivity. Qed.

Lemma DB_completeCollectionFiles_log (d : DB) :
  log (DB_completeCollectionFiles d).1 = log d /\
  logErr (DB_completeCollectionFiles d).1 = logErr d.
Proof.
  unfold DB_completeCollectionFiles.
  pose proof (DB_tryMemoryCompaction_log (set_collectionFiles d false)) as [H1 H1'].
  destruct (DB_tryMemoryCompaction _) as [d1 evs1].
  pose proof (DB_tryLevelCompaction_log d1) as [H2 H2'].
  destruct (DB_tryLevelCompaction d1) as [d2 evs2].
  simpl in *. split; congruence.
Qed.

Lemma DB_completeCompaction_log (d : DB) (r : compactionResult) :
  log (DB_completeCompaction d r).1 = log d /\
  logErr (DB_completeCompaction d r).1 = logErr d.
Proof.
  unfold DB_completeCompaction.
  destruct (cr_err r) as [e|].
  - destruct (cr_aborted r), (cr_level r =? -1); split; reflexivity.
  - set (d0 := match cr_edit r with Some _ => _ | None => _ end).
    assert (H0 : log d0 = log d /\ logErr d0 = logErr d).
    { subst d0. destruct (cr_edit r), (cr_level r =? -1); split; reflexivity. }
    pose proof (DB_tryLevelCompaction_log d0) as [H1 H1'].
    destruct (DB_tryLevelCompaction d0) as [d1 evs1].
    pose proof (DB_tryRemoveObsoleteFiles_log d1) as [H2 H2'].
    destruct (DB_tryRemoveObsoleteFiles d1) as [d2 evs2].
    simpl in *. destruct H0. split; congruence.
Qed.

(** With the log closed on [e], an action that installs no new log file
    leaves it closed on [e], and a group it writes is answered with [e]. *)
Lemma DB_serve_action_closed_log (d : DB) (a : action) (e : error) :
  log d = None -> logErr d = Some e -> no_new_log a = true ->
  log (DB_serve_action d a).1 = None /\
  logErr (DB_serve_action d a).1 = Some e /\
  answered_with e a (DB_serve_action d a).2.
Proof.
  intros Hlog Herr Hno. destruct a as [|writes io|[f|]| |r]; simpl in Hno; try discriminate.
  - unfold DB_serve_action, DB_throttle. rewrite Hlog. simpl. split_and!; auto.
  - unfold DB_serve_action, DB_writeBatchGroup. rewrite Hlog.
    destruct (Group_Empty writes) eqn:Hg; cbn [fst snd answered_with].
    + split_and!; auto. intros H. congruence.
    + split_and!; auto. intros _. rewrite Herr. reflexivity.
  - simpl. split_and!; auto.
  - pose proof (DB_completeCollectionFiles_log d) as [H1 H2].
    simpl. split_and!; [congruence | congruence | exact I].
  - pose proof (DB_completeCompaction_log d r) as [H1 H2].
    simpl. split_and!; [congruence | congruence | exact I].
Qed.

Lemma DB_serve_closed_log (acts : list action) (e : error) :
  forall d,
    log d = None -> logErr d = Some e -> forallb no_new_log acts = true ->
    log (DB_serve d acts).1 = None /\
    logErr (DB_serve d acts).1 = Some e /\
    Forall2 (answered_with e) acts (DB_serve d acts).2.
Proof.
  induction acts as [|a acts IH]; intros d Hlog Herr Hno.
  - simpl. split_and!; auto.
  - simpl in Hno. apply andb_prop in Hno as [Ha Hno].
    destruct (DB_serve_action_closed_log d a e Hlog Herr Ha) as (H1 & H2 & H3).
    simpl. destruct (DB_serve_action d a) as [d1 evs]. simpl in *.
    destruct (IH d1 H1 H2 Hno) as (H4 & H5 & H6).
    destruct (DB_serve d1 acts) as [d2 more]. simpl in *.
    split_and!; auto.
Qed.

(** C4, as the code has it: when the log append of a group fails with
    [e], the group is answered with [e] (and not with success), the log
    file is closed and the handle keeps no log; from then on, through
    every sequence of coordinator actions in which no pre-opened log file
    is installed, the log stays closed on [e] and every non-empty write
    group is answered with [e] and nothing is written. *)
Theorem DB_log_error_sticky (d : DB) (writes : Group) (io : logIO) (lw : logWriter)
    (e : error) (acts : list action) :
  log d = Some lw ->
  compactionErr d = None ->
  Group_Empty writes = false ->
  logIO_result (g_Sync writes) io = Some e ->
  forallb no_new_log acts = true ->
  let failed := DB_writeBatchGroup d writes io in
  let later := DB_serve failed.1.1 acts in
  In (EvSend (Some e)) failed.2 /\
  ~ In (EvSend None) failed.2 /\
  (forall f, logFile d = Some f -> In (EvFileClose (f_number f)) failed.2) /\
  log failed.1.1 = None /\ logErr failed.1.1 = Some e /\ logFile failed.1.1 = None /\
  log later.1 = None /\ logErr later.1 = Some e /\
  Forall2 (answered_with e) acts later.2.
Proof.
  intros Hlog Herr Hne Hres Hno failed later.
  assert (Hfailed : log failed.1.1 = None /\ logErr failed.1.1 = Some e /\
                    logFile failed.1.1 = None /\
                    exists record more,
                      failed.2 = EvLogWrite lw record :: more ++ [EvSend (Some e)] ++
                                 (DB_closeLog d (Some e)).2 /\
                      (more = [] \/ more = [EvLogSync])).
  { subst failed. unfold DB_writeBatchGroup. rewrite Hne, Hlog, Herr.
    set (record := Batch_Bytes _). set (d1 := set_state d _).
    destruct (DB_writeLog_result lw (g_Sync writes) record io) as [Hr (more & Hevs & Hmore)].
    rewrite Hres in Hr.
    destruct (DB_writeLog lw (g_Sync writes) record io) as [e' evs]. simpl in Hr, Hevs.
    subst e' evs. simpl.
    split_and!; try reflexivity. exists record, more. split; [reflexivity | exact Hmore]. }
  destruct Hfailed as (H1 & H2 & H3 & record & more & Hevs & Hmore).
  destruct (DB_serve_closed_log acts e failed.1.1 H1 H2 Hno) as (H4 & H5 & H6).
  split_and!; try assumption.
  - rewrite Hevs. right. apply in_or_app. right. left. reflexivity.
  - rewrite Hevs. intros [H|H]; [discriminate|].
    apply in_app_or in H as [H|H].
    + destruct Hmore as [-> | ->]; [destruct H | destruct H as [H|[]]; discriminate].
    + destruct H as [H|H]; [discriminate|].
      unfold DB_closeLog in H. simpl in H.
      destruct (logFile d); [destruct H as [H|[]]; discriminate | destruct H].
  - intros f Hf. rewrite Hevs. right. apply in_or_app. right. right.
    unfold DB_closeLog. simpl. rewrite Hf. left. reflexivity.
Qed.

(** *** The write throttle *)

Lemma pause_threshold_plain (bufSize : Z) :
  0 <= bufSize < 2 ^ 62 -> pause_threshold bufSize = bufSize + bufSize / 4.
Proof.
  intros H. unfold pause_threshold. rewrite Z.quot_div_nonneg by lia.
  assert (0 <= bufSize / 4 <= bufSize)
    by (split; [apply Z.div_pos | apply Z.div_le_upper_bound]; lia).
  apply wrap64_small. lia.
Qed.

(** C7, as the code has it: with an open log and no pending compaction
    error, writes pause exactly when the memtable usage exceeds the write
    buffer and, besides, either level 0 holds at least 12 files or the
    usage is at least the buffer size plus a quarter of it (in Go's
    integer arithmetic: the plain sum and quotient for a buffer size
    below 2^62); the 1 ms timer is set exactly when the usage exceeds the
    buffer, writes do not pause, and level 0 holds at least 8 files;
    there is no other timer. *)
Theorem DB_throttle_delay_and_pause (d : DB) (lw : logWriter) :
  log d = Some lw ->
  compactionErr d = None ->
  (throttle_pause d = true <->
     WriteBufferSize (options d) < MemTable_ApproximateMemoryUsage (mem d) /\
     (L0StopWritesFiles <= level0NumFiles d \/
      pause_threshold (WriteBufferSize (options d))
        <= MemTable_ApproximateMemoryUsage (mem d))) /\
  (throttle_timer d = Some Millisecond <->
     WriteBufferSize (options d) < MemTable_ApproximateMemoryUsage (mem d) /\
     MemTable_ApproximateMemoryUsage (mem d)
       < pause_threshold (WriteBufferSize (options d)) /\
     L0SlowdownFiles <= level0NumFiles d < L0StopWritesFiles) /\
  (throttle_timer d = None \/ throttle_timer d = Some Millisecond) /\
  (0 <= WriteBufferSize (options d) < 2 ^ 62 ->
   pause_threshold (WriteBufferSize (options d)) =
     WriteBufferSize (options d) + WriteBufferSize (options d) / 4).
Proof.
  intros Hlog Herr.
  unfold throttle_pause, throttle_timer, DB_throttle. rewrite Hlog, Herr.
  set (size := WriteBufferSize (options d)) in *.
  set (usage := MemTable_ApproximateMemoryUsage (mem d)).
  set (l0 := level0NumFiles d).
  set (quarter := pause_threshold size).
  pose proof (pause_threshold_plain size) as Hplain. fold quarter in Hplain.
  destruct (Z.leb_spec usage size) as [H1|H1]; simpl.
  { split_and!; [split; [discriminate | lia] | split; [discriminate | lia]
                | left; reflexivity | exact Hplain]. }
  destruct (Z.leb_spec L0StopWritesFiles l0) as [H2|H2]; simpl.
  { split_and!; [split; [lia | reflexivity] | split; [discriminate | lia]
                | left; reflexivity | exact Hplain]. }
  destruct (DB_tryOpenNextLog d) as [d' evs].
  destruct (Z.leb_spec quarter usage) as [H3|H3]; simpl.
  { split_and!; [split; [lia | reflexivity] | split; [discriminate | lia]
                | left; reflexivity | exact Hplain]. }
  destruct (Z.leb_spec L0SlowdownFiles l0) as [H4|H4]; simpl.
  - split_and!; [split; [discriminate | lia] | split; [lia | reflexivity]
                | right; reflexivity | exact Hplain].
  - split_and!; [split; [discriminate | lia] | split; [discriminate | lia]
                | left; reflexivity | exact Hplain].
Qed.

(** *** Compaction retries *)

Lemma compactAndLog_loop_failures (level : Z) (edit : Edit) (e : error) (n : nat) :
  forall k rest,
    compactAndLog_loop level edit (repeat (log_failure e) n ++ rest) true (backoff k) =
    (failure_events level e (S k) n ++
       (compactAndLog_loop level edit rest true (backoff (k + n))).1,
     (compactAndLog_loop level edit rest true (backoff (k + n))).2).
Proof.
  induction n as [|n IH]; intros k rest.
  - simpl. rewrite Nat.add_0_r. destruct (compactAndLog_loop _ _ _ _ _); reflexivity.
  - cbn [repeat app compactAndLog_loop log_failure a_log a_closing].
    change (next_timeout (backoff k)) with (backoff (S k)).
    rewrite (IH (S k) rest).
    replace (S k + n)%nat with (k + S n)%nat by lia.
    reflexivity.
Qed.


(** *** Replaying a log with a torn tail *)

Lemma end_offset_cons (r : bytes * Z) (records : list (bytes * Z)) (offset : Z) :
  end_offset (r :: records) offset = end_offset records r.2.
Proof.
  unfold end_offset. destruct records as [|r' records]; [reflexivity|].
  change (last (r :: r' :: records)) with (last (r' :: records)).
  destruct (last (r' :: records)) eqn:E; [reflexivity|].
  apply last_None in E. discriminate.
Qed.

Lemma loadLog_records_torn (f : File) (records : list (bytes * Z)) :
  f_tail f = ErrIncompleteRecord ->
  forallb well_formed (map fst records) = true ->
  forall offset m maxSequence,
    ld_offset (loadLog_records f records offset m maxSequence) = end_offset records offset /\
    ld_mem (loadLog_records f records offset m maxSequence) =
      fold_left replay (map fst records) m /\
    ld_err (loadLog_records f records offset m maxSequence) = f_seek_err f /\
    ld_events (loadLog_records f records offset m maxSequence) = [] /\
    ld_file (loadLog_records f records offset m maxSequence) =
      Some (File_Seek (File_Truncate f (end_offset records offset))
                      (end_offset records offset)).1.
Proof.
  intros Ht. induction records as [|[record next] records IH]; intros Hw offset m maxSequence.
  - simpl. rewrite Ht. unfold end_offset. simpl.
    unfold File_Seek, File_Truncate.
    destruct (f_truncate_err f), (f_seek_err f); simpl; split_and!; reflexivity.
  - simpl in Hw. apply andb_prop in Hw as [Hr Hw].
    cbn [loadLog_records map fst fold_left].
    unfold well_formed in Hr. unfold replay at 2.
    destruct (Batch_Split record) as [[seq items] ok].
    apply andb_prop in Hr as [-> Hitems]. apply negb_true_iff in Hitems. rewrite Hitems. simpl.
    rewrite end_offset_cons. apply IH. exact Hw.
Qed.

(** C6, as the code has it: a log whose complete records are all
    accepted batches and whose tail is torn.  [loadLog] applies every
    complete batch to the memtable, calls [Truncate] at the offset after
    the last complete record (disregarding its result), seeks to that
    offset and returns the file and the offset with the error of the seek,
    closing nothing: no error when the seek succeeds, and then recovery of
    that log goes on to install the file as the open log at that offset. *)
Theorem DB_loadLog_torn_tail (fs : FileSystem) (m : MemTable) (logNumber : Z)
    (maxSequence : Sequence) (f : File) :
  fs_logs fs !! logNumber = Some f ->
  f_tail f = ErrIncompleteRecord ->
  forallb well_formed (map fst (f_records f)) = true ->
  ld_offset (DB_loadLog fs m logNumber maxSequence) = end_offset (f_records f) 0 /\
  ld_mem (DB_loadLog fs m logNumber maxSequence) =
    fold_left replay (map fst (f_records f)) m /\
  ld_err (DB_loadLog fs m logNumber maxSequence) = f_seek_err f /\
  ld_events (DB_loadLog fs m logNumber maxSequence) = [] /\
  ld_file (DB_loadLog fs m logNumber maxSequence) =
    Some (File_Seek (File_Truncate f (end_offset (f_records f) 0))
                    (end_offset (f_records f) 0)).1 /\
  (f_truncate_err f = None ->
   f_size (File_Seek (File_Truncate f (end_offset (f_records f) 0))
                     (end_offset (f_records f) 0)).1 = end_offset (f_records f) 0) /\
  (f_seek_err f = None ->
   forall d,
     (DB_recoverLogs d fs [logNumber]).1.2 = None /\
     log (DB_recoverLogs d fs [logNumber]).1.1 =
       Some {| lw_file := f_number f; lw_offset := end_offset (f_records f) 0 |} /\
     mem (DB_recoverLogs d fs [logNumber]).1.1 =
       fold_left replay (map fst (f_records f)) (MemTable_New (Comparator (options d)))).
Proof.
  intros Hf Ht Hw.
  assert (Hload : forall m0 q,
            DB_loadLog fs m0 logNumber q = loadLog_records f (f_records f) 0 m0 q).
  { intros m0 q. unfold DB_loadLog. rewrite Hf. reflexivity. }
  destruct (loadLog_records_torn f (f_records f) Ht Hw 0 m maxSequence)
    as (H1 & H2 & H3 & H4 & H5).
  rewrite Hload. split_and!; try assumption.
  - intros Htr. unfold File_Seek, File_Truncate. rewrite Htr. simpl.
    destruct (f_seek_err f); reflexivity.
  - intros Hseek d.
    unfold DB_recoverLogs. cbn [length Nat.eqb last default].
    rewrite Hload.
    destruct (loadLog_records_torn f (f_records f) Ht Hw 0
                (MemTable_New (Comparator (options d))) (State_LastSequence (state d)))
      as (G1 & G2 & G3 & G4 & G5).
    rewrite G3, Hseek, G5, G1, G2. cbn [fst snd].
    assert (Hn : f_number (File_Seek (File_Truncate f (end_offset (f_records f) 0))
                                     (end_offset (f_records f) 0)).1 = f_number f).
    { unfold File_Seek, File_Truncate.
      destruct (f_truncate_err f); simpl; destruct (f_seek_err f); reflexivity. }
    rewrite Hn. split_and!; reflexivity.
Qed.

(** *** The table check of recovery *)

Lemma scan_names_tables (logNumber : Z) (names : list string) :
  forall logs, (fold_left (scan_name logNumber) names (∅, logs)).1 = ∅.
Proof.
  induction names as [|name names IH]; intros logs; [reflexivity|].
  simpl. unfold scan_name at 2. simpl.
  destruct (files_Parse name) as [kind number].
  rewrite empty_difference_L.
  destruct kind; try apply IH.
  destruct (logNumber <=? number); apply IH.
Qed.

(** Whatever the recovered version refers to and whatever the directory
    holds, the table check of [recoverDB] passes: with a state recovered
    and a listing obtained, the result is that of replaying the logs. *)
Lemma recoverDB_skips_table_check (s : State) (fs : FileSystem) (opts : Options) :
  fs_list_err fs = None ->
  recoverDB (inl s) fs opts =
    let logs := (fold_left (scan_name (State_LogFileNumber s)) (fs_names fs) (∅, [])).2 in
    let '(d, e, evs) := DB_recoverLogs (initDB s opts) fs logs in
    match e with
    | Some e => (inr e, evs ++ (DB_closeLog d None).2)
    | None => let '(d, started) := DB_tryStartBackground d in (inl d, evs ++ started)
    end.
Proof.
  intros Hl. unfold recoverDB. rewrite Hl.
  pose proof (scan_names_tables (State_LogFileNumber s) (fs_names fs) []) as Ht.
  destruct (fold_left _ _ _) as [tables logs]. simpl in Ht. subst tables.
  rewrite size_empty. simpl.
  destruct (DB_recoverLogs _ fs logs) as [[d e] evs].
  destruct e as [e|]; reflexivity.
Qed.

(** *** Background jobs exclude each other *)

(** "File collection can't be run concurrently with compactions": while
    the collection flag is up, neither compaction flag is. *)
Definition collection_alone (d : DB) : bool :=
  negb (collectionFiles d) || ((compactionLevel d <? 0) && negb (compactionMemory d)).

Lemma DB_tryMemoryCompaction_alone (d : DB) :
  collection_alone d = true -> collection_alone (DB_tryMemoryCompaction d).1 = true.
Proof.
  intros H. unfold DB_tryMemoryCompaction.
  destruct (imm d); [|exact H].
  destruct (collectionFiles d) eqn:Hc; simpl; [exact H|].
  destruct (closing d); simpl; [exact H|].
  unfold collection_alone. simpl. rewrite Hc. reflexivity.
Qed.

Lemma DB_tryLevelCompaction_alone (d : DB) :
  collection_alone d = true -> collection_alone (DB_tryLevelCompaction d).1 = true.
Proof.
  intros H. unfold DB_tryLevelCompaction.
  destruct (collectionFiles d) eqn:Hc; simpl; [exact H|].
  destruct (0 <=? compactionLevel d); simpl; [exact H|].
  destruct (closing d); simpl; [exact H|].
  destruct (State_PickCompaction (state d)); [|exact H].
  unfold collection_alone. simpl. rewrite Hc. reflexivity.
Qed.

Lemma DB_tryRemoveObsoleteFiles_alone (d : DB) :
  collection_alone (DB_tryRemoveObsoleteFiles d).1 = collection_alone d \/
  collection_alone (DB_tryRemoveObsoleteFiles d).1 = true.
Proof.
  unfold DB_tryRemoveObsoleteFiles.
  destruct (Z.leb_spec 0 (compactionLevel d)); simpl; [left; reflexivity|].
  destruct (compactionMemory d) eqn:Hm; simpl; [left; reflexivity|].
  right. unfold collection_alone. simpl. rewrite Hm.
  destruct (Z.ltb_spec (compactionLevel d) 0); [reflexivity | lia].
Qed.

Lemma DB_tryOpenNextLog_alone (d : DB) :
  collection_alone (DB_tryOpenNextLog d).1 = collection_alone d.
Proof.
  unfold DB_tryOpenNextLog. destruct (imm d); [reflexivity|].
  destruct (nextLogNumber d =? 0); reflexivity.
Qed.

Lemma DB_throttle_alone (d : DB) :
  collection_alone (DB_throttle d).1.1 = collection_alone d.
Proof.
  unfold DB_throttle. destruct (log d); [|reflexivity].
  destruct (compactionErr d); [reflexivity|].
  destruct (_ <=? _); [reflexivity|].
  destruct (_ <=? _); [reflexivity|].
  pose proof (DB_tryOpenNextLog_alone d) as H.
  destruct (DB_tryOpenNextLog d) as [d' evs]. simpl in H.
  destruct (_ <=? _); [exact H|]. destruct (_ <=? _); exact H.
Qed.

Lemma DB_writeBatchGroup_alone (d : DB) (writes : Group) (io : logIO) :
  collection_alone (DB_writeBatchGroup d writes io).1.1 = collection_alone d.
Proof.
  unfold DB_writeBatchGroup. destruct (Group_Empty writes); [reflexivity|].
  destruct (log d); [|reflexivity].
  destruct (compactionErr d); [reflexivity|].
  destruct (DB_writeLog _ _ _ _) as [[e|] evs]; reflexivity.
Qed.

Lemma DB_openLog_alone (d : DB) (f : File) (number : Z) :
  collection_alone d = true -> collection_alone (DB_openLog d f number).1 = true.
Proof.
  intros H. unfold DB_openLog.
  destruct (negb (MemTable_Empty _)); [|exact H].
  match goal with |- context [DB_tryMemoryCompaction ?x] =>
    pose proof (DB_tryMemoryCompaction_alone x H) as H';
    destruct (DB_tryMemoryCompaction x) as [d' evs] end.
  exact H'.
Qed.

Lemma DB_completeCollectionFiles_alone (d : DB) :
  collection_alone (DB_completeCollectionFiles d).1 = true.
Proof.
  unfold DB_completeCollectionFiles.
  assert (H0 : collection_alone (set_collectionFiles d false) = true) by reflexivity.
  pose proof (DB_tryMemoryCompaction_alone _ H0) as H1.
  destruct (DB_tryMemoryCompaction (set_collectionFiles d false)) as [d1 evs1]. simpl in H1.
  pose proof (DB_tryLevelCompaction_alone _ H1) as H2.
  destruct (DB_tryLevelCompaction d1) as [d2 evs2]. exact H2.
Qed.

Lemma DB_completeCompaction_alone (d : DB) (r : compactionResult) :
  collection_alone d = true -> collection_alone (DB_completeCompaction d r).1 = true.
Proof.
  intros H. unfold DB_completeCompaction.
  set (finished := match cr_err r with None => true | Some _ => cr_aborted r end).
  set (d1 := if finished then _ else d).
  assert (H1 : collection_alone d1 = true).
  { subst d1. destruct finished; [|exact H].
    unfold collection_alone in *. destruct (cr_level r =? -1); simpl.
    - destruct (collectionFiles d); simpl in *; [|reflexivity].
      apply andb_true_iff in H as [-> _]. reflexivity.
    - destruct (collectionFiles d); simpl in *; [|reflexivity].
      apply andb_true_iff in H as [_ ->]. reflexivity. }
  clearbody d1.
  destruct (cr_err r).
  - destruct finished; exact H1.
  - set (d2 := if cr_level r =? -1 then _ else _).
    assert (H2 : collection_alone d2 = true).
    { subst d2. destruct (cr_level r =? -1); exact H1. }
    clearbody d2.
    set (d3 := match cr_edit r with Some _ => _ | None => _ end).
    assert (H3 : collection_alone d3 = true).
    { subst d3. destruct (cr_edit r); exact H2. }
    clearbody d3.
    pose proof (DB_tryLevelCompaction_alone _ H3) as H4.
    destruct (DB_tryLevelCompaction d3) as [d4 evs1]. simpl in H4.
    pose proof (DB_tryRemoveObsoleteFiles_alone d4) as H5.
    destruct (DB_tryRemoveObsoleteFiles d4) as [d5 evs2]. simpl in *.
    assert (Hbg : forall x n, collection_alone (set_bgGroup x n) = collection_alone x)
      by reflexivity.
    destruct finished; rewrite ?Hbg; destruct H5 as [H5|H5]; congruence.
Qed.

Lemma DB_serve_action_alone (d : DB) (a : action) :
  collection_alone d = true -> collection_alone (DB_serve_action d a).1 = true.
Proof.
  intros H. destruct a as [|writes io|[f|]| |r]; simpl.
  - pose proof (DB_throttle_alone d) as H'.
    destruct (DB_throttle d) as [[d' res] evs]. simpl in *. congruence.
  - pose proof (DB_writeBatchGroup_alone d writes io) as H'.
    destruct (DB_writeBatchGroup d writes io) as [[d' g] evs]. simpl in *. congruence.
  - pose proof (DB_openLog_alone (set_bgGroup d (bgGroup d - 1)) f (nextLogNumber d) H) as H'.
    simpl in H'. destruct (DB_openLog _ f _) as [d' evs]. exact H'.
  - exact H.
  - apply DB_completeCollectionFiles_alone.
  - apply DB_completeCompaction_alone. exact H.
Qed.

(** X16: Whatever the serving routine is given to do, in whatever order, a
    file collection and a compaction are never flagged as running at the
    same time; the handle [initDB] sets up starts out that way. *)
Theorem DB_serve_collection_excludes_compaction (d : DB) (acts : list action) :
  collection_alone d = true ->
  collection_alone (DB_serve d acts).1 = true /\
  forall s opts, collection_alone (initDB s opts) = true.
Proof.
  intros H. split; [|reflexivity].
  revert d H. induction acts as [|a acts IH]; intros d H; [exact H|].
  simpl. pose proof (DB_serve_action_alone d a H) as H1.
  destruct (DB_serve_action d a) as [d1 evs]. simpl in H1.
  specialize (IH d1 H1). destruct (DB_serve d1 acts) as [d2 more]. exact IH.
Qed.

(** *** Every group is answered once *)

(** The reply a group gets: the stored log error when the log is closed,
    else a pending compaction error, else the result of the log write. *)
Definition reply_of (d : DB) (writes : Group) (io : logIO) : option error :=
  match log d with
  | None => logErr d
  | Some _ =>
      match compactionErr d with
      | Some e => Some e
      | None => logIO_result (g_Sync writes) io
      end
  end.

Definition is_reply (ev : event) : bool :=
  match ev with EvSend _ => true | _ => false end.

(** X17: [writeBatchGroup] answers a group that is not empty exactly once,
    with [reply_of], and leaves it empty; it touches the memtable only
    when the log is open, no compaction error is pending and the log write
    succeeds, and then applies the batch under the sequence after the
    last one.  An empty group is not answered and changes nothing. *)
Theorem DB_writeBatchGroup_replies_once (d : DB) (writes : Group) (io : logIO) :
  List.filter is_reply (DB_writeBatchGroup d writes io).2 =
    (if Group_Empty writes then [] else [EvSend (reply_of d writes io)]) /\
  Group_Empty (DB_writeBatchGroup d writes io).1.2 = true /\
  mem (DB_writeBatchGroup d writes io).1.1 =
    (if Group_Empty writes then mem d
     else match log d, reply_of d writes io with
          | Some _, None =>
              Batch_Iterate
                (Batch_SetSequence (g_Batch writes)
                   (wrapU64 (State_LastSequence (state d) + 1))) (mem d)
          | _, _ => mem d
          end) /\
  (Group_Empty writes = true -> (DB_writeBatchGroup d writes io).1.1 = d).
Proof.
  unfold DB_writeBatchGroup, reply_of.
  destruct (Group_Empty writes) eqn:Hempty.
  { split_and!; try reflexivity. exact Hempty. }
  destruct (log d) as [lw|].
  2:{ split_and!; reflexivity. }
  destruct (compactionErr d) as [e|].
  { split_and!; reflexivity. }
  unfold DB_writeLog, logIO_result, DB_closeLog.
  destruct (io_write io) as [e|]; [|destruct (g_Sync writes); [destruct (io_sync io) as [e|]|]];
    simpl; (split_and!; [| reflexivity | reflexivity | discriminate]);
    try reflexivity; destruct (logFile d); reflexivity.
Qed.

(** *** Replaying a log *)

(** The last sequence of a batch, and the maximal sequence raised by it
    ([if lastSequence > *maxSequence]). *)
Definition batch_last (record : bytes) : Sequence :=
  let '(seq, items, _) := Batch_Split record in
  Sequence_Add seq (wrapU64 (Z.of_nat (length items) - 1)).

Definition raise (maxSequence : Sequence) (record : bytes) : Sequence :=
  if maxSequence <? batch_last record then batch_last record else maxSequence.

Lemma loadLog_records_app (f : File) (good rest : list (bytes * Z)) :
  forallb well_formed (map fst good) = true ->
  forall offset m maxSequence,
    loadLog_records f (good ++ rest) offset m maxSequence =
    loadLog_records f rest (end_offset good offset)
      (fold_left replay (map fst good) m) (fold_left raise (map fst good) maxSequence).
Proof.
  induction good as [|[record next] good IH]; intros Hw offset m maxSequence; [reflexivity|].
  simpl in Hw. apply andb_prop in Hw as [Hr Hw].
  cbn [app loadLog_records map fst fold_left].
  unfold well_formed in Hr. unfold replay at 2. unfold raise at 2. unfold batch_last.
  destruct (Batch_Split record) as [[seq items] ok].
  apply andb_prop in Hr as [-> Hitems]. apply negb_true_iff in Hitems. rewrite Hitems. simpl.
  rewrite end_offset_cons. apply IH. exact Hw.
Qed.

Lemma fold_raise_le (records : list bytes) :
  forall q, q <= fold_left raise records q /\
            Forall (fun r => batch_last r <= fold_left raise records q) records.
Proof.
  induction records as [|r records IH]; intros q; [split; [simpl; lia | constructor]|].
  cbn [fold_left]. destruct (IH (raise q r)) as [Hq Hall].
  assert (Hr : q <= raise q r /\ batch_last r <= raise q r).
  { unfold raise. destruct (Z.ltb_spec q (batch_last r)); lia. }
  split; [lia|]. constructor; [lia | exact Hall].
Qed.

(** X18: A record that does not split into a batch of at least one item ends
    the replay: [loadLog] closes the file and returns no file and
    [ErrCorruptWriteBatch], whatever follows the record; the batches before
    it have been applied to the memtable it was given. *)
Theorem DB_loadLog_corrupt_batch (fs : FileSystem) (m : MemTable) (logNumber : Z)
    (maxSequence : Sequence) (f : File) (good : list (bytes * Z)) (bad : bytes * Z)
    (rest : list (bytes * Z)) :
  fs_logs fs !! logNumber = Some f ->
  f_records f = good ++ bad :: rest ->
  forallb well_formed (map fst good) = true ->
  well_formed bad.1 = false ->
  ld_err (DB_loadLog fs m logNumber maxSequence) = Some ErrCorruptWriteBatch /\
  ld_file (DB_loadLog fs m logNumber maxSequence) = None /\
  ld_offset (DB_loadLog fs m logNumber maxSequence) = 0 /\
  ld_events (DB_loadLog fs m logNumber maxSequence) = [EvFileClose (f_number f)] /\
  ld_mem (DB_loadLog fs m logNumber maxSequence) = fold_left replay (map fst good) m.
Proof.
  intros Hf Hrec Hgood Hbad. unfold DB_loadLog. rewrite Hf, Hrec.
  rewrite loadLog_records_app by exact Hgood.
  destruct bad as [record next]. cbn [loadLog_records]. simpl in Hbad.
  unfold well_formed in Hbad.
  destruct (Batch_Split record) as [[seq items] ok].
  destruct ok; simpl in *; [rewrite negb_false_iff in Hbad; rewrite Hbad|];
    split_and!; reflexivity.
Qed.

(** X19: A log that ends cleanly after batches that are all accepted is
    replayed to its end: [loadLog] returns the file, unclosed, at the
    offset after the last record and no error; every batch has been
    applied, and the maximal sequence it leaves is at least the one it was
    given and at least the last sequence of every batch. *)
Theorem DB_loadLog_replays_to_end (fs : FileSystem) (m : MemTable) (logNumber : Z)
    (maxSequence : Sequence) (f : File) :
  fs_logs fs !! logNumber = Some f ->
  f_tail f = EOF ->
  forallb well_formed (map fst (f_records f)) = true ->
  ld_err (DB_loadLog fs m logNumber maxSequence) = None /\
  ld_file (DB_loadLog fs m logNumber maxSequence) = Some f /\
  ld_offset (DB_loadLog fs m logNumber maxSequence) = end_offset (f_records f) 0 /\
  ld_events (DB_loadLog fs m logNumber maxSequence) = [] /\
  ld_mem (DB_loadLog fs m logNumber maxSequence) = fold_left replay (map fst (f_records f)) m /\
  maxSequence <= ld_maxSequence (DB_loadLog fs m logNumber maxSequence) /\
  Forall (fun r => batch_last r <= ld_maxSequence (DB_loadLog fs m logNumber maxSequence))
         (map fst (f_records f)).
Proof.
  intros Hf Ht Hw. unfold DB_loadLog. rewrite Hf.
  assert (Heq : loadLog_records f (f_records f) 0 m maxSequence =
                loadLog_records f [] (end_offset (f_records f) 0)
                  (fold_left replay (map fst (f_records f)) m)
                  (fold_left raise (map fst (f_records f)) maxSequence)).
  { rewrite <- (app_nil_r (f_records f)) at 1. apply loadLog_records_app. exact Hw. }
  rewrite Heq. cbn [loadLog_records]. rewrite Ht. simpl.
  destruct (fold_raise_le (map fst (f_records f)) maxSequence) as [Hq Hall].
  split_and!; try reflexivity; assumption.
Qed.

(** *** Recovery does not depend on the order of the listing *)

Lemma merge_sort_Permutation_eq (l1 l2 : list Z) :
  l1 ≡ₚ l2 -> merge_sort Z.le l1 = merge_sort Z.le l2.
Proof.
  intros Hp. apply (Sorted_unique Z.le).
  - apply Sorted_merge_sort. apply _.
  - apply Sorted_merge_sort. apply _.
  - rewrite !merge_sort_Permutation. exact Hp.
Qed.

(** [recoverLogs] sorts the log numbers it is given before it replays
    them, so that their order does not matter. *)
Lemma DB_recoverLogs_Permutation (d : DB) (fs : FileSystem) (logs logs' : list Z) :
  logs ≡ₚ logs' -> DB_recoverLogs d fs logs = DB_recoverLogs d fs logs'.
Proof.
  intros Hp. pose proof (Permutation_length Hp) as Hlen.
  assert (Hsame : (if (length logs =? 1)%nat then logs else merge_sort Z.le logs) =
                  (if (length logs' =? 1)%nat then logs' else merge_sort Z.le logs')).
  { rewrite <- Hlen. destruct (Nat.eqb_spec (length logs) 1) as [H1|H1].
    - destruct logs as [|x [|y l]]; try discriminate.
      apply Permutation_singleton_l in Hp. congruence.
    - apply merge_sort_Permutation_eq. exact Hp. }
  unfold DB_recoverLogs.
  destruct logs as [|x l], logs' as [|y l']; try discriminate; [reflexivity|].
  cbv zeta. rewrite Hsame, Hlen. reflexivity.
Qed.

(** The log numbers [recoverDB] gathers from one file name. *)
Definition log_of (logNumber : Z) (name : string) : list Z :=
  match files_Parse name with
  | (KindLog, number) => if logNumber <=? number then [number] else []
  | _ => []
  end.

Lemma scan_names_logs (logNumber : Z) (names : list string) :
  forall tables logs,
    (fold_left (scan_name logNumber) names (tables, logs)).2 =
    logs ++ flat_map (log_of logNumber) names.
Proof.
  induction names as [|name names IH]; intros tables logs.
  - simpl. rewrite app_nil_r. reflexivity.
  - simpl. unfold scan_name at 2, log_of at 1. simpl.
    destruct (files_Parse name) as [kind number].
    destruct kind; try (rewrite IH; reflexivity).
    destruct (logNumber <=? number); rewrite IH; [rewrite <- app_assoc|]; reflexivity.
Qed.

(** The same directory with its listing in another order. *)
Definition with_names (fs : FileSystem) (names : list string) : FileSystem :=
  {| fs_lock_err := fs_lock_err fs; fs_current_exists := fs_current_exists fs;
     fs_list_err := fs_list_err fs; fs_names := names; fs_logs := fs_logs fs;
     fs_create_err := fs_create_err fs; fs_compact_err := fs_compact_err fs |}.

Lemma DB_loadLog_with_names (fs : FileSystem) (names : list string) (m : MemTable)
    (logNumber : Z) (q : Sequence) :
  DB_loadLog (with_names fs names) m logNumber q = DB_loadLog fs m logNumber q.
Proof. reflexivity. Qed.

Lemma load_earlier_logs_with_names (fs : FileSystem) (names : list string) (logs : list Z) :
  forall m q, load_earlier_logs (with_names fs names) logs m q = load_earlier_logs fs logs m q.
Proof.
  induction logs as [|n logs IH]; intros m q; [reflexivity|].
  cbn [load_earlier_logs]. rewrite DB_loadLog_with_names.
  destruct (ld_err _); [reflexivity|]. rewrite IH. reflexivity.
Qed.

Lemma DB_recoverLogs_with_names (d : DB) (fs : FileSystem) (names : list string)
    (logs : list Z) :
  DB_recoverLogs d (with_names fs names) logs = DB_recoverLogs d fs logs.
Proof.
  unfold DB_recoverLogs. destruct logs as [|x l]; [reflexivity|].
  cbv zeta. rewrite load_earlier_logs_with_names. reflexivity.
Qed.

(** X20: [recoverDB] gives the same result, events included, in whatever
    order the directory lists its files: it replays the log files whose
    number is at least the recovered log number, in ascending order of
    their numbers. *)
Theorem recoverDB_listing_order
    (recovered : State + error) (fs : FileSystem) (opts : Options) (names : list string) :
  fs_names fs ≡ₚ names ->
  recoverDB recovered (with_names fs names) opts = recoverDB recovered fs opts.
Proof.
  intros Hp. destruct recovered as [s|e]; [|reflexivity].
  unfold recoverDB. change (fs_list_err (with_names fs names)) with (fs_list_err fs).
  destruct (fs_list_err fs); [reflexivity|].
  change (fs_names (with_names fs names)) with names.
  pose proof (scan_names_tables (State_LogFileNumber s) (fs_names fs) []) as Ht.
  pose proof (scan_names_logs (State_LogFileNumber s) (fs_names fs) ∅ []) as Hl.
  pose proof (scan_names_tables (State_LogFileNumber s) names []) as Ht'.
  pose proof (scan_names_logs (State_LogFileNumber s) names ∅ []) as Hl'.
  destruct (fold_left _ (fs_names fs) _) as [tables logs].
  destruct (fold_left _ names _) as [tables' logs']. simpl in *. subst.
  rewrite size_empty. simpl.
  rewrite DB_recoverLogs_with_names.
  rewrite (DB_recoverLogs_Permutation _ fs
             (flat_map (log_of (State_LogFileNumber s)) names)
             (flat_map (log_of (State_LogFileNumber s)) (fs_names fs))).
  - reflexivity.
  - apply Permutation_flat_map. symmetry. exact Hp.
Qed.

(** *** Opening the next log file in the background *)

(** What one turn of [openNextLog] meets: the result of [fs.Open] and
    whether the close signal is ready before the timer. *)
Record openTurn := {
  ot_open : File + error;
  ot_closing : bool
}.

(** What [openNextLog] does: a message on [nextLogFile] (a file, or nil)
    and the timers it waits for. *)
Inductive nextLogEvent :=
| NlSend (f : option File)
| NlSleep (timeout : Z).

(** The loop of [openNextLog]; [timeout] is declared and never assigned.
    The flag tells whether the function returned. *)
Fixpoint openNextLog_loop (env : list openTurn) (timeout : Z) : list nextLogEvent * bool :=
  match env with
  | [] => ([], false)
  | t :: rest =>
      match ot_open t with
      | inl f => ([NlSend (Some f)], true)
      | inr _ =>
          if ot_closing t then ([NlSend None], true)
          else
            let '(evs, returned) := openNextLog_loop rest timeout in
            (NlSleep timeout :: evs, returned)
      end
  end.

Definition DB_openNextLog (env : list openTurn) : list nextLogEvent * bool :=
  openNextLog_loop env 0.

(** A turn that ends the loop: the file opens, or the database closes. *)
Definition settles (t : openTurn) : bool :=
  match ot_open t with inl _ => true | inr _ => ot_closing t end.

(** X21: [openNextLog] tries again at once, with a timer of zero, after
    every failed open; at the first turn in which the file opens it sends
    the file, if instead the database is closing it sends nil, and it
    returns after that one message. *)
Theorem DB_openNextLog_retries_at_once (pre : list openTurn) (t : openTurn)
    (post : list openTurn) :
  forallb (fun x => negb (settles x)) pre = true ->
  settles t = true ->
  DB_openNextLog (pre ++ t :: post) =
    (replicate (length pre) (NlSleep 0) ++
     [NlSend (match ot_open t with inl f => Some f | inr _ => None end)], true) /\
  DB_openNextLog pre = (replicate (length pre) (NlSleep 0), false).
Proof.
  intros Hpre Ht. unfold DB_openNextLog.
  induction pre as [|x pre IH].
  - simpl. unfold settles in Ht. destruct (ot_open t); [split; reflexivity|].
    rewrite Ht. split; reflexivity.
  - simpl in Hpre. apply andb_prop in Hpre as [Hx Hpre].
    destruct (IH Hpre) as [IH1 IH2].
    unfold settles in Hx. simpl.
    destruct (ot_open x); [discriminate|]. apply negb_true_iff in Hx. rewrite Hx.
    rewrite IH1, IH2. split; reflexivity.
Qed.

(** *** The reports of a compaction job *)

(** The results among the events of a job, and the results on which
    [completeCompaction] releases the job ([err == nil || aborted]). *)
Fixpoint results (evs : list bgEvent) : list compactionResult :=
  match evs with
  | [] => []
  | BgResult r :: rest => r :: results rest
  | _ :: rest => results rest
  end.

Definition is_final (r : compactionResult) : bool :=
  match cr_err r with None => true | Some _ => cr_aborted r end.

Definition removes_table_files (ev : bgEvent) : bool :=
  match ev with BgRemoveTableFiles => true | _ => false end.

Lemma compactAndLog_loop_reports (level : Z) (edit : Edit) (env : list attempt) :
  forall compacted timeout,
    length (List.filter is_final
              (results (compactAndLog_loop level edit env compacted timeout).1)) =
      (if (compactAndLog_loop level edit env compacted timeout).2 then 1 else 0)%nat /\
    ((compactAndLog_loop level edit env compacted timeout).2 = true ->
     exists r,
       last (results (compactAndLog_loop level edit env compacted timeout).1) = Some r /\
       is_final r = true /\ cr_level r = level /\
       (cr_err r = None -> cr_edit r = Some edit) /\
       existsb removes_table_files (compactAndLog_loop level edit env compacted timeout).1 =
         cr_aborted r) /\
    ((compactAndLog_loop level edit env compacted timeout).2 = false ->
     existsb removes_table_files (compactAndLog_loop level edit env compacted timeout).1 = false).
Proof.
  induction env as [|a env IH]; intros compacted timeout.
  - simpl. split_and!; [reflexivity | discriminate | reflexivity].
  - cbn [compactAndLog_loop].
    set (turn := if compacted then _ else _).
    destruct turn as [[compacted' timeout'] [e|]].
    + destruct (a_closing a).
      * simpl. split_and!; [reflexivity | | discriminate].
        intros _. eexists. split_and!; try reflexivity. discriminate.
      * specialize (IH compacted' (next_timeout timeout')).
        destruct (compactAndLog_loop level edit env compacted' (next_timeout timeout'))
          as [evs returned].
        simpl in *. destruct IH as (IH1 & IH2 & IH3).
        split_and!; [exact IH1 | | exact IH3].
        intros Hr. destruct (IH2 Hr) as (r & Hlast & Hrest).
        exists r. split; [|exact Hrest].
        destruct (results evs); [discriminate | exact Hlast].
    + simpl. split_and!; [reflexivity | | discriminate].
      intros _. eexists. split_and!; reflexivity.
Qed.

(** X22: A compaction job that returns has sent exactly one result on which
    the coordinator releases it, its last one: the success with the edit,
    or the abort; the results before it are failures that keep the job
    flagged.  The table files of the compaction are removed exactly when
    the job aborts.  While the job goes on retrying, no such result has
    been sent and nothing was removed. *)
Theorem DB_compactAndLog_reports_once (level : Z) (edit : Edit) (env : list attempt) :
  length (List.filter is_final (results (DB_compactAndLog level edit env).1)) =
    (if (DB_compactAndLog level edit env).2 then 1 else 0)%nat /\
  ((DB_compactAndLog level edit env).2 = true ->
   exists r,
     last (results (DB_compactAndLog level edit env).1) = Some r /\
     is_final r = true /\ cr_level r = level /\
     (cr_err r = None -> cr_edit r = Some edit) /\
     existsb removes_table_files (DB_compactAndLog level edit env).1 = cr_aborted r) /\
  ((DB_compactAndLog level edit env).2 = false ->
   existsb removes_table_files (DB_compactAndLog level edit env).1 = false).
Proof. apply compactAndLog_loop_reports. Qed.

(** *** The wait group *)

Definition is_go (ev : event) : bool :=
  match ev with EvGo _ => true | _ => false end.

(** The goroutines an action of the serving routine has heard the end
    of: one for a message on [nextLogFile], one for a compaction result
    that is final. *)
Definition ended (a : action) : Z :=
  match a with
  | ActNextLogFile _ => 1
  | ActCompactionResult r => if is_final r then 1 else 0
  | _ => 0
  end.

Definition started (evs : list event) : Z := Z.of_nat (length (List.filter is_go evs)).

Lemma started_app (evs1 evs2 : list event) : started (evs1 ++ evs2) = started evs1 + started evs2.
Proof. unfold started. rewrite List.filter_app, length_app. lia. Qed.

Lemma DB_tryMemoryCompaction_started (d : DB) :
  bgGroup (DB_tryMemoryCompaction d).1 = bgGroup d + started (DB_tryMemoryCompaction d).2.
Proof.
  unfold DB_tryMemoryCompaction. destruct (imm d); [|simpl; unfold started; simpl; lia].
  destruct (collectionFiles d || closing d); simpl; unfold started; simpl; lia.
Qed.

Lemma DB_tryLevelCompaction_started (d : DB) :
  bgGroup (DB_tryLevelCompaction d).1 = bgGroup d + started (DB_tryLevelCompaction d).2.
Proof.
  unfold DB_tryLevelCompaction.
  destruct (collectionFiles d || (0 <=? compactionLevel d) || closing d);
    [simpl; unfold started; simpl; lia|].
  destruct (State_PickCompaction (state d)); simpl; unfold started; simpl; lia.
Qed.

Lemma DB_tryRemoveObsoleteFiles_started (d : DB) :
  bgGroup (DB_tryRemoveObsoleteFiles d).1 =
  bgGroup d + started (DB_tryRemoveObsoleteFiles d).2.
Proof.
  unfold DB_tryRemoveObsoleteFiles.
  destruct ((0 <=? compactionLevel d) || compactionMemory d); simpl; unfold started; simpl; lia.
Qed.

Lemma DB_tryOpenNextLog_started (d : DB) :
  bgGroup (DB_tryOpenNextLog d).1 = bgGroup d + started (DB_tryOpenNextLog d).2.
Proof.
  unfold DB_tryOpenNextLog. destruct (imm d); [simpl; unfold started; simpl; lia|].
  destruct (nextLogNumber d =? 0); simpl; unfold started; simpl; lia.
Qed.

Lemma DB_openLog_started (d : DB) (f : File) (number : Z) :
  bgGroup (DB_openLog d f number).1 = bgGroup d + started (DB_openLog d f number).2.
Proof.
  unfold DB_openLog.
  assert (Hclosed : started (match logFile d with
                             | Some old => [EvFileClose (f_number old)]
                             | None => []
                             end) = 0) by (destruct (logFile d); reflexivity).
  destruct (negb (MemTable_Empty _)).
  - match goal with |- context [DB_tryMemoryCompaction ?x] =>
      pose proof (DB_tryMemoryCompaction_started x) as H;
      destruct (DB_tryMemoryCompaction x) as [d' evs] end.
    simpl in *. rewrite started_app, Hclosed. lia.
  - simpl. rewrite Hclosed. lia.
Qed.

Lemma DB_completeCompaction_started (d : DB) (r : compactionResult) :
  bgGroup (DB_completeCompaction d r).1 =
  bgGroup d + started (DB_completeCompaction d r).2 - (if is_final r then 1 else 0).
Proof.
  unfold DB_completeCompaction, is_final.
  set (finished := match cr_err r with None => true | Some _ => cr_aborted r end).
  set (d1 := if finished then _ else d).
  assert (H1 : bgGroup d1 = bgGroup d).
  { subst d1. destruct finished; [|reflexivity]. destruct (cr_level r =? -1); reflexivity. }
  clearbody d1.
  destruct (cr_err r).
  - destruct finished; simpl; unfold started; simpl; lia.
  - set (d2 := if cr_level r =? -1 then _ else _).
    assert (H2 : bgGroup d2 = bgGroup d).
    { subst d2. destruct (cr_level r =? -1); exact H1. }
    clearbody d2.
    set (d3 := match cr_edit r with Some _ => _ | None => _ end).
    assert (H3 : bgGroup d3 = bgGroup d).
    { subst d3. destruct (cr_edit r); exact H2. }
    clearbody d3.
    pose proof (DB_tryLevelCompaction_started d3) as H4.
    destruct (DB_tryLevelCompaction d3) as [d4 evs1]. simpl in H4.
    pose proof (DB_tryRemoveObsoleteFiles_started d4) as H5.
    destruct (DB_tryRemoveObsoleteFiles d4) as [d5 evs2]. simpl in H5.
    simpl. rewrite started_app. destruct finished; simpl; lia.
Qed.

Lemma DB_serve_action_started (d : DB) (a : action) :
  bgGroup (DB_serve_action d a).1 =
  bgGroup d + started (DB_serve_action d a).2 - ended a.
Proof.
  destruct a as [|writes io|[f|]| |r]; simpl.
  - unfold DB_throttle. destruct (log d); [|simpl; unfold started; simpl; lia].
    destruct (compactionErr d); [simpl; unfold started; simpl; lia|].
    destruct (_ <=? _); [simpl; unfold started; simpl; lia|].
    destruct (_ <=? _); [simpl; unfold started; simpl; lia|].
    pose proof (DB_tryOpenNextLog_started d) as H.
    destruct (DB_tryOpenNextLog d) as [d' evs]. simpl in H.
    destruct (_ <=? _); [simpl; lia|]. destruct (_ <=? _); simpl; lia.
  - unfold DB_writeBatchGroup. destruct (Group_Empty writes); [simpl; unfold started; simpl; lia|].
    destruct (log d); [|simpl; unfold started; simpl; lia].
    destruct (compactionErr d); [simpl; unfold started; simpl; lia|].
    unfold DB_writeLog, DB_closeLog.
    destruct (io_write io); [|destruct (g_Sync writes); [destruct (io_sync io)|]];
      simpl; unfold started; simpl; try lia;
      destruct (logFile d); simpl; lia.
  - pose proof (DB_openLog_started (set_bgGroup d (bgGroup d - 1)) f (nextLogNumber d)) as H.
    simpl in H. destruct (DB_openLog _ f _) as [d' evs]. simpl in *. lia.
  - unfold started. simpl. lia.
  - unfold DB_completeCollectionFiles.
    pose proof (DB_tryMemoryCompaction_started (set_collectionFiles d false)) as H1.
    destruct (DB_tryMemoryCompaction (set_collectionFiles d false)) as [d1 evs1]. simpl in H1.
    pose proof (DB_tryLevelCompaction_started d1) as H2.
    destruct (DB_tryLevelCompaction d1) as [d2 evs2]. simpl in *.
    rewrite started_app. lia.
  - apply DB_completeCompaction_started.
Qed.

(** X23: The serving routine keeps the wait group in step with the
    goroutines: over any run, the counter has grown by one for every
    goroutine started and has dropped by one for every message on
    [nextLogFile] and for every final compaction result, and by nothing
    else (a file collection counts itself down). *)
Theorem DB_serve_wait_group (d : DB) (acts : list action) :
  bgGroup (DB_serve d acts).1 =
  bgGroup d + started (concat (DB_serve d acts).2) - fold_right (fun a n => ended a + n) 0 acts.
Proof.
  revert d. induction acts as [|a acts IH]; intros d.
  - simpl. unfold started. simpl. lia.
  - simpl. pose proof (DB_serve_action_started d a) as H.
    destruct (DB_serve_action d a) as [d1 evs]. simpl in H.
    specialize (IH d1). destruct (DB_serve d1 acts) as [d2 more]. simpl in *.
    rewrite started_app. lia.
Qed.

(** *** Switching to the next log file *)

(** While a next log file is asked for, there is no immutable
    memtable. *)
Definition rotation_ready (d : DB) : bool :=
  (nextLogNumber d =? 0) || match imm d with None => true | Some _ => false end.

Lemma DB_tryMemoryCompaction_rotation (d : DB) :
  imm (DB_tryMemoryCompaction d).1 = imm d /\
  nextLogNumber (DB_tryMemoryCompaction d).1 = nextLogNumber d /\
  mem (DB_tryMemoryCompaction d).1 = mem d.
Proof.
  unfold DB_tryMemoryCompaction. destruct (imm d) eqn:Hi; [|simpl; auto].
  destruct (collectionFiles d || closing d); simpl; rewrite ?Hi; auto.
Qed.

Lemma DB_tryLevelCompaction_rotation (d : DB) :
  imm (DB_tryLevelCompaction d).1 = imm d /\
  nextLogNumber (DB_tryLevelCompaction d).1 = nextLogNumber d.
Proof.
  unfold DB_tryLevelCompaction.
  destruct (collectionFiles d || (0 <=? compactionLevel d) || closing d); [auto|].
  destruct (State_PickCompaction (state d)); auto.
Qed.

Lemma DB_tryRemoveObsoleteFiles_rotation (d : DB) :
  imm (DB_tryRemoveObsoleteFiles d).1 = imm d /\
  nextLogNumber (DB_tryRemoveObsoleteFiles d).1 = nextLogNumber d.
Proof.
  unfold DB_tryRemoveObsoleteFiles.
  destruct ((0 <=? compactionLevel d) || compactionMemory d); auto.
Qed.

Lemma DB_tryOpenNextLog_rotation (d : DB) :
  rotation_ready d = true -> rotation_ready (DB_tryOpenNextLog d).1 = true.
Proof.
  intros H. unfold DB_tryOpenNextLog. destruct (imm d) eqn:Hi; [exact H|].
  destruct (nextLogNumber d =? 0); [|exact H].
  unfold rotation_ready. simpl. rewrite Hi. apply orb_true_r.
Qed.

Lemma rotation_ready_same (d d' : DB) :
  imm d' = imm d -> nextLogNumber d' = nextLogNumber d ->
  rotation_ready d' = rotation_ready d.
Proof. intros Hi Hn. unfold rotation_ready. rewrite Hi, Hn. reflexivity. Qed.

Lemma DB_serve_action_rotation (d : DB) (a : action) :
  rotation_ready d = true -> rotation_ready (DB_serve_action d a).1 = true.
Proof.
  intros H. destruct a as [|writes io|[f|]| |r]; simpl.
  - unfold DB_throttle. destruct (log d); [|exact H].
    destruct (compactionErr d); [exact H|].
    destruct (_ <=? _); [exact H|]. destruct (_ <=? _); [exact H|].
    pose proof (DB_tryOpenNextLog_rotation d H) as H'.
    destruct (DB_tryOpenNextLog d) as [d' evs]. simpl in H'.
    destruct (_ <=? _); [exact H'|]. destruct (_ <=? _); exact H'.
  - unfold DB_writeBatchGroup. destruct (Group_Empty writes); [exact H|].
    destruct (log d); [|exact H]. destruct (compactionErr d); [exact H|].
    destruct (DB_writeLog _ _ _ _) as [[e|] evs]; exact H.
  - destruct (DB_openLog _ f _) as [d' evs]. reflexivity.
  - exact H.
  - unfold DB_completeCollectionFiles.
    destruct (DB_tryMemoryCompaction_rotation (set_collectionFiles d false)) as (Hi1 & Hn1 & _).
    destruct (DB_tryMemoryCompaction (set_collectionFiles d false)) as [d1 evs1].
    destruct (DB_tryLevelCompaction_rotation d1) as (Hi2 & Hn2).
    destruct (DB_tryLevelCompaction d1) as [d2 evs2]. simpl in *.
    rewrite (rotation_ready_same d d2); [exact H | congruence | congruence].
  - unfold DB_completeCompaction.
    set (finished := match cr_err r with None => true | Some _ => cr_aborted r end).
    set (d1 := if finished then _ else d).
    assert (H1 : imm d1 = imm d /\ nextLogNumber d1 = nextLogNumber d).
    { subst d1. destruct finished; [|auto]. destruct (cr_level r =? -1); auto. }
    clearbody d1. destruct H1 as [Hi1 Hn1].
    destruct (cr_err r).
    + rewrite (rotation_ready_same d); [exact H | |]; destruct finished; simpl; assumption.
    + set (d2 := if cr_level r =? -1 then _ else _).
      assert (H2 : rotation_ready d2 = true).
      { subst d2. unfold rotation_ready in *. destruct (cr_level r =? -1); simpl.
        - apply orb_true_r.
        - rewrite Hi1, Hn1. exact H. }
      clearbody d2.
      set (d3 := match cr_edit r with Some _ => _ | None => _ end).
      assert (H3 : rotation_ready d3 = true).
      { subst d3. destruct (cr_edit r); exact H2. }
      clearbody d3.
      destruct (DB_tryLevelCompaction_rotation d3) as (Hi4 & Hn4).
      destruct (DB_tryLevelCompaction d3) as [d4 evs1].
      destruct (DB_tryRemoveObsoleteFiles_rotation d4) as (Hi5 & Hn5).
      destruct (DB_tryRemoveObsoleteFiles d4) as [d5 evs2]. simpl in *.
      rewrite (rotation_ready_same d3); [exact H3 | |]; destruct finished; simpl; congruence.
Qed.

(** X24: Over any run of the serving routine, a next log file is asked for
    only while there is no immutable memtable, and none appears before the
    file arrives.  So when the file that was asked for arrives, [openLog]
    overwrites no immutable memtable: a memtable that holds writes becomes
    the immutable one and a new memtable takes its place, an empty one is
    kept; the log writer starts at offset zero of the new file, under the
    number that was asked for, the stored log error is cleared, and no
    further file is asked for. *)
Theorem DB_serve_rotates_without_loss (d : DB) (acts : list action) (f : File) :
  rotation_ready d = true ->
  rotation_ready (DB_serve d acts).1 = true /\
  (nextLogNumber (DB_serve d acts).1 <> 0 ->
   imm (DB_serve d acts).1 = None /\
   imm (DB_serve_action (DB_serve d acts).1 (ActNextLogFile (Some f))).1 =
     (if MemTable_Empty (mem (DB_serve d acts).1) then None
      else Some (mem (DB_serve d acts).1)) /\
   mem (DB_serve_action (DB_serve d acts).1 (ActNextLogFile (Some f))).1 =
     (if MemTable_Empty (mem (DB_serve d acts).1) then mem (DB_serve d acts).1
      else MemTable_New (Comparator (options (DB_serve d acts).1))) /\
   log (DB_serve_action (DB_serve d acts).1 (ActNextLogFile (Some f))).1 =
     Some {| lw_file := f_number f; lw_offset := 0 |} /\
   logErr (DB_serve_action (DB_serve d acts).1 (ActNextLogFile (Some f))).1 = None /\
   logNumber (DB_serve_action (DB_serve d acts).1 (ActNextLogFile (Some f))).1 =
     nextLogNumber (DB_serve d acts).1 /\
   nextLogNumber (DB_serve_action (DB_serve d acts).1 (ActNextLogFile (Some f))).1 = 0).
Proof.
  intros H.
  assert (Hrun : rotation_ready (DB_serve d acts).1 = true).
  { revert d H. induction acts as [|a acts IH]; intros d H; [exact H|].
    simpl. pose proof (DB_serve_action_rotation d a H) as H1.
    destruct (DB_serve_action d a) as [d1 evs]. simpl in H1.
    specialize (IH d1 H1). destruct (DB_serve d1 acts) as [d2 more]. exact IH. }
  split; [exact Hrun|].
  set (d' := (DB_serve d acts).1) in *. clearbody d'.
  intros Hn.
  assert (Hi : imm d' = None).
  { unfold rotation_ready in Hrun. apply Z.eqb_neq in Hn. rewrite Hn in Hrun. simpl in Hrun.
    destruct (imm d'); [discriminate | reflexivity]. }
  split; [exact Hi|].
  simpl. unfold DB_openLog. simpl.
  destruct (MemTable_Empty (mem d')); simpl.
  - rewrite Hi. split_and!; reflexivity.
  - match goal with |- context [DB_tryMemoryCompaction ?x] =>
      pose proof (DB_tryMemoryCompaction_rotation x) as (H1 & H2 & H3);
      assert (H4 : log (DB_tryMemoryCompaction x).1 = log x /\
                   logErr (DB_tryMemoryCompaction x).1 = logErr x /\
                   logNumber (DB_tryMemoryCompaction x).1 = logNumber x)
        by (unfold DB_tryMemoryCompaction; simpl;
            destruct (collectionFiles d' || closing d'); simpl; auto);
      destruct (DB_tryMemoryCompaction x) as [d2 evs2] end.
    simpl in *. destruct H4 as (H4 & H5 & H6).
    split_and!; congruence.
Qed.

(** *** The backoff starts over once the compaction has succeeded *)

(** A turn in which the compaction itself fails with [e], the close
    signal not being ready. *)
Definition compact_failure (e : error) : attempt :=
  {| a_compact := Some e; a_log := None; a_closing := false |}.

Lemma compactAndLog_loop_compact_failures (level : Z) (edit : Edit) (e : error) (n : nat) :
  forall k rest,
    compactAndLog_loop level edit (repeat (compact_failure e) n ++ rest) false (backoff k) =
    (failure_events level e (S k) n ++
       (compactAndLog_loop level edit rest false (backoff (k + n))).1,
     (compactAndLog_loop level edit rest false (backoff (k + n))).2).
Proof.
  induction n as [|n IH]; intros k rest.
  - simpl. rewrite Nat.add_0_r. destruct (compactAndLog_loop _ _ _ _ _); reflexivity.
  - cbn [repeat app compactAndLog_loop compact_failure a_compact a_closing].
    change (next_timeout (backoff k)) with (backoff (S k)).
    rewrite (IH (S k) rest).
    replace (S k + n)%nat with (k + S n)%nat by lia.
    reflexivity.
Qed.

(** X25: While the compaction itself fails, it is run again every turn and
    the timers grow as they do for a failing manifest log: [backoff 1],
    [backoff 2], ...  Once it has succeeded it is not run again ([timeout]
    is set back to zero), and the failures of the manifest log that follow
    wait for [backoff 1], [backoff 2], ... from the start. *)
Theorem DB_compactAndLog_backoff_starts_over
    (level : Z) (edit : Edit) (e1 e2 : error) (k n : nat) :
  DB_compactAndLog level edit
    (repeat (compact_failure e1) k ++ repeat (log_failure e2) (S n)) =
    (failure_events level e1 1 k ++ failure_events level e2 1 (S n), false) /\
  sleeps (DB_compactAndLog level edit
            (repeat (compact_failure e1) k ++ repeat (log_failure e2) (S n))).1 =
    map backoff (seq 1 k) ++ map backoff (seq 1 (S n)) /\
  (forall e3,
     DB_compactAndLog level edit
       (repeat (compact_failure e1) k ++ log_failure e2 ::
        repeat {| a_compact := Some e3; a_log := Some e2; a_closing := false |} n) =
     DB_compactAndLog level edit
       (repeat (compact_failure e1) k ++ repeat (log_failure e2) (S n))).
Proof.
  assert (Hsleeps : forall e from m,
            sleeps (failure_events level e from m) = map backoff (seq from m)).
  { intros e from m. revert from. induction m as [|m IH]; intros from; [reflexivity|].
    unfold failure_events in *. simpl. rewrite IH. reflexivity. }
  assert (Hsleeps_app : forall evs1 evs2, sleeps (evs1 ++ evs2) = sleeps evs1 ++ sleeps evs2).
  { intros evs1 evs2. induction evs1 as [|[r|t|] evs1 IH]; simpl; rewrite ?IH; reflexivity. }
  assert (Hrun : DB_compactAndLog level edit
                   (repeat (compact_failure e1) k ++ repeat (log_failure e2) (S n)) =
                 (failure_events level e1 1 k ++ failure_events level e2 1 (S n), false)).
  { unfold DB_compactAndLog. change 0 with (backoff 0) at 1.
    rewrite compactAndLog_loop_compact_failures.
    cbn [repeat compactAndLog_loop log_failure a_compact a_log a_closing].
    change (next_timeout 0) with (backoff 1).
    rewrite <- (app_nil_r (repeat (log_failure e2) n)), compactAndLog_loop_failures.
    simpl. rewrite app_nil_r. reflexivity. }
  split_and!.
  - exact Hrun.
  - rewrite Hrun. simpl fst. rewrite Hsleeps_app, !Hsleeps. reflexivity.
  - intros e3. rewrite Hrun. unfold DB_compactAndLog. change 0 with (backoff 0) at 1.
    rewrite compactAndLog_loop_compact_failures.
    cbn [compactAndLog_loop log_failure a_compact a_log a_closing].
    change (next_timeout 0) with (backoff 1).
    assert (Hsame : forall m j,
              compactAndLog_loop level edit
                (repeat {| a_compact := Some e3; a_log := Some e2; a_closing := false |} m)
                true (backoff j) =
              compactAndLog_loop level edit (repeat (log_failure e2) m) true (backoff j)).
    { induction m as [|m IH]; intros j; [reflexivity|].
      cbn [repeat compactAndLog_loop log_failure a_compact a_log a_closing].
      change (next_timeout (backoff j)) with (backoff (S j)). rewrite IH. reflexivity. }
    rewrite Hsame.
    rewrite <- (app_nil_r (repeat (log_failure e2) n)), compactAndLog_loop_failures.
    simpl. rewrite app_nil_r. reflexivity.
Qed.

(** *** The order in which [serve] meets its work *)

(** Where the serving routine stands: about to call [throttle] at the
    top of its main loop, or in the inner loop, waiting in [select] with
    the timer and the pause that [throttle] returned. *)
Inductive servePoint :=
| AtThrottle
| InSelect (slowdown : option Z) (pause : bool).

(** Whether [serve], while nobody closes the database, can meet the
    actions in this order from this point on.  [throttle] is called at the
    top of the main loop and nowhere else.  A group reaches
    [writeBatchGroup] only when [throttle] did not pause: at once when
    there is no timer either, or when the timer fires, which is also the
    only way for an empty group to get there.  A log file arrives when one
    was asked for, under the number asked for (a nil file is only sent
    while closing); a collection ends when one runs; a compaction reports
    for the memtable or the level that is flagged, and is not aborted.
    The end of a collection leaves [serve] in the [select]; a write, a log
    file and a compaction result take it back to the top of the main
    loop. *)
Fixpoint serve_meets (d : DB) (p : servePoint) (acts : list action) : bool :=
  match acts with
  | [] => true
  | a :: rest =>
      let d' := (DB_serve_action d a).1 in
      match p, a with
      | AtThrottle, ActThrottle =>
          serve_meets d' (InSelect (throttle_timer d) (throttle_pause d)) rest
      | AtThrottle, _ => false
      | InSelect _ _, ActThrottle => false
      | InSelect slowdown pause, ActWrite writes _ =>
          negb pause
          && (negb (Group_Empty writes)
              || match slowdown with Some _ => true | None => false end)
          && serve_meets d' AtThrottle rest
      | InSelect _ _, ActNextLogFile (Some f) =>
          negb (nextLogNumber d =? 0) && (f_number f =? nextLogNumber d)
          && serve_meets d' AtThrottle rest
      | InSelect _ _, ActNextLogFile None => false
      | InSelect slowdown pause, ActCollectionDone =>
          collectionFiles d && serve_meets d' (InSelect slowdown pause) rest
      | InSelect _ _, ActCompactionResult r =>
          negb (cr_aborted r)
          && (if cr_level r =? -1 then compactionMemory d
              else (0 <=? cr_level r) && (compactionLevel d =? cr_level r))
          && serve_meets d' AtThrottle rest
      end
  end.

End Engine.

(** *** The coordinator on concrete databases *)


(** A database whose memtable, of 20 bytes, has outgrown a write buffer
    of 17 bytes without reaching the pause at 17 + 17/4 = 21 bytes, with no
    immutable memtable and an empty level 0. *)
Definition filling_db : DB :=
  {| mem := mem open_db; imm := None;
     state := {| st_current := seven_levels [] [];
                 st_lastSequence := 5; st_nextFileNumber := 7;
                 st_logNumber := 3; st_manifestNumber := 1 |};
     closing := false;
     options := {| Comparator := BytewiseComparer; WriteBufferSize := 17;
                   CreateIfMissing := false; ErrorIfExists := false |};
     log := Some {| lw_file := 3; lw_offset := 0 |}; logErr := None;
     logFile := Some (new_log_file 3); logNumber := 3; nextLogNumber := 0;
     collectionFiles := false; compactionLevel := -1; compactionMemory := false;
     compactionErr := None; bgGroup := 0; snapshots := [] |}.

(** The serving routine meets: the throttle (which asks for the next
    log file and neither pauses nor delays), a write whose log append
    fails, the throttle, the pre-opened log file 7, the throttle, another
    write. *)
Definition rotation_after_failure : list action :=
  [ActThrottle; ActWrite (one_put "k" "v") io_fails; ActThrottle;
   ActNextLogFile (Some (new_log_file 7)); ActThrottle;
   ActWrite (one_put "k" "v") io_ok].

(** An open database with an empty memtable and twelve files in level 0. *)
Definition crowded_db : DB :=
  {| mem := MemTable_New BytewiseComparer; imm := None;
     state := {| st_current :=
                   seven_levels (map (fun n => table_numbered n []) (seqZ 10 12)) [];
                 st_lastSequence := 5; st_nextFileNumber := 30;
                 st_logNumber := 3; st_manifestNumber := 1 |};
     closing := false; options := plain_Options;
     log := Some {| lw_file := 3; lw_offset := 0 |}; logErr := None;
     logFile := Some (new_log_file 3); logNumber := 3; nextLogNumber := 0;
     collectionFiles := false; compactionLevel := -1; compactionMemory := false;
     compactionErr := None; bgGroup := 0; snapshots := [] |}.

(** A log file with one complete batch and a torn tail, on a file
    system whose files cannot seek; and the same on one whose files can. *)
Definition torn_log (seek : option error) : File :=
  {| f_number := 3;
     f_records := [(plain_Bytes {| b_sequence := 6;
                                   b_items := [ {| i_kind := Value; i_key := b "k";
                                                   i_value := b "v" |} ] |}, 24)];
     f_tail := ErrIncompleteRecord; f_size := 31; f_pos := 0; f_closed := false;
     f_truncate_err := None; f_seek_err := seek |}.

Definition torn_fs (seek : option error) : FileSystem :=
  {| fs_lock_err := None; fs_current_exists := true; fs_list_err := None;
     fs_names := ["CURRENT"; "LOCK"; "LOG"; "MANIFEST-000001"; "000003.log"];
     fs_logs := {[ 3 := torn_log seek ]};
     fs_create_err := None; fs_compact_err := None |}.

(** A recovered state whose version refers to table 5, in a directory
    that holds no table file at all. *)
Definition state_with_table_5 : State :=
  {| st_current := seven_levels [table_numbered 5 []] [];
     st_lastSequence := 5; st_nextFileNumber := 7;
     st_logNumber := 3; st_manifestNumber := 1 |}.

Definition fs_without_tables : FileSystem :=
  {| fs_lock_err := None; fs_current_exists := true; fs_list_err := None;
     fs_names := ["CURRENT"; "LOCK"; "LOG"; "MANIFEST-000001"; "000003.log"];
     fs_logs := {[ 3 := new_log_file 3 ]};
     fs_create_err := None; fs_compact_err := None |}.

Definition manifest_edit : Edit :=
  {| ed_LogNumber := 3; ed_LastSequence := 5; ed_NextFileNumber := 8;
     ed_deleted := []; ed_added := [] |}.









Lemma DB_log_error_sticky_witness :
  logIO_result (g_Sync (one_put "k" "v")) io_fails = Some (ErrIO "disk full") /\
  forallb no_new_log [ActThrottle; ActWrite (one_put "k" "v") io_ok] = true /\
  Forall2 (answered_with (ErrIO "disk full"))
    [ActThrottle; ActWrite (one_put "k" "v") io_ok]
    (DB_serve plain_Bytes plain_Apply plain_PickCompaction
       (DB_writeBatchGroup plain_Bytes open_db (one_put "k" "v") io_fails).1.1
       [ActThrottle; ActWrite (one_put "k" "v") io_ok]).2.
Proof.
  split; [reflexivity|]. split; [reflexivity|].
  exact (proj2 (proj2 (proj2 (proj2 (proj2 (proj2 (proj2 (proj2
    (DB_log_error_sticky plain_Bytes plain_Apply plain_PickCompaction open_db
       (one_put "k" "v") io_fails {| lw_file := 3; lw_offset := 0 |}
       (ErrIO "disk full") [ActThrottle; ActWrite (one_put "k" "v") io_ok]
       eq_refl eq_refl eq_refl eq_refl eq_refl))))))))).
Defined.

(** C4 as stated fails here, on a run the serving routine can make:
    the first throttle asks for the next log file and does not pause
    (20 bytes in use, a buffer of 17, the pause at 21), the log append of
    the write that follows fails, and the database is never closed; yet
    after the pre-opened log file 7 has arrived the last write is appended
    to it, applied and answered with success. *)
Lemma DB_write_succeeds_after_rotation :
  MemTable_ApproximateMemoryUsage (mem filling_db) = 20 /\
  (DB_throttle filling_db).1.2 = (None, false) /\
  (DB_throttle filling_db).2 = [EvGo (JobOpenNextLog 7)] /\
  serve_meets plain_Bytes plain_Apply plain_PickCompaction filling_db AtThrottle
    rotation_after_failure = true /\
  (DB_serve plain_Bytes plain_Apply plain_PickCompaction filling_db
     rotation_after_failure).2 !! 1%nat =
    Some [EvLogWrite {| lw_file := 3; lw_offset := 0 |}
            (plain_Bytes (Batch_SetSequence (g_Batch (one_put "k" "v")) 6));
          EvSend (Some (ErrIO "disk full")); EvFileClose 3] /\
  (DB_serve plain_Bytes plain_Apply plain_PickCompaction filling_db
     rotation_after_failure).2 !! 5%nat =
    Some [EvLogWrite {| lw_file := 7; lw_offset := 0 |}
            (plain_Bytes (Batch_SetSequence (g_Batch (one_put "k" "v")) 7));
          EvMemApply (Batch_SetSequence (g_Batch (one_put "k" "v")) 7);
          EvSend None] /\
  closing (DB_serve plain_Bytes plain_Apply plain_PickCompaction filling_db
             rotation_after_failure).1 = false /\
  logErr (DB_serve plain_Bytes plain_Apply plain_PickCompaction filling_db
            rotation_after_failure).1 = None.
Proof. split_and!; reflexivity. Qed.

(** C5 (the code departs from the claim): the recovered version refers
    to table 5, the directory holds no file that parses as table 5, and
    [Open] returns a database handle. *)
Theorem Open_accepts_missing_table :
  State_liveTables state_with_table_5 = [5] /\
  files_Parse "000005.ldb" = (KindTable, 5) /\
  existsb (names_table 5) (fs_names fs_without_tables) = false /\
  is_missing_tables
    (Open plain_Split plain_Apply plain_PickCompaction
          (inl state_with_table_5) fs_without_tables plain_Options).1 = false /\
  match (Open plain_Split plain_Apply plain_PickCompaction
              (inl state_with_table_5) fs_without_tables plain_Options).1 with
  | inl d => State_liveTables (state d) = [5] /\ closing d = false
  | inr _ => False
  end.
Proof. vm_compute. split_and!; reflexivity. Qed.

Lemma DB_loadLog_torn_tail_witness :
  fs_logs (torn_fs None) !! 3 = Some (torn_log None) /\
  f_tail (torn_log None) = ErrIncompleteRecord /\
  ld_err (DB_loadLog plain_Split (torn_fs None) (MemTable_New BytewiseComparer) 3 5) = None /\
  ld_offset (DB_loadLog plain_Split (torn_fs None) (MemTable_New BytewiseComparer) 3 5) = 24.
Proof.
  split; [reflexivity|]. split; [reflexivity|].
  destruct (DB_loadLog_torn_tail plain_Split plain_Apply (torn_fs None)
              (MemTable_New BytewiseComparer) 3 5 (torn_log None)
              eq_refl eq_refl eq_refl)
    as (Ho & _ & He & _).
  split; [exact He | exact Ho].
Defined.

(** C6 as stated fails here: the reader reports a torn tail after one
    complete batch, the file cannot seek, and [loadLog] returns the seek's
    error; recovery of the database fails with it. *)
Lemma DB_loadLog_torn_tail_seek_fails :
  f_tail (torn_log (Some (ErrIO "seek"))) = ErrIncompleteRecord /\
  forallb (well_formed plain_Split) (map fst (f_records (torn_log (Some (ErrIO "seek"))))) = true /\
  ld_err (DB_loadLog plain_Split (torn_fs (Some (ErrIO "seek")))
            (MemTable_New BytewiseComparer) 3 5) = Some (ErrIO "seek") /\
  (Open plain_Split plain_Apply plain_PickCompaction
        (inl state_with_table_5) (torn_fs (Some (ErrIO "seek"))) plain_Options).1 =
    inr (ErrIO "seek").
Proof. split_and!; reflexivity. Qed.

Lemma DB_throttle_delay_and_pause_witness :
  log open_db = Some {| lw_file := 3; lw_offset := 0 |} /\
  compactionErr open_db = None /\
  (throttle_pause open_db = true <->
     WriteBufferSize (options open_db) < MemTable_ApproximateMemoryUsage (mem open_db) /\
     (L0StopWritesFiles <= level0NumFiles open_db \/
      pause_threshold (WriteBufferSize (options open_db))
        <= MemTable_ApproximateMemoryUsage (mem open_db))).
Proof.
  split; [reflexivity|]. split; [reflexivity|].
  exact (proj1 (DB_throttle_delay_and_pause open_db {| lw_file := 3; lw_offset := 0 |}
                  eq_refl eq_refl)).
Defined.

(** C7 as stated fails here: the log is open, no compaction error is
    pending and level 0 holds twelve files, yet writes do not pause,
    because the memtable usage does not exceed the write buffer. *)
Lemma DB_throttle_level0_alone :
  log crowded_db = Some {| lw_file := 3; lw_offset := 0 |} /\
  compactionErr crowded_db = None /\
  level0NumFiles crowded_db = 12 /\
  L0StopWritesFiles <= level0NumFiles crowded_db /\
  throttle_pause crowded_db = false.
Proof. split_and!; reflexivity. Qed.


(** *** More concrete runs *)

(** A memory compaction reports success, then a file collection ends. *)
Definition compaction_then_collection : list action :=
  [ActCompactionResult {| cr_level := -1; cr_err := None; cr_edit := Some manifest_edit;
                          cr_aborted := false |};
   ActCollectionDone].

Lemma DB_serve_collection_excludes_compaction_witness :
  collection_alone open_db = true /\
  collection_alone
    (DB_serve plain_Bytes plain_Apply plain_PickCompaction open_db
       compaction_then_collection).1 = true.
Proof.
  split; [reflexivity|].
  exact (proj1 (DB_serve_collection_excludes_compaction plain_Bytes plain_Apply
                  plain_PickCompaction open_db compaction_then_collection eq_refl)).
Defined.

(** A log file that holds one batch and then four bytes that are no
    batch, and a log file that holds the batch alone. *)
Definition one_batch : bytes * Z :=
  (plain_Bytes {| b_sequence := 6;
                  b_items := [ {| i_kind := Value; i_key := b "k"; i_value := b "v" |} ] |}, 24).

Definition log_of_records (records : list (bytes * Z)) : File :=
  {| f_number := 3; f_records := records; f_tail := EOF; f_size := 40; f_pos := 0;
     f_closed := false; f_truncate_err := None; f_seek_err := None |}.

Definition fs_with_log (f : File) : FileSystem :=
  {| fs_lock_err := None; fs_current_exists := true; fs_list_err := None;
     fs_names := ["CURRENT"; "LOCK"; "LOG"; "MANIFEST-000001"; "000003.log"];
     fs_logs := {[ 3 := f ]};
     fs_create_err := None; fs_compact_err := None |}.

Lemma DB_loadLog_corrupt_batch_witness :
  well_formed plain_Split (b "junk") = false /\
  ld_err (DB_loadLog plain_Split
            (fs_with_log (log_of_records [one_batch; (b "junk", 35); one_batch]))
            (MemTable_New BytewiseComparer) 3 5) = Some ErrCorruptWriteBatch /\
  ld_mem (DB_loadLog plain_Split
            (fs_with_log (log_of_records [one_batch; (b "junk", 35); one_batch]))
            (MemTable_New BytewiseComparer) 3 5) =
    replay plain_Split (MemTable_New BytewiseComparer) one_batch.1.
Proof.
  split; [reflexivity|].
  destruct (DB_loadLog_corrupt_batch plain_Split
              (fs_with_log (log_of_records [one_batch; (b "junk", 35); one_batch]))
              (MemTable_New BytewiseComparer) 3 5
              (log_of_records [one_batch; (b "junk", 35); one_batch])
              [one_batch] (b "junk", 35) [one_batch] eq_refl eq_refl eq_refl eq_refl)
    as (He & _ & _ & _ & Hm).
  exact (conj He Hm).
Defined.

Lemma DB_loadLog_replays_to_end_witness :
  ld_err (DB_loadLog plain_Split (fs_with_log (log_of_records [one_batch]))
            (MemTable_New BytewiseComparer) 3 5) = None /\
  ld_offset (DB_loadLog plain_Split (fs_with_log (log_of_records [one_batch]))
               (MemTable_New BytewiseComparer) 3 5) = 24 /\
  5 <= ld_maxSequence (DB_loadLog plain_Split (fs_with_log (log_of_records [one_batch]))
                         (MemTable_New BytewiseComparer) 3 5).
Proof.
  destruct (DB_loadLog_replays_to_end plain_Split (fs_with_log (log_of_records [one_batch]))
              (MemTable_New BytewiseComparer) 3 5 (log_of_records [one_batch])
              eq_refl eq_refl eq_refl)
    as (He & _ & Ho & _ & _ & Hq & _).
  exact (conj He (conj Ho Hq)).
Defined.

Lemma recoverDB_listing_order_witness :
  recoverDB plain_Split plain_Apply plain_PickCompaction (inl state_with_table_5)
    (with_names fs_without_tables
       ["000003.log"; "MANIFEST-000001"; "LOG"; "LOCK"; "CURRENT"]) plain_Options =
  recoverDB plain_Split plain_Apply plain_PickCompaction (inl state_with_table_5)
    fs_without_tables plain_Options.
Proof.
  exact (recoverDB_listing_order plain_Split plain_Apply plain_PickCompaction
           (inl state_with_table_5) fs_without_tables plain_Options
           ["000003.log"; "MANIFEST-000001"; "LOG"; "LOCK"; "CURRENT"]
           (Permutation_rev (fs_names fs_without_tables))).
Defined.

Lemma DB_openNextLog_retries_at_once_witness :
  DB_openNextLog
    [ {| ot_open := inr (ErrIO "no space"); ot_closing := false |};
      {| ot_open := inr (ErrIO "no space"); ot_closing := false |};
      {| ot_open := inl (new_log_file 8); ot_closing := true |} ] =
    ([NlSleep 0; NlSleep 0; NlSend (Some (new_log_file 8))], true).
Proof.
  exact (proj1 (DB_openNextLog_retries_at_once
                  [ {| ot_open := inr (ErrIO "no space"); ot_closing := false |};
                    {| ot_open := inr (ErrIO "no space"); ot_closing := false |} ]
                  {| ot_open := inl (new_log_file 8); ot_closing := true |} []
                  eq_refl eq_refl)).
Defined.

(** The open database once its immutable memtable has been compacted
    and the log file 9 has been asked for. *)
Definition waiting_for_log : DB := set_nextLogNumber (set_imm open_db None) 9.

Lemma DB_serve_rotates_without_loss_witness :
  rotation_ready waiting_for_log = true /\
  imm (DB_serve_action plain_Bytes plain_Apply plain_PickCompaction waiting_for_log
         (ActNextLogFile (Some (new_log_file 9)))).1 = Some (mem open_db) /\
  logNumber (DB_serve_action plain_Bytes plain_Apply plain_PickCompaction waiting_for_log
               (ActNextLogFile (Some (new_log_file 9)))).1 = 9.
Proof.
  split; [reflexivity|].
  destruct (DB_serve_rotates_without_loss plain_Bytes plain_Apply plain_PickCompaction
              waiting_for_log [] (new_log_file 9) eq_refl) as (_ & H).
  destruct (H ltac:(discriminate)) as (_ & Hi & _ & _ & _ & Hn & _).
  exact (conj Hi Hn).
Defined.

End leveldb.
